(** * ApplyOpSpecialization: a shallow embedding of the quake.apply
      specialization pass (lib/Optimizer/Transforms/ApplyOpSpecialization.cpp)
      and of the cc.loop verifier (lib/Optimizer/Dialect/CC/CCOps.cpp).

    The IR substrate is modelled the way the pass observes it:
    - an [Operation] has an identity (its address, here [op_id]), a registered
      name, operands, an attribute dictionary, result types, regions and the
      block that owns it ([getBlock]);
    - a [Value] is either a block argument (with an identity of its own) or
      the i-th result of its defining operation; [getDefiningOp] follows the
      use-def edge, so a value carries its definition;
    - pointer comparisons of the source are comparisons of identities;
    - dereferencing a null pointer, indexing past the end of a range and the
      [cast]/[dyn_cast] of a null pointer have no defined result: every
      function below that may do so returns [option], with [None] for
      "no defined behaviour". *)

From Stdlib Require Import List ZArith String Bool Arith Lia.
Import ListNotations.
Local Open Scope string_scope.
Local Open Scope list_scope.

Set Implicit Arguments.

(** ** The error monad *)

Module Res.
Definition bind {A B : Type} (m : option A) (k : A -> option B) : option B :=
  match m with
  | Some a => k a
  | None => None
  end.
End Res.

Notation "x <- m ;; k" := (Res.bind m (fun x => k))
  (at level 61, m at next level, right associativity).

(** ** Types, attributes and the IR graph *)

Inductive Ty : Type :=
| TInt (width : nat)
| TIndex
| TFloat (width : nat)
| TMemRef (shape : list Z) (elem : Ty)
| TQVec (size : option nat)
| TQRef
| TOther (name : string).

Module CmpIPredicate.
Inductive t : Type :=
| eq | ne | slt | sle | sgt | sge | ult | ule | ugt | uge.
End CmpIPredicate.

Inductive Attr : Type :=
| AUnit
| ABool (b : bool)
| AInt (z : Z) (ty : Ty)
| AI32Array (l : list Z)
| ASym (s : string)
| APred (p : CmpIPredicate.t)
| AFunctionType (inputs results : list Ty).

Inductive Value : Type :=
| BlockArg (arg_id : nat) (ty : Ty)
| OpResult (def : Operation) (idx : nat)
with Operation : Type :=
| mkOp (id : nat) (name : string) (operands : list Value)
       (attrs : list (string * Attr)) (resultTypes : list Ty)
       (regions : list (list Block)) (parent : nat)
with Block : Type :=
| mkBlock (id : nat) (args : list (nat * Ty)) (ops : list Operation).

Definition Region := list Block.

Definition op_id (o : Operation) : nat :=
  match o with mkOp i _ _ _ _ _ _ => i end.
Definition op_name (o : Operation) : string :=
  match o with mkOp _ n _ _ _ _ _ => n end.
Definition getOperands (o : Operation) : list Value :=
  match o with mkOp _ _ vs _ _ _ _ => vs end.
Definition getAttrs (o : Operation) : list (string * Attr) :=
  match o with mkOp _ _ _ a _ _ _ => a end.
Definition getResultTypes (o : Operation) : list Ty :=
  match o with mkOp _ _ _ _ t _ _ => t end.
Definition getRegions (o : Operation) : list Region :=
  match o with mkOp _ _ _ _ _ r _ => r end.
Definition getBlock (o : Operation) : nat :=
  match o with mkOp _ _ _ _ _ _ b => b end.

Definition blk_id (b : Block) : nat :=
  match b with mkBlock i _ _ => i end.
Definition blk_args (b : Block) : list (nat * Ty) :=
  match b with mkBlock _ a _ => a end.
Definition blk_ops (b : Block) : list Operation :=
  match b with mkBlock _ _ o => o end.

Definition getNumRegions (o : Operation) : nat := List.length (getRegions o).
Definition getNumResults (o : Operation) : nat :=
  List.length (getResultTypes o).
Definition getResult (o : Operation) (i : nat) : Value := OpResult o i.
Definition getResults (o : Operation) : list Value :=
  map (OpResult o) (seq 0 (getNumResults o)).

(** [Block::getArguments]. *)
Definition getArguments (b : Block) : list Value :=
  map (fun a => BlockArg (fst a) (snd a)) (blk_args b).

(** [Value::getDefiningOp]: null for a block argument. *)
Definition getDefiningOp (v : Value) : option Operation :=
  match v with
  | BlockArg _ _ => None
  | OpResult d _ => Some d
  end.

Definition getType (v : Value) : Ty :=
  match v with
  | BlockArg _ t => t
  | OpResult d i => nth i (getResultTypes d) (TOther "")
  end.

(** Pointer equality on operations and values. *)
Definition op_eqb (a b : Operation) : bool := Nat.eqb (op_id a) (op_id b).

Definition value_eqb (a b : Value) : bool :=
  match a, b with
  | BlockArg x _, BlockArg y _ => Nat.eqb x y
  | OpResult d i, OpResult e j => op_eqb d e && Nat.eqb i j
  | _, _ => false
  end.

(** Comparison of two possibly-null operation pointers. *)
Definition optop_eqb (a b : option Operation) : bool :=
  match a, b with
  | Some x, Some y => op_eqb x y
  | None, None => true
  | _, _ => false
  end.

(** [std::find(range.begin(), range.end(), v) != range.end()]. *)
Definition findValue (v : Value) (l : list Value) : bool :=
  existsb (value_eqb v) l.
Definition findOp (o : option Operation) (l : list Operation) : bool :=
  existsb (fun x => optop_eqb o (Some x)) l.

(** Attribute dictionary. *)
Fixpoint getAttr (n : string) (l : list (string * Attr)) : option Attr :=
  match l with
  | [] => None
  | (k, a) :: l' => if String.eqb k n then Some a else getAttr n l'
  end.
Definition hasAttr (n : string) (o : Operation) : bool :=
  match getAttr n (getAttrs o) with Some _ => true | None => false end.
Fixpoint removeAttrL (n : string) (l : list (string * Attr)) :
  list (string * Attr) :=
  match l with
  | [] => []
  | (k, a) :: l' =>
      if String.eqb k n then removeAttrL n l' else (k, a) :: removeAttrL n l'
  end.
Definition setAttrL (n : string) (a : Attr) (l : list (string * Attr)) :
  list (string * Attr) :=
  match getAttr n l with
  | Some _ => map (fun ka => if String.eqb (fst ka) n then (n, a) else ka) l
  | None => l ++ [(n, a)]
  end.

Definition withOperands (o : Operation) (vs : list Value) : Operation :=
  match o with mkOp i n _ a t r b => mkOp i n vs a t r b end.
Definition withRegions (o : Operation) (r : list Region) : Operation :=
  match o with mkOp i n vs a t _ b => mkOp i n vs a t r b end.

(** [isa<T>(op)] and [dyn_cast<T>(op)] on a non-null operation test the
    registered name. *)
Definition isa (n : string) (o : Operation) : bool := String.eqb (op_name o) n.

(** [Region::back], [Block::back]: undefined on an empty range. *)
Definition back {A : Type} (l : list A) : option A :=
  match rev l with
  | [] => None
  | x :: _ => Some x
  end.
Definition front {A : Type} (l : list A) : option A := hd_error l.

(** [Block::getTerminator]: the last operation of the block. *)
Definition getTerminator (b : Block) : option Operation := back (blk_ops b).

Definition hasOneBlock (r : Region) : bool :=
  match r with
  | [_] => true
  | _ => false
  end.
Definition empty {A : Type} (l : list A) : bool :=
  match l with
  | [] => true
  | _ => false
  end.

(** ** cc.loop accessors

    The loop has three regions by its declaration; the accessors read them by
    position.  [hasStep] is [!getStepRegion().empty()], as the verifier and
    the printer of CCOps.cpp test it. *)
Module LoopOp.
Definition name : string := "cc.loop".
Definition getInitArgs (l : Operation) : list Value := getOperands l.
Definition getWhileRegion (l : Operation) : Region := nth 0 (getRegions l) [].
Definition getBodyRegion (l : Operation) : Region := nth 1 (getRegions l) [].
Definition getStepRegion (l : Operation) : Region := nth 2 (getRegions l) [].
Definition isPostConditional (l : Operation) : bool :=
  match getAttr "post_condition" (getAttrs l) with
  | Some (ABool b) => b
  | _ => false
  end.
Definition hasStep (l : Operation) : bool := negb (empty (getStepRegion l)).
End LoopOp.

(** cc.condition: operand 0 is the condition, the rest are the results. *)
Module ConditionOp.
Definition name : string := "cc.condition".
Definition getCondition (c : Operation) : option Value :=
  nth_error (getOperands c) 0.
Definition getResults (c : Operation) : list Value := tl (getOperands c).
End ConditionOp.

Definition getOperand (o : Operation) (i : nat) : option Value :=
  nth_error (getOperands o) i.

(** [LoopOp::verify] (CCOps.cpp): the init args, the results, the arguments
    of the entry block of every region, the results of the cc.condition and
    the operands of the cc.continue of the step region all have the same
    size.  [front] of an empty region is undefined. *)
Module LoopOpVerifier.
Definition verify (l : Operation) : option bool :=
  let initArgsSize := List.length (LoopOp.getInitArgs l) in
  if negb (Nat.eqb (List.length (getResults l)) initArgsSize) then Some false
  else
    whileFront <- front (LoopOp.getWhileRegion l) ;;
    if negb (Nat.eqb (List.length (getArguments whileFront)) initArgsSize)
    then Some false
    else
      condOp <- getTerminator whileFront ;;
      if negb (isa ConditionOp.name condOp) then Some false
      else if negb (Nat.eqb (List.length (ConditionOp.getResults condOp))
                      initArgsSize)
      then Some false
      else
        bodyFront <- front (LoopOp.getBodyRegion l) ;;
        if negb (Nat.eqb (List.length (getArguments bodyFront)) initArgsSize)
        then Some false
        else if negb (empty (LoopOp.getStepRegion l)) then
          stepFront <- front (LoopOp.getStepRegion l) ;;
          if negb (Nat.eqb (List.length (getArguments stepFront))
                     initArgsSize)
          then Some false
          else
            contOp <- getTerminator stepFront ;;
            if negb (isa "cc.continue" contOp) then Some false
            else Some (Nat.eqb (List.length (getOperands contOp))
                         initArgsSize)
        else Some true.
End LoopOpVerifier.

(** arith.cmpi / arith.addi / arith.subi: [getLhs], [getRhs]. *)
Definition getLhs (o : Operation) : option Value := getOperand o 0.
Definition getRhs (o : Operation) : option Value := getOperand o 1.
Definition getPredicate (o : Operation) : option CmpIPredicate.t :=
  match getAttr "predicate" (getAttrs o) with
  | Some (APred p) => Some p
  | _ => None
  end.

(** memref.load %m[] / memref.store %v, %m[]. *)
Module LoadOp.
Definition getMemRef (o : Operation) : option Value := getOperand o 0.
End LoadOp.
Module StoreOp.
Definition getValue (o : Operation) : option Value := getOperand o 0.
Definition getMemRef (o : Operation) : option Value := getOperand o 1.
End StoreOp.

Definition isAddOrSub (o : Operation) : bool :=
  isa "arith.addi" o || isa "arith.subi" o.

(** ** The counted-loop recognizer *)

(** [hasMonotonicPHIControl]: the value-domain matcher. *)
Definition hasMonotonicPHIControl (loop : Operation) : option bool :=
  if empty (LoopOp.getInitArgs loop) || empty (getResults loop) then Some false
  else
    whileBlock <- back (LoopOp.getWhileRegion loop) ;;
    condition <- back (blk_ops whileBlock) ;;
    if negb (isa ConditionOp.name condition) then Some false
    else
      a0 <- nth_error (getArguments whileBlock) 0 ;;
      r0 <- nth_error (ConditionOp.getResults condition) 0 ;;
      if negb (value_eqb a0 r0) then Some false
      else
        cond <- ConditionOp.getCondition condition ;;
        cmpOp <- getDefiningOp cond ;;
        if negb (findValue a0 (getOperands cmpOp)) then Some false
        else
          bodyBlock <- back (LoopOp.getBodyRegion loop) ;;
          bodyTermOp <- back (blk_ops bodyBlock) ;;
          if negb (isa "cc.continue" bodyTermOp) then Some false
          else
            b0 <- nth_error (getArguments bodyBlock) 0 ;;
            t0 <- getOperand bodyTermOp 0 ;;
            if negb (value_eqb b0 t0) then Some false
            else
              stepBlock <- back (LoopOp.getStepRegion loop) ;;
              backedgeOp <- back (blk_ops stepBlock) ;;
              if negb (isa "cc.continue" backedgeOp) then Some false
              else
                next <- getOperand backedgeOp 0 ;;
                mutateOp <- getDefiningOp next ;;
                if negb (isAddOrSub mutateOp) then Some false
                else
                  s0 <- nth_error (getArguments stepBlock) 0 ;;
                  if negb (findValue s0 (getOperands mutateOp)) then Some false
                  else Some true.

(** [populateComparisonTemps]: the work list is a stack ([back], [pop_back],
    [push_back]); every round pops one operation, so [fuel] bounds the number
    of rounds of the do-while loop. *)
Definition isScalarIntegral (t : Ty) : bool :=
  match t with
  | TMemRef shape (TInt _) => empty shape
  | _ => false
  end.

Definition defsInBlock (whileBlock : nat) (vs : list Value) : list Operation :=
  flat_map (fun v =>
    match getDefiningOp v with
    | Some def => if Nat.eqb (getBlock def) whileBlock then [def] else []
    | None => []
    end) vs.

Fixpoint populate_loop (fuel : nat) (whileBlock : nat)
  (worklist results : list Operation) : option (list Operation) :=
  match fuel with
  | O => None
  | S fuel' =>
      op <- back worklist ;;
      let worklist := removelast worklist in
      step <-
        (if isa "memref.load" op then
           m <- LoadOp.getMemRef op ;;
           match getDefiningOp m with
           | Some defOp =>
               if isa "memref.alloca" defOp
                  && isScalarIntegral (nth 0 (getResultTypes defOp) (TOther ""))
               then Some (worklist, results ++ [defOp])
               else Some (worklist, results)
           | None => Some (worklist, results)
           end
         else Some (worklist ++ defsInBlock whileBlock (getOperands op),
                    results)) ;;
      if empty (fst step) then Some (snd step)
      else populate_loop fuel' whileBlock (fst step) (snd step)
  end.

Fixpoint op_size (o : Operation) : nat :=
  match o with
  | mkOp _ _ vs _ _ _ _ =>
      S ((fix go (l : list Value) : nat :=
            match l with
            | [] => 0
            | v :: l' =>
                match v with
                | BlockArg _ _ => 0
                | OpResult d _ => op_size d
                end + go l'
            end) vs)
  end.

Definition populateComparisonTemps (cmpOp : Operation) (whileBlock : Block) :
  option (list Operation) :=
  populate_loop (op_size cmpOp) (blk_id whileBlock) [cmpOp] [].

(** The counting loop of [hasMonotonicLCV] for one operation of the step
    block: the number of operands of the stored add/sub that are loads of the
    stored-to cell. *)
Definition countOperand (storeTo : option Operation) (defOpnd : Value) :
  option nat :=
  d <- getDefiningOp defOpnd ;;
  if isa "memref.load" d then
    m <- LoadOp.getMemRef d ;;
    if optop_eqb storeTo (getDefiningOp m) then Some 1 else Some 0
  else Some 0.

Fixpoint countOperands (storeTo : option Operation) (l : list Value) :
  option nat :=
  match l with
  | [] => Some 0
  | v :: l' =>
      c <- countOperand storeTo v ;;
      r <- countOperands storeTo l' ;;
      Some (c + r)
  end.

Definition countStore (comparisonTemps : list Operation) (op : Operation) :
  option nat :=
  if isa "memref.store" op then
    m <- StoreOp.getMemRef op ;;
    if findOp (getDefiningOp m) comparisonTemps then
      v <- StoreOp.getValue op ;;
      match getDefiningOp v with
      | Some def =>
          if isAddOrSub def
          then countOperands (getDefiningOp m) (getOperands def)
          else Some 0
      | None => Some 0
      end
    else Some 0
  else Some 0.

Fixpoint countStores (comparisonTemps : list Operation)
  (l : list Operation) : option nat :=
  match l with
  | [] => Some 0
  | op :: l' =>
      c <- countStore comparisonTemps op ;;
      r <- countStores comparisonTemps l' ;;
      Some (c + r)
  end.

(** [hasMonotonicLCV]: the memory-domain matcher. *)
Definition hasMonotonicLCV (loop : Operation) : option bool :=
  if negb (empty (LoopOp.getInitArgs loop)) && negb (empty (getResults loop))
  then Some false
  else
    whileBlock <- back (LoopOp.getWhileRegion loop) ;;
    condition <- back (blk_ops whileBlock) ;;
    if negb (isa ConditionOp.name condition) then Some false
    else
      cond <- ConditionOp.getCondition condition ;;
      match getDefiningOp cond with
      | None => Some false
      | Some cmpOp =>
          if negb (isa "arith.cmpi" cmpOp) then Some false
          else
            comparisonTemps <- populateComparisonTemps cmpOp whileBlock ;;
            stepBlock <- back (LoopOp.getStepRegion loop) ;;
            count <- countStores comparisonTemps (rev (blk_ops stepBlock)) ;;
            if negb (Nat.eqb count 1) then Some false else Some true
      end.

(** [hasMonotonicControlInduction]: [a || b] evaluates [b] only when [a] is
    false. *)
Definition hasMonotonicControlInduction (loop : Operation) : option bool :=
  a <- hasMonotonicLCV loop ;;
  if a then Some true else hasMonotonicPHIControl loop.

(** [isaCountedLoop]. *)
Definition isaCountedLoop (op : Operation) : option bool :=
  if isa LoopOp.name op then
    if LoopOp.isPostConditional op || negb (LoopOp.hasStep op) then Some false
    else
      let reg := LoopOp.getBodyRegion op in
      if negb (negb (empty reg) && hasOneBlock reg) then Some false
      else
        blk <- front reg ;;
        term <- getTerminator blk ;;
        if negb (isa "cc.continue" term) then Some false
        else hasMonotonicControlInduction op
  else Some false.

(** ** The structured-control-flow classifier

    [regionHasUnstructuredControlFlow] recurses through the regions of the
    operations of the single block; [unstructuredOp] is the body of its
    [for] loop ([Some true]: the function returns true; [Some false]: the
    loop goes on to the next operation). *)
Definition isaIfOp (op : Operation) : bool := isa "cc.if" op.

Fixpoint unstructuredOp (op : Operation) : option bool :=
  match op with
  | mkOp _ _ _ _ _ regions _ =>
      if Nat.eqb (getNumRegions op) 0 then Some false
      else
        unknown <-
          (if negb (isaIfOp op) then
             c <- isaCountedLoop op ;;
             if negb c then Some (Nat.ltb 1 (getNumRegions op)) else Some false
           else Some false) ;;
        if unknown then Some true
        else
          (fix regs (rs : list (list Block)) : option bool :=
             match rs with
             | [] => Some false
             | reg :: rs' =>
                 u <- match reg with
                      | [] => Some false
                      | [mkBlock _ _ ops] =>
                          (fix blockOps (l : list Operation) : option bool :=
                             match l with
                             | [] => Some false
                             | o :: l' =>
                                 u <- unstructuredOp o ;;
                                 if u then Some true else blockOps l'
                             end) ops
                      | _ => Some true
                      end ;;
                 if u then Some true else regs rs'
             end) regions
  end.

Fixpoint unstructuredOps (l : list Operation) : option bool :=
  match l with
  | [] => Some false
  | o :: l' =>
      u <- unstructuredOp o ;;
      if u then Some true else unstructuredOps l'
  end.

Definition regionHasUnstructuredControlFlow (region : Region) : option bool :=
  if empty region then Some false
  else if negb (hasOneBlock region) then Some true
  else
    block <- front region ;;
    unstructuredOps (blk_ops block).

Definition unstructuredRegions (rs : list Region) : option bool :=
  (fix regs (rs : list Region) : option bool :=
     match rs with
     | [] => Some false
     | reg :: rs' =>
         u <- regionHasUnstructuredControlFlow reg ;;
         if u then Some true else regs rs'
     end) rs.

Definition unknownMultiRegionOp (op : Operation) : option bool :=
  if negb (isaIfOp op) then
    c <- isaCountedLoop op ;;
    if negb c then Some (Nat.ltb 1 (getNumRegions op)) else Some false
  else Some false.

(** ** The rule of the memory-domain matcher in the words of the
       specification

    A store of the step block matches when it targets a candidate cell and
    stores the result of an add or subtract among whose operands is a load of
    that cell. *)
Definition storeTarget (op : Operation) : option Operation :=
  match StoreOp.getMemRef op with
  | Some m => getDefiningOp m
  | None => None
  end.

Definition storedUpdate (op : Operation) : option Operation :=
  match StoreOp.getValue op with
  | Some v =>
      match getDefiningOp v with
      | Some d => if isAddOrSub d then Some d else None
      | None => None
      end
  | None => None
  end.

Definition loadsCell (cell : option Operation) (v : Value) : bool :=
  match getDefiningOp v with
  | Some d =>
      isa "memref.load" d &&
      match LoadOp.getMemRef d with
      | Some m => optop_eqb cell (getDefiningOp m)
      | None => false
      end
  | None => false
  end.

(** The operands of the stored add/sub that load the stored-to cell (empty
    when the store is not a store to a candidate cell of an add/sub). *)
Definition matchingOperands (temps : list Operation) (op : Operation) :
  list Value :=
  if isa "memref.store" op && findOp (storeTarget op) temps then
    match storedUpdate op with
    | Some d => filter (loadsCell (storeTarget op)) (getOperands d)
    | None => []
    end
  else [].

Definition matchingStore (temps : list Operation) (op : Operation) : bool :=
  negb (empty (matchingOperands temps op)).

(** The scan of one operation of the step block dereferences the defining
    operation of every operand of a candidate store's add/sub; it is defined
    when those exist (and the loads and stores have their operands). *)
Definition operandDefined (v : Value) : bool :=
  match getDefiningOp v with
  | Some d => negb (isa "memref.load" d) || negb (empty (getOperands d))
  | None => false
  end.

Definition storeScanDefined (temps : list Operation) (op : Operation) : bool :=
  negb (isa "memref.store" op) ||
  match StoreOp.getMemRef op with
  | None => false
  | Some m =>
      negb (findOp (getDefiningOp m) temps) ||
      match StoreOp.getValue op with
      | None => false
      | Some v =>
          match getDefiningOp v with
          | Some d =>
              negb (isAddOrSub d) || forallb operandDefined (getOperands d)
          | None => true
          end
      end
  end.

(** The number of (store, operand) pairs that match in a list of
    operations. *)
Definition pairCount (temps : list Operation) (l : list Operation) : nat :=
  List.length (flat_map (matchingOperands temps) l).

(** The part of the loop the matcher looks at before it scans the step
    block: the loop does not both take initial arguments and return results,
    its while block ends in a cc.condition that tests the result of an
    arith.cmpi, [temps] are the candidate cells collected from that
    comparison and [stepBlock] is the block of the step region. *)
Definition memoryDomainShape (loop : Operation) (temps : list Operation)
  (stepBlock : Block) : Prop :=
  empty (LoopOp.getInitArgs loop) || empty (getResults loop) = true /\
  exists whileBlock condition cond cmpOp,
    back (LoopOp.getWhileRegion loop) = Some whileBlock /\
    back (blk_ops whileBlock) = Some condition /\
    isa ConditionOp.name condition = true /\
    ConditionOp.getCondition condition = Some cond /\
    getDefiningOp cond = Some cmpOp /\
    isa "arith.cmpi" cmpOp = true /\
    populateComparisonTemps cmpOp whileBlock = Some temps /\
    back (LoopOp.getStepRegion loop) = Some stepBlock.

(** ** The builder

    An [OpBuilder] creates operations at a fixed insertion point.  The model
    threads the supply of fresh identities; every function returns the
    operations it created, in creation order, and the caller places them at
    the insertion point. *)
Definition Builder (A : Type) : Type := nat -> option (A * nat).

Module Bld.
Definition ret {A : Type} (a : A) : Builder A := fun n => Some (a, n).
Definition bind {A B : Type} (m : Builder A) (k : A -> Builder B) :
  Builder B :=
  fun n => match m n with
           | Some (a, n') => k a n'
           | None => None
           end.
Definition lift {A : Type} (m : option A) : Builder A :=
  fun n => match m with
           | Some a => Some (a, n)
           | None => None
           end.
(** A failed [assert] or [cast]. *)
Definition check (b : bool) : Builder unit :=
  fun n => if b then Some (tt, n) else None.
(** [builder.create<T>(...)] at an insertion point inside block [blk]. *)
Definition create (blk : nat) (name : string) (operands : list Value)
  (attrs : list (string * Attr)) (tys : list Ty) (regions : list Region) :
  Builder Operation :=
  fun n => Some (mkOp n name operands attrs tys regions blk, S n).
(** [builder.clone(op)]: a copy of [op], with an identity of its own, at the
    insertion point. *)
Definition clone (blk : nat) (op : Operation) : Builder Operation :=
  create blk (op_name op) (getOperands op) (getAttrs op) (getResultTypes op)
    (getRegions op).
(** [block.addArgument(ty)]: a new block argument, with a new identity. *)
Definition freshArg : Builder nat := fun n => Some (n, S n).
End Bld.

Notation "x <~ m ;; k" := (Bld.bind m (fun x => k))
  (at level 61, m at next level, right associativity).

Definition createIntConstant (blk : nat) (ty : Ty) (val : Z) :
  Builder Value :=
  c <~ Bld.create blk "arith.constant" [] [("value", AInt val ty)] [ty] [] ;;
  Bld.ret (OpResult c 0).

Definition createBinary (blk : nat) (name : string) (a b : Value) :
  Builder Value :=
  o <~ Bld.create blk name [a; b] [] [getType a] [] ;;
  Bld.ret (OpResult o 0).

Definition createCmpI (blk : nat) (p : CmpIPredicate.t) (a b : Value) :
  Builder Value :=
  o <~ Bld.create blk "arith.cmpi" [a; b] [("predicate", APred p)] [TInt 1]
         [] ;;
  Bld.ret (OpResult o 0).

Definition createSelect (blk : nat) (ty : Ty) (c a b : Value) :
  Builder Value :=
  o <~ Bld.create blk "arith.select" [c; a; b] [] [ty] [] ;;
  Bld.ret (OpResult o 0).

Definition elementType (t : Ty) : Ty :=
  match t with
  | TMemRef _ e => e
  | _ => TOther ""
  end.

Definition createLoad (blk : nat) (memref : Value) : Builder Value :=
  o <~ Bld.create blk "memref.load" [memref] [] [elementType (getType memref)]
         [] ;;
  Bld.ret (OpResult o 0).

Definition createStore (blk : nat) (v memref : Value) : Builder Operation :=
  Bld.create blk "memref.store" [v; memref] [] [] [].

(** The operation that defines a value created by one of the functions
    above. *)
Definition defOf (v : Value) : list Operation :=
  match v with
  | OpResult d _ => [d]
  | BlockArg _ _ => []
  end.

(** [cloneRootSubexpression]: clones, at the insertion point, the operations
    of [block] that [root] depends on; the clones of the operands are created
    first and their results are dropped, and the clone of the root's defining
    operation keeps the operands of the original.  Returns the operations
    created and the value that stands for [root]. *)
Fixpoint cloneRootSubexpression (ins : nat) (block : nat) (root : Value)
  {struct root} : Builder (list Operation * Value) :=
  match root with
  | BlockArg _ _ => Bld.ret ([], root)
  | OpResult op _ =>
      match op with
      | mkOp _ _ vs _ _ _ owner =>
          if Nat.eqb owner block then
            subs <~ (fix go (l : list Value) : Builder (list Operation) :=
                       match l with
                       | [] => Bld.ret []
                       | v :: l' =>
                           r <~ cloneRootSubexpression ins block v ;;
                           rest <~ go l' ;;
                           Bld.ret (fst r ++ rest)
                       end) vs ;;
            c <~ Bld.clone ins op ;;
            Bld.ret (subs ++ [c], OpResult c 0)
          else Bld.ret ([], root)
      end
  end.

(** ** The loop reversal engine: what [cloneReversedLoop] recovers from the
       loop *)

Record LoopParts : Type := mkLoopParts {
  inductionIsValue : bool;
  cmpOp : Operation;
  inductionVar : option Operation;
  stepOp : Operation;
  initialValue : Value;
  terminalValue : Value;
  stepValue : Value;
  stepIsAnAddOp : bool;
  commuteTheAddOp : bool
}.

(** The lambda [pair0]: in the memory domain, the last store of the step
    block to a candidate cell, and the operation that defines the stored
    value. *)
Fixpoint findInductionStore (temps : list Operation) (l : list Operation) :
  option (option Operation * option Operation) :=
  match l with
  | [] => Some (None, None)
  | op :: l' =>
      if isa "memref.store" op then
        m <- StoreOp.getMemRef op ;;
        if findOp (getDefiningOp m) temps then
          v <- StoreOp.getValue op ;;
          Some (getDefiningOp m, getDefiningOp v)
        else findInductionStore temps l'
      else findInductionStore temps l'
  end.

(** The lambda [inductionOnLhs]: [Some None] stands for the null value. *)
Definition inductionOnLhs (inductionVar : option Operation)
  (binOp : Operation) : option (option Value) :=
  lhs <- getLhs binOp ;;
  d <- getDefiningOp lhs ;;
  if isa "memref.load" d then
    m <- LoadOp.getMemRef d ;;
    if optop_eqb (getDefiningOp m) inductionVar then
      rhs <- getRhs binOp ;; Some (Some rhs)
    else Some None
  else Some None.

(** The lambda [oppositeOfInduction], with its assertion. *)
Definition oppositeOfInduction (inductionVar : option Operation)
  (binOp : Operation) : option Value :=
  r <- inductionOnLhs inductionVar binOp ;;
  match r with
  | Some result => Some result
  | None =>
      rhs <- getRhs binOp ;;
      d <- getDefiningOp rhs ;;
      if isa "memref.load" d then
        m <- LoadOp.getMemRef d ;;
        if optop_eqb (getDefiningOp m) inductionVar then getLhs binOp
        else None
      else None
  end.

Definition extractLoopParts (ins : nat) (loop : Operation) :
  Builder (list Operation * LoopParts) :=
  isValue <~ Bld.lift (hasMonotonicPHIControl loop) ;;
  let whileRegion := LoopOp.getWhileRegion loop in
  whileBack <~ Bld.lift (back whileRegion) ;;
  condOp <~ Bld.lift (back (blk_ops whileBack)) ;;
  _ <~ Bld.check (isa ConditionOp.name condOp) ;;
  cond <~ Bld.lift (ConditionOp.getCondition condOp) ;;
  cmp <~ Bld.lift (getDefiningOp cond) ;;
  _ <~ Bld.check (isa "arith.cmpi" cmp) ;;
  stepBack <~ Bld.lift (back (LoopOp.getStepRegion loop)) ;;
  pair0 <~ Bld.lift
    (if negb isValue then
       temps <- populateComparisonTemps cmp whileBack ;;
       findInductionStore temps (rev (blk_ops stepBack))
     else Some (None, None)) ;;
  let indVar := fst pair0 in
  init <~ (if isValue then
             a <~ Bld.lift (nth_error (LoopOp.getInitArgs loop) 0) ;;
             Bld.ret ([], a)
           else
             iv <~ Bld.lift indVar ;;
             l <~ createLoad ins (getResult iv 0) ;;
             Bld.ret (defOf l, l)) ;;
  terminal <~ Bld.lift
    (if isValue then
       whileFront <- front whileRegion ;;
       a0 <- nth_error (getArguments whileFront) 0 ;;
       lhs <- getLhs cmp ;;
       rhs <- getRhs cmp ;;
       if value_eqb lhs a0 then Some rhs
       else if value_eqb rhs a0 then Some lhs else None
     else oppositeOfInduction indVar cmp) ;;
  trip0 <~ Bld.lift
    (if isValue then
       contOp <- back (blk_ops stepBack) ;;
       if negb (isa "cc.continue" contOp) then None
       else
         next <- getOperand contOp 0 ;;
         sOp <- getDefiningOp next ;;
         s0 <- nth_error (getArguments stepBack) 0 ;;
         if isa "arith.addi" sOp then
           lhs <- getLhs sOp ;;
           rhs <- getRhs sOp ;;
           if value_eqb lhs s0 then Some (sOp, rhs, true, false)
           else if value_eqb rhs s0 then Some (sOp, lhs, true, true)
                else None
         else if isa "arith.subi" sOp then
           rhs <- getRhs sOp ;; Some (sOp, rhs, false, false)
         else None
     else
       sOp <- snd pair0 ;;
       if isa "arith.addi" sOp then
         stepVal <- oppositeOfInduction indVar sOp ;;
         lhs <- getLhs sOp ;;
         Some (sOp, stepVal, true, value_eqb lhs stepVal)
       else if isa "arith.subi" sOp then
         r <- inductionOnLhs indVar sOp ;;
         result <- r ;;
         Some (sOp, result, false, false)
       else None) ;;
  Bld.ret (fst init,
           mkLoopParts isValue cmp indVar (fst (fst (fst trip0))) (snd init)
             terminal (snd (fst (fst trip0))) (snd (fst trip0)) (snd trip0)).

(** The arithmetic that [cloneReversedLoop] emits in front of the new loop. *)
Record TripArith : Type := mkTripArith {
  newTermVal : Value;
  clonedStepVal : Value;  (* the step value as cloned in front of the loop *)
  newStepVal : Value;     (* after the negation, for arith.subi *)
  zero : Value;
  iters : Value;
  newInitVal : Value
}.

Definition isInclusive (pred : CmpIPredicate.t) : bool :=
  match pred with
  | CmpIPredicate.ule | CmpIPredicate.sle
  | CmpIPredicate.uge | CmpIPredicate.sge => true
  | _ => false
  end.

Definition emitTripArith (ins : nat) (loop : Operation) (p : LoopParts) :
  Builder (list Operation * TripArith) :=
  whileBack <~ Bld.lift (back (LoopOp.getWhileRegion loop)) ;;
  stepBack <~ Bld.lift (back (LoopOp.getStepRegion loop)) ;;
  term <~ cloneRootSubexpression ins (blk_id whileBack) (terminalValue p) ;;
  step <~ cloneRootSubexpression ins (blk_id stepBack) (stepValue p) ;;
  let newTermVal := snd term in
  let newStepVal0 := snd step in
  zero <~ createIntConstant ins (getType newStepVal0) 0 ;;
  neg <~ (if negb (stepIsAnAddOp p) then
            s <~ createBinary ins "arith.subi" zero newStepVal0 ;;
            Bld.ret (defOf s, s)
          else Bld.ret ([], newStepVal0)) ;;
  let newStepVal := snd neg in
  iters0 <~ createBinary ins "arith.subi" newTermVal (initialValue p) ;;
  pred <~ Bld.lift (getPredicate (cmpOp p)) ;;
  incl <~ (if isInclusive pred then
             s <~ createBinary ins "arith.addi" iters0 newStepVal ;;
             Bld.ret (defOf s, s)
           else Bld.ret ([], iters0)) ;;
  iters1 <~ createBinary ins "arith.divsi" (snd incl) newStepVal ;;
  noLoopCond <~ createCmpI ins CmpIPredicate.sgt iters1 zero ;;
  iters <~ createSelect ins (getType iters1) noLoopCond iters1 zero ;;
  one <~ createIntConstant ins (getType iters) 1 ;;
  adjustIters <~ createBinary ins "arith.subi" iters one ;;
  nStep <~ createBinary ins "arith.muli" adjustIters newStepVal ;;
  newInitVal <~ createBinary ins "arith.addi" (initialValue p) nStep ;;
  Bld.ret (fst term ++ fst step ++ defOf zero ++ fst neg ++ defOf iters0 ++
           fst incl ++ defOf iters1 ++ defOf noLoopCond ++ defOf iters ++
           defOf one ++ defOf adjustIters ++ defOf nStep ++ defOf newInitVal,
           mkTripArith newTermVal newStepVal0 newStepVal zero iters
             newInitVal).

(** ** Rewriting facilities *)

(** [replaceAllUsesWith]: every use of result [i] of the operation with
    identity [old] becomes the [i]-th value of [news]. *)
Fixpoint rauwValue (old : nat) (news : list Value) (v : Value) {struct v} :
  Value :=
  match v with
  | BlockArg _ _ => v
  | OpResult d i =>
      if Nat.eqb (op_id d) old then nth i news v
      else OpResult (rauwOp old news d) i
  end
with rauwOp (old : nat) (news : list Value) (o : Operation) {struct o} :
  Operation :=
  match o with
  | mkOp i n vs a t rs b =>
      mkOp i n (map (rauwValue old news) vs) a t
        (map (map (rauwBlock old news)) rs) b
  end
with rauwBlock (old : nat) (news : list Value) (b : Block) {struct b} :
  Block :=
  match b with
  | mkBlock i args ops => mkBlock i args (map (rauwOp old news) ops)
  end.

Definition rauwRegion (old : nat) (news : list Value) (r : Region) : Region :=
  map (rauwBlock old news) r.

(** The operation with identity [old] is replaced, where it stands, by
    [new] (at any depth of nesting). *)
Fixpoint substOp (old : nat) (new : list Operation) (o : Operation)
  {struct o} : Operation :=
  match o with
  | mkOp i n vs a t rs b =>
      mkOp i n vs a t
        (map (map (fun blk =>
           match blk with
           | mkBlock bi args ops =>
               mkBlock bi args
                 (flat_map (fun x => if Nat.eqb (op_id x) old then new
                                     else [substOp old new x]) ops)
           end)) rs) b
  end.

Definition substOps (old : nat) (new : list Operation)
  (ops : list Operation) : list Operation :=
  flat_map (fun x => if Nat.eqb (op_id x) old then new
                     else [substOp old new x]) ops.

Definition substBlock (old : nat) (new : list Operation) (b : Block) : Block :=
  mkBlock (blk_id b) (blk_args b) (substOps old new (blk_ops b)).

(** [rewriter.replaceOpWithNewOp] inside a region: the new operation is
    created in front of the old one, the uses of the old results are
    redirected and the old operation is erased. *)
Definition replaceOpInRegion (old : Operation) (new : Operation) (r : Region) :
  Region :=
  map (substBlock (op_id old) [new]) (rauwRegion (op_id old) (getResults new) r).

Definition updFront {A : Type} (f : A -> A) (l : list A) : list A :=
  match l with
  | [] => []
  | x :: l' => f x :: l'
  end.
Definition updBack {A : Type} (f : A -> A) (l : list A) : list A :=
  rev (updFront f (rev l)).

Definition addArgument (a : nat) (ty : Ty) (b : Block) : Block :=
  mkBlock (blk_id b) (blk_args b ++ [(a, ty)]) (blk_ops b).
Definition insertArgument0 (a : nat) (ty : Ty) (b : Block) : Block :=
  mkBlock (blk_id b) ((a, ty) :: blk_args b) (blk_ops b).

(** The terminator of the block is replaced by [new] (the operations created
    in front of it and the new terminator). *)
Definition replaceTerminator (new : list Operation) (b : Block) : Block :=
  mkBlock (blk_id b) (blk_args b) (removelast (blk_ops b) ++ new).

Definition withBlockOps (b : Block) (ops : list Operation) : Block :=
  mkBlock (blk_id b) (blk_args b) ops.

(** ** The loop reversal engine: the three regions of the new loop *)

(** The while region.  The constant [zero] is created with the builder that
    creates the loop, that is at the insertion point [ins] in front of the
    new loop; the comparison is created in front of the cc.condition. *)
Definition buildWhileRegion (ins : nat) (loop : Operation) (itersTy : Ty) :
  Builder (list Operation * Region) :=
  let region := LoopOp.getWhileRegion loop in
  _ <~ Bld.lift (front region) ;;
  a <~ Bld.freshArg ;;
  let region := updFront (addArgument a itersTy) region in
  block <~ Bld.lift (back region) ;;
  condOp <~ Bld.lift (back (blk_ops block)) ;;
  _ <~ Bld.check (isa ConditionOp.name condOp) ;;
  let args := ConditionOp.getResults condOp in
  trip <~ Bld.lift (back (getArguments block)) ;;
  let args := args ++ [trip] in
  zero <~ createIntConstant ins (getType trip) 0 ;;
  newCond <~ createCmpI (blk_id block) CmpIPredicate.sgt trip zero ;;
  newCondOp <~ Bld.create (blk_id block) ConditionOp.name (newCond :: args)
                 [] [] [] ;;
  Bld.ret (defOf zero,
           updBack (replaceTerminator (defOf newCond ++ [newCondOp])) region).

Definition buildBodyRegion (loop : Operation) (itersTy : Ty) :
  Builder Region :=
  let region := LoopOp.getBodyRegion loop in
  _ <~ Bld.lift (front region) ;;
  a <~ Bld.freshArg ;;
  let region := updFront (addArgument a itersTy) region in
  entry <~ Bld.lift (front region) ;;
  lastBlock <~ Bld.lift (back region) ;;
  _ <~ Bld.lift (back (blk_ops lastBlock)) ;;
  newTerm <~ Bld.create (blk_id lastBlock) "cc.continue" (getArguments entry)
               [] [] [] ;;
  Bld.ret (updBack (replaceTerminator [newTerm]) region).

Definition buildStepRegion (loop : Operation) (p : LoopParts) (itersTy : Ty) :
  Builder Region :=
  let so := stepOp p in
  stepped <~
    (if negb (inductionIsValue p) then
       o0 <~ Bld.lift (getOperand so 0) ;;
       o1 <~ Bld.lift (getOperand so 1) ;;
       new <~ (if stepIsAnAddOp p then
                 Bld.create (getBlock so) "arith.subi"
                   (if commuteTheAddOp p then [o1; o0] else [o0; o1])
                   [] [getType o0] []
               else
                 Bld.create (getBlock so) "arith.addi" [o0; o1] []
                   [getType o0] []) ;;
       Bld.ret (replaceOpInRegion so new (LoopOp.getStepRegion loop))
     else Bld.ret (LoopOp.getStepRegion loop)) ;;
  let region := stepped in
  _ <~ Bld.lift (front region) ;;
  a <~ Bld.freshArg ;;
  let region := updFront (addArgument a itersTy) region in
  entry <~ Bld.lift (front region) ;;
  lastBlock <~ Bld.lift (back region) ;;
  contOp <~ Bld.lift (back (blk_ops lastBlock)) ;;
  _ <~ Bld.check (isa "cc.continue" contOp) ;;
  bump <~
    (if inductionIsValue p then
       next <~ Bld.lift (getOperand contOp 0) ;;
       sOp <~ Bld.lift (getDefiningOp next) ;;
       newBump <~
         (if stepIsAnAddOp p then
            o0 <~ Bld.lift (getOperand sOp 0) ;;
            o1 <~ Bld.lift (getOperand sOp 1) ;;
            (if commuteTheAddOp p
             then createBinary (blk_id lastBlock) "arith.subi" o1 o0
             else createBinary (blk_id lastBlock) "arith.subi" o0 o1)
          else
            o <~ Bld.create (blk_id lastBlock) "arith.addi" (getOperands sOp)
                   [] [getType (nth 0 (getOperands sOp) next)] [] ;;
            Bld.ret (OpResult o 0)) ;;
       Bld.ret (defOf newBump, [newBump])
     else Bld.ret ([], [])) ;;
  one <~ createIntConstant (blk_id lastBlock) itersTy 1 ;;
  trip <~ Bld.lift (back (getArguments entry)) ;;
  dec <~ createBinary (blk_id lastBlock) "arith.subi" trip one ;;
  newCont <~ Bld.create (blk_id lastBlock) "cc.continue" (snd bump ++ [dec])
               [] [] [] ;;
  Bld.ret (updBack (replaceTerminator
                      (fst bump ++ defOf one ++ defOf dec ++ [newCont]))
                   region).

(** [cloneReversedLoop]: the operations created at the insertion point (in
    block [ins]) in front of the new loop, and the new loop. *)
Definition cloneReversedLoop (ins : nat) (loop : Operation) :
  Builder (list Operation * Operation) :=
  ex <~ extractLoopParts ins loop ;;
  let p := snd ex in
  ar <~ emitTripArith ins loop p ;;
  let t := snd ar in
  st <~ (if inductionIsValue p then Bld.ret []
         else
           iv <~ Bld.lift (inductionVar p) ;;
           s <~ createStore ins (newInitVal t) (getResult iv 0) ;;
           Bld.ret [s]) ;;
  let inputs :=
    (if inductionIsValue p then [newInitVal t] else []) ++ [iters t] in
  let itersTy := getType (iters t) in
  w <~ buildWhileRegion ins loop itersTy ;;
  b <~ buildBodyRegion loop itersTy ;;
  s <~ buildStepRegion loop p itersTy ;;
  newLoop <~ Bld.create ins LoopOp.name inputs
               [("post_condition", ABool false)] (map getType inputs)
               [snd w; b; s] ;;
  Bld.ret (fst ex ++ fst ar ++ st ++ fst w, newLoop).

(** ** Walking the IR *)

(** [op->walk(...)]: the operations nested in [op] and [op] itself, in
    post-order. *)
Fixpoint walk (op : Operation) : list Operation :=
  match op with
  | mkOp _ _ _ _ _ rs _ =>
      flat_map (flat_map (fun blk =>
        match blk with
        | mkBlock _ _ ops => flat_map walk ops
        end)) rs ++ [op]
  end.

Definition walkOps (ops : list Operation) : list Operation :=
  flat_map walk ops.
Definition walkBlock (b : Block) : list Operation := walkOps (blk_ops b).
Definition walkRegion (r : Region) : list Operation := flat_map walkBlock r.

(** ** Operand segments *)

Definition segmentSizes : string := "operand_segment_sizes".

Definition getSegmentSizes (op : Operation) : option (list Z) :=
  match getAttr segmentSizes (getAttrs op) with
  | Some (AI32Array l) => Some l
  | _ => None
  end.

(** The [k]-th segment of the operands, as the generated accessors of an
    operation with [AttrSizedOperandSegments] slice it. *)
Definition getSegment (k : nat) (op : Operation) : list Value :=
  match getSegmentSizes op with
  | Some l =>
      firstn (Z.to_nat (nth k l 0%Z))
        (skipn (Z.to_nat (fold_right Z.add 0%Z (firstn k l))) (getOperands op))
  | None => []
  end.

(** ** quake.apply and func.func accessors *)
Module ApplyOp.
Definition name : string := "quake.apply".
Definition getCallee (op : Operation) : option string :=
  match getAttr "callee" (getAttrs op) with
  | Some (ASym s) => Some s
  | _ => None
  end.
Definition getIsAdj (op : Operation) : bool := hasAttr "is_adj" op.
Definition getControls (op : Operation) : list Value := getSegment 0 op.
Definition getArgs (op : Operation) : list Value := getSegment 1 op.
End ApplyOp.

Module FuncOp.
Definition name : string := "func.func".
Definition getName (f : Operation) : string :=
  match getAttr "sym_name" (getAttrs f) with
  | Some (ASym s) => s
  | _ => ""
  end.
Definition getInputs (f : Operation) : list Ty :=
  match getAttr "function_type" (getAttrs f) with
  | Some (AFunctionType i _) => i
  | _ => []
  end.
Definition getResultTys (f : Operation) : list Ty :=
  match getAttr "function_type" (getAttrs f) with
  | Some (AFunctionType _ r) => r
  | _ => []
  end.
Definition getBody (f : Operation) : Region := nth 0 (getRegions f) [].
Definition setBody (f : Operation) (r : Region) : Operation :=
  withRegions f [r].
End FuncOp.

(** The module: the operations of its body, in order. *)
Definition ModuleOp := list Operation.

(** [module.lookupSymbol<func::FuncOp>(name)]: null when the symbol is absent
    or is not a function. *)
Definition lookupSymbol (module : ModuleOp) (n : string) : option Operation :=
  match find (fun g => hasAttr "sym_name" g && String.eqb (FuncOp.getName g) n)
             module with
  | Some g => if isa FuncOp.name g then Some g else None
  | None => None
  end.

(** ** The variant-requirement analysis *)

Record ApplyVariants : Type := mkApplyVariants {
  needsControlVariant : bool;
  needsAdjointVariant : bool;
  needsAdjointControlVariant : bool
}.

(** [DenseMap<Operation *, ApplyVariants>]: [find], and [insert], which
    leaves the map as it is when the key is present. *)
Definition ApplyOpAnalysisInfo := list (option Operation * ApplyVariants).

Definition infoFind (k : option Operation) (m : ApplyOpAnalysisInfo) :
  option ApplyVariants :=
  match find (fun e => optop_eqb (fst e) k) m with
  | Some e => Some (snd e)
  | None => None
  end.

Definition infoInsert (k : option Operation) (v : ApplyVariants)
  (m : ApplyOpAnalysisInfo) : ApplyOpAnalysisInfo :=
  match infoFind k m with
  | Some _ => m
  | None => m ++ [(k, v)]
  end.

Definition getAdjCtrlVariantFunctionName (n : string) : string :=
  String.append n ".adj.ctrl".
Definition getAdjVariantFunctionName (n : string) : string :=
  String.append n ".adj".
Definition getCtrlVariantFunctionName (n : string) : string :=
  String.append n ".ctrl".

Definition getVariantFunctionName (appOp : Operation) (calleeName : string) :
  string :=
  if ApplyOp.getIsAdj appOp && negb (empty (ApplyOp.getControls appOp)) then
    getAdjCtrlVariantFunctionName calleeName
  else if ApplyOp.getIsAdj appOp then getAdjVariantFunctionName calleeName
  else if negb (empty (ApplyOp.getControls appOp)) then
    getCtrlVariantFunctionName calleeName
  else calleeName.

(** ** The pass *)

Record PassState : Type := mkPassState {
  module : ModuleOp;
  diagnostics : list string;
  passFailed : bool;
  nextId : nat
}.

Definition emitError (msg : string) (st : PassState) : PassState :=
  mkPassState (module st) (diagnostics st ++ [msg]) (passFailed st)
    (nextId st).
Definition signalPassFailure (st : PassState) : PassState :=
  mkPassState (module st) (diagnostics st) true (nextId st).
Definition withModule (st : PassState) (m : ModuleOp) : PassState :=
  mkPassState m (diagnostics st) (passFailed st) (nextId st).
Definition withNextId (st : PassState) (n : nat) : PassState :=
  mkPassState (module st) (diagnostics st) (passFailed st) n.

(** Runs a builder on the identity supply of the pass state. *)
Definition runBuilder {A : Type} (m : Builder A) (st : PassState) :
  option (A * PassState) :=
  match m (nextId st) with
  | Some (a, n) => Some (a, withNextId st n)
  | None => None
  end.

(** The global with identity of [f] is replaced by [f]. *)
Definition updateGlobal (f : Operation) (m : ModuleOp) : ModuleOp :=
  map (fun g => if op_eqb g f then f else g) m.

(** Identity of a mapped value: [IRMapping::lookupOrDefault], the latest
    mapping first. *)
Definition lookupOrDefault (mapper : list (Value * Value)) (v : Value) :
  Value :=
  match find (fun kv => value_eqb (fst kv) v) mapper with
  | Some kv => snd kv
  | None => v
  end.

Definition toggleIsAdj (l : list (string * Attr)) : list (string * Attr) :=
  match getAttr "is_adj" l with
  | Some _ => removeAttrL "is_adj" l
  | None => setAttrL "is_adj" AUnit l
  end.

Definition eraseOp (o : Operation) (b : Block) : Block :=
  withBlockOps b (filter (fun x => negb (op_eqb x o)) (blk_ops b)).

(** The operations [new] are placed in front of [term]. *)
Definition insertBefore (term : Operation) (new : list Operation)
  (b : Block) : Block :=
  withBlockOps b
    (flat_map (fun x => if op_eqb x term then new ++ [x] else [x])
              (blk_ops b)).

Definition rauwBlockOps (old : Operation) (new : Operation) (b : Block) :
  Block :=
  rauwBlock (op_id old) (getResults new) b.

(** [isa<cudaq::cc::CreateLambdaOp, cudaq::cc::InstantiateCallableOp>]. *)
Definition isaCallableExpression (op : Operation) : bool :=
  isa "cc.create_lambda" op || isa "cc.instantiate_callable" op.

(** The parameters of the pass that are declared outside the sources at
    hand: the traits of the quake operations, the characteristics of
    Characteristics.h and the generated [applyToVariant]. *)
Section Pass.

Variable applyToVariant : Operation -> bool.
Variable hasCallOp : Operation -> bool.
Variable hasMeasureOp : Operation -> bool.
Variable hasCharacteristic : (Operation -> bool) -> Operation -> bool.
Variable hasQuantum : Operation -> bool.
Variable hasTraitQuantumGate : Operation -> bool.
Variable hasTraitHermitian : Operation -> bool.
Variable isaOperatorInterface : Operation -> bool.

(** The contents of the local [ApplyVariants variant;] before the analysis
    assigns to it: the declaration does not initialise the bit-fields. *)
Variable uninitialized : ApplyVariants.

(** One visit of the walk of [performAnalysis]. *)
Definition analyseApply (module : ModuleOp) (infoMap : ApplyOpAnalysisInfo)
  (appOp : Operation) : ApplyOpAnalysisInfo :=
  if negb (applyToVariant appOp) then infoMap
  else
    let fnOp := match ApplyOp.getCallee appOp with
                | Some callee => lookupSymbol module callee
                | None => None
                end in
    let variant := match infoFind fnOp infoMap with
                   | Some v => v
                   | None => uninitialized
                   end in
    let variant :=
      if ApplyOp.getIsAdj appOp && negb (empty (ApplyOp.getControls appOp))
      then mkApplyVariants (needsControlVariant variant)
             (needsAdjointVariant variant) true
      else if ApplyOp.getIsAdj appOp
      then mkApplyVariants (needsControlVariant variant) true
             (needsAdjointControlVariant variant)
      else if negb (empty (ApplyOp.getControls appOp))
      then mkApplyVariants true (needsAdjointVariant variant)
             (needsAdjointControlVariant variant)
      else variant in
    infoInsert fnOp variant infoMap.

Definition performAnalysis (module : ModuleOp) : ApplyOpAnalysisInfo :=
  fold_left (analyseApply module)
    (filter (isa ApplyOp.name) (walkOps module)) [].

(** *** The control variant *)

(** The body of the walk of [createControlVariantOf] for one quantum
    gate. *)
Definition addControlOperand (newCond : Value) (op : Operation) :
  Builder Operation :=
  arrAttr <~ Bld.lift (getSegmentSizes op) ;;
  a0 <~ Bld.lift (nth_error arrAttr 0) ;;
  a1 <~ Bld.lift (nth_error arrAttr 1) ;;
  a2 <~ Bld.lift (nth_error arrAttr 2) ;;
  _ <~ Bld.check (Z.leb 0 a0 && Z.leb a0 (Z.of_nat (List.length (getOperands op)))) ;;
  let operands :=
    firstn (Z.to_nat a0) (getOperands op) ++ [newCond] ++
    skipn (Z.to_nat a0) (getOperands op) in
  let attrs :=
    setAttrL segmentSizes (AI32Array [a0; (a1 + 1)%Z; a2]) (getAttrs op) in
  Bld.create (getBlock op) (op_name op) operands attrs (getResultTypes op) [].

Fixpoint walkAddControl (newCond : Value) (op : Operation) {struct op} :
  Builder Operation :=
  match op with
  | mkOp i n vs a t rs b =>
      rs' <~ (fix regs (l : list (list Block)) : Builder (list Region) :=
                match l with
                | [] => Bld.ret []
                | r :: l' =>
                    r' <~ (fix blocks (bs : list Block) : Builder Region :=
                             match bs with
                             | [] => Bld.ret []
                             | mkBlock bi args ops :: bs' =>
                                 ops' <~
                                   (fix opsl (os : list Operation) :
                                      Builder (list Operation) :=
                                      match os with
                                      | [] => Bld.ret []
                                      | o :: os' =>
                                          o' <~ walkAddControl newCond o ;;
                                          rest <~ opsl os' ;;
                                          Bld.ret (o' :: rest)
                                      end) ops ;;
                                 rest <~ blocks bs' ;;
                                 Bld.ret (mkBlock bi args ops' :: rest)
                             end) r ;;
                    rest <~ regs l' ;;
                    Bld.ret (r' :: rest)
                end) rs ;;
      let op' := mkOp i n vs a t rs' b in
      if hasTraitQuantumGate op then addControlOperand newCond op'
      else Bld.ret op'
  end.

(** The walk of [createControlVariantOf] over the operations of a block, the
    blocks of a region and the regions of an operation. *)
Definition walkAddControlOps (newCond : Value) :
  list Operation -> Builder (list Operation) :=
  fix opsl (os : list Operation) : Builder (list Operation) :=
    match os with
    | [] => Bld.ret []
    | o :: os' =>
        o' <~ walkAddControl newCond o ;;
        rest <~ opsl os' ;;
        Bld.ret (o' :: rest)
    end.

Definition walkAddControlBlocks (newCond : Value) :
  list Block -> Builder Region :=
  fix blocks (bs : list Block) : Builder Region :=
    match bs with
    | [] => Bld.ret []
    | mkBlock bi args ops :: bs' =>
        ops' <~ walkAddControlOps newCond ops ;;
        rest <~ blocks bs' ;;
        Bld.ret (mkBlock bi args ops' :: rest)
    end.

Definition walkAddControlRegions (newCond : Value) :
  list Region -> Builder (list Region) :=
  fix regs (l : list (list Block)) : Builder (list Region) :=
    match l with
    | [] => Bld.ret []
    | r :: l' =>
        r' <~ walkAddControlBlocks newCond r ;;
        rest <~ regs l' ;;
        Bld.ret (r' :: rest)
    end.

(** Modelled from the spec: [cudaq::opt::factory::createFunction], which is
    declared outside the sources at hand, followed by [setPrivate].  The
    synthesized variants are newly inserted symbols of the module: a new
    private func.func with the given name and type and an empty body.  The
    callers below put it behind the functions of the module, a position that
    neither the pass nor the spec fixes. *)
Definition createFunction (funcName : string) (results inputs : list Ty) :
  Builder Operation :=
  Bld.create 0 FuncOp.name []
    [("sym_name", ASym funcName);
     ("function_type", AFunctionType inputs results);
     ("sym_visibility", ASym "private")] [] [[]].

Definition createControlVariantOf (funcOp : Operation) (st : PassState) :
  option (Operation * PassState) :=
  let funcName := getCtrlVariantFunctionName (FuncOp.getName funcOp) in
  let qvecTy := TQVec None in
  let inTys := qvecTy :: FuncOp.getInputs funcOp in
  r <- runBuilder
         (newFunc <~ createFunction funcName (FuncOp.getResultTys funcOp)
                       inTys ;;
          let body := FuncOp.getBody funcOp in
          _ <~ Bld.lift (front body) ;;
          a <~ Bld.freshArg ;;
          let newCond := BlockArg a qvecTy in
          let body := updFront (insertArgument0 a qvecTy) body in
          walkAddControl newCond (FuncOp.setBody newFunc body))
         st ;;
  Some (fst r, withModule (snd r) (module (snd r) ++ [fst r])).

(** *** The adjoint variant *)

Definition getOpsToInvert (block : Block) : list Operation :=
  filter hasQuantum (blk_ops block).

(** The loop over the parameters of a quantum operation: one arith.negf per
    parameter, each recorded in the mapper. *)
Fixpoint negateParameters (ins : nat) (params : list Value)
  (mapper : list (Value * Value)) :
  Builder (list Operation * list (Value * Value)) :=
  match params with
  | [] => Bld.ret ([], mapper)
  | val :: rest =>
      neg <~ Bld.create ins "arith.negf" [val] [] [getType val] [] ;;
      r <~ negateParameters ins rest ((val, OpResult neg 0) :: mapper) ;;
      Bld.ret (neg :: fst r, snd r)
  end.

(** The last case of the loop of [reverseTheOpsInTheBlock]: a quantum
    operation.  Returns the operations placed in front of the terminator;
    the clone takes the place of the erased original. *)
Definition invertQuantumOp (ins : nat) (op : Operation) :
  Builder (list Operation) :=
  arrAttr <~ Bld.lift (getSegmentSizes op) ;;
  a0 <~ Bld.lift (nth_error arrAttr 0) ;;
  _ <~ Bld.check (Z.leb 0 a0 &&
                  Z.leb a0 (Z.of_nat (List.length (getOperands op)))) ;;
  let params := firstn (Z.to_nat a0) (getOperands op) in
  negs <~ negateParameters ins params [] ;;
  let opWasNegated := negb (empty params) in
  _ <~ Bld.check (isaOperatorInterface op) ;;
  let attrs :=
    if negb (hasTraitHermitian op) && negb opWasNegated
    then toggleIsAdj (getAttrs op) else getAttrs op in
  let newOp :=
    mkOp (op_id op) (op_name op)
      (map (lookupOrDefault (snd negs)) (getOperands op)) attrs
      (getResultTypes op) (getRegions op) ins in
  _ <~ Bld.check (Nat.eqb (getNumResults newOp) 0) ;;
  Bld.ret (fst negs ++ [newOp]).

(** The loop of [reverseTheOpsInTheBlock] over the operations to invert,
    last one first.  [block] is the block of [term]; [recurse] is
    [reverseTheOpsInTheBlock] itself, for the blocks nested in the inverted
    operations.  A clone placed in front of the terminator whose original is
    erased is the original, moved. *)
Fixpoint reverseLoop
  (recurse : Block -> Operation -> list Operation -> Builder Block)
  (term : Operation) (l : list Operation) (b : Block) {struct l} :
  Builder Block :=
  let invert (reg : Region) : Builder Region :=
    match reg with
    | [] => Bld.ret reg
    | blk :: rest =>
        t <~ Bld.lift (getTerminator blk) ;;
        blk' <~ recurse blk t (getOpsToInvert blk) ;;
        Bld.ret (blk' :: rest)
    end in
  let move (op new : Operation) (emitted : list Operation) (b : Block) :
    Block :=
    rauwBlockOps op new
      (insertBefore term (emitted ++ [new]) (eraseOp op b)) in
  match l with
  | [] => Bld.ret b
  | op :: l' =>
      let ins := blk_id b in
      if isa "cc.if" op then
        thenR <~ invert (nth 0 (getRegions op) []) ;;
        elseR <~ invert (nth 1 (getRegions op) []) ;;
        reverseLoop recurse term l'
          (move op (withRegions op [thenR; elseR]) [] b)
      else if isa "scf.for" op then fun _ => None
      else if isa LoopOp.name op then
        r <~ cloneReversedLoop ins op ;;
        let newLoopOp := snd r in
        bodyR <~ invert (LoopOp.getBodyRegion newLoopOp) ;;
        let newLoopOp :=
          withRegions newLoopOp
            [LoopOp.getWhileRegion newLoopOp; bodyR;
             LoopOp.getStepRegion newLoopOp] in
        reverseLoop recurse term l'
          (rauwBlock (op_id op) (removelast (getResults newLoopOp))
             (insertBefore term (fst r ++ [newLoopOp]) (eraseOp op b)))
      else if isa "cc.scope" op then
        initR <~ invert (nth 0 (getRegions op) []) ;;
        reverseLoop recurse term l' (move op (withRegions op [initR]) [] b)
      else
        ops <~ invertQuantumOp ins op ;;
        reverseLoop recurse term l' (insertBefore term ops (eraseOp op b))
  end.

(** [reverseTheOpsInTheBlock]: [fuel] bounds the depth of the regions nested
    in the inverted operations. *)
Fixpoint reverseTheOpsInTheBlock (fuel : nat) (block : Block)
  (term : Operation) (invertedOps : list Operation) {struct fuel} :
  Builder Block :=
  match fuel with
  | O => fun _ => None
  | S fuel' =>
      reverseLoop (reverseTheOpsInTheBlock fuel') term (rev invertedOps) block
  end.

Definition createAdjointVariantOf (funcOp : Operation) (funcName : string)
  (st : PassState) : option (option Operation * PassState) :=
  let funcBody := FuncOp.getBody funcOp in
  u <- regionHasUnstructuredControlFlow funcBody ;;
  if u then
    Some (None,
          signalPassFailure
            (emitError
               "cannot make adjoint of kernel with unstructured control flow"
               st))
  else if hasCallOp funcOp then
    Some (None,
          signalPassFailure
            (emitError "cannot make adjoint of kernel with calls" st))
  else if hasCharacteristic isaCallableExpression funcOp then
    Some (None,
          signalPassFailure
            (emitError
               "cannot make adjoint of kernel with callable expressions" st))
  else if hasMeasureOp funcOp then
    Some (None,
          signalPassFailure
            (emitError "cannot make adjoint of kernel with a measurement" st))
  else
    r <- runBuilder
           (newFunc <~ createFunction funcName (FuncOp.getResultTys funcOp)
                         (FuncOp.getInputs funcOp) ;;
            entry <~ Bld.lift (front funcBody) ;;
            term <~ Bld.lift (getTerminator entry) ;;
            entry' <~ reverseTheOpsInTheBlock (S (List.length (walkRegion funcBody)))
                        entry term (getOpsToInvert entry) ;;
            Bld.ret (FuncOp.setBody newFunc (updFront (fun _ => entry') funcBody)))
           st ;;
    Some (Some (fst r), withModule (snd r) (module (snd r) ++ [fst r])).

Definition createAdjointControlVariantOf (funcOp : Operation)
  (st : PassState) : option (option Operation * PassState) :=
  let funcName := FuncOp.getName funcOp in
  let ctrlFuncName := getCtrlVariantFunctionName funcName in
  c <- match lookupSymbol (module st) ctrlFuncName with
       | Some ctrlFunc => Some (ctrlFunc, st)
       | None => createControlVariantOf funcOp st
       end ;;
  createAdjointVariantOf (fst c) (getAdjCtrlVariantFunctionName funcName)
    (snd c).

(** Step 1, for one global of the module. *)
Definition specialize (applyVariants : ApplyOpAnalysisInfo)
  (global : Operation) (st : PassState) : option PassState :=
  match infoFind (Some global) applyVariants with
  | None => Some st
  | Some variant =>
      _ <- (if isa FuncOp.name global then Some tt else None) ;;
      st <- (if needsControlVariant variant
             then r <- createControlVariantOf global st ;; Some (snd r)
             else Some st) ;;
      st <- (if needsAdjointVariant variant
             then r <- createAdjointVariantOf global
                         (getAdjVariantFunctionName (FuncOp.getName global))
                         st ;;
                  Some (snd r)
             else Some st) ;;
      if needsAdjointControlVariant variant
      then r <- createAdjointControlVariantOf global st ;; Some (snd r)
      else Some st
  end.

Fixpoint step1_globals (applyVariants : ApplyOpAnalysisInfo)
  (globals : list Operation) (st : PassState) : option PassState :=
  match globals with
  | [] => Some st
  | g :: rest =>
      st' <- specialize applyVariants g st ;;
      step1_globals applyVariants rest st'
  end.

Definition step1 (applyVariants : ApplyOpAnalysisInfo) (st : PassState) :
  option PassState :=
  step1_globals applyVariants (module st) st.

(** *** The call-site rewriter *)

(** [ApplyOpPattern::matchAndRewrite]: the operations that replace the
    quake.apply, the func.call last. *)
Definition matchAndRewrite (appOp : Operation) : Builder (list Operation) :=
  let callee := match ApplyOp.getCallee appOp with
                | Some s => s
                | None => ""
                end in
  let calleeName := getVariantFunctionName appOp callee in
  let consTy := TQVec None in
  cons <~ (if negb (empty (ApplyOp.getControls appOp)) then
             consOp <~ Bld.create (getBlock appOp) "quake.concat"
                         (ApplyOp.getControls appOp) [] [consTy] [] ;;
             Bld.ret ([consOp], [OpResult consOp 0])
           else Bld.ret ([], [])) ;;
  let newArgs := snd cons ++ ApplyOp.getArgs appOp in
  call <~ Bld.create (getBlock appOp) "func.call" newArgs
            [("callee", ASym calleeName)] (getResultTypes appOp) [] ;;
  Bld.ret (fst cons ++ [call]).

(** The conversion target of [step2]: a quake.apply is legal only when it
    carries the attribute "replaced"; every other operation is left alone. *)
Definition isIllegal (op : Operation) : bool :=
  isa ApplyOp.name op && negb (hasAttr "replaced" op).

(** The uses of the results of each replaced operation are redirected to the
    results of the call that replaced it. *)
Definition redirectUses (replaced : list (nat * Operation))
  (ops : list Operation) : list Operation :=
  fold_left (fun acc r => map (rauwOp (fst r) (getResults (snd r))) acc)
            replaced ops.

(** [applyPartialConversion] with the single pattern, on one operation and
    the operations nested in it: the operations that stand for [op], and
    the replaced quake.apply (if [op] is one) with the call that replaced
    it. *)
Fixpoint convertOp (op : Operation) {struct op} :
  Builder (list Operation * list (nat * Operation)) :=
  match op with
  | mkOp i n vs a t rs b =>
      rs' <~ (fix regs (l : list (list Block)) : Builder (list Region) :=
                match l with
                | [] => Bld.ret []
                | r :: l' =>
                    r' <~ (fix blocks (bs : list Block) : Builder Region :=
                             match bs with
                             | [] => Bld.ret []
                             | mkBlock bi args ops :: bs' =>
                                 c <~
                                   (fix opsl (os : list Operation) :
                                      Builder (list Operation *
                                               list (nat * Operation)) :=
                                      match os with
                                      | [] => Bld.ret ([], [])
                                      | o :: os' =>
                                          o' <~ convertOp o ;;
                                          rest <~ opsl os' ;;
                                          Bld.ret (fst o' ++ fst rest,
                                                   snd o' ++ snd rest)
                                      end) ops ;;
                                 rest <~ blocks bs' ;;
                                 Bld.ret (mkBlock bi args
                                            (redirectUses (snd c) (fst c))
                                          :: rest)
                             end) r ;;
                    rest <~ regs l' ;;
                    Bld.ret (r' :: rest)
                end) rs ;;
      let op' := mkOp i n vs a t rs' b in
      if isIllegal op then
        new <~ matchAndRewrite op' ;;
        Bld.ret (new, match back new with
                      | Some call => [(i, call)]
                      | None => []
                      end)
      else Bld.ret ([op'], [])
  end.

Fixpoint convertOps (ops : list Operation) :
  Builder (list Operation * list (nat * Operation)) :=
  match ops with
  | [] => Bld.ret ([], [])
  | o :: os' =>
      o' <~ convertOp o ;;
      rest <~ convertOps os' ;;
      Bld.ret (fst o' ++ fst rest, snd o' ++ snd rest)
  end.

Definition convertBlocks : list Block -> Builder Region :=
  fix blocks (bs : list Block) : Builder Region :=
    match bs with
    | [] => Bld.ret []
    | mkBlock bi args ops :: bs' =>
        c <~ convertOps ops ;;
        rest <~ blocks bs' ;;
        Bld.ret (mkBlock bi args (redirectUses (snd c) (fst c)) :: rest)
    end.

Definition convertRegions : list Region -> Builder (list Region) :=
  fix regs (l : list (list Block)) : Builder (list Region) :=
    match l with
    | [] => Bld.ret []
    | r :: l' =>
        r' <~ convertBlocks r ;;
        rest <~ regs l' ;;
        Bld.ret (r' :: rest)
    end.

(** Step 2: the conversion of every quake.apply of the module.
    [applyPartialConversion] fails when an operation that the target
    declares illegal is left after the rewriting; the module then stays as
    it was, the error is reported and the pass is marked as failed. *)
Definition step2 (st : PassState) : option PassState :=
  r <- runBuilder (convertOps (module st)) st ;;
  let converted := redirectUses (snd (fst r)) (fst (fst r)) in
  if existsb isIllegal (walkOps converted) then
    Some (signalPassFailure
            (emitError "could not rewrite all apply ops." (snd r)))
  else Some (withModule (snd r) converted).

Definition runOnOperation (st : PassState) : option PassState :=
  let applyVariants := performAnalysis (module st) in
  st1 <- step1 applyVariants st ;;
  step2 st1.

End Pass.

(** ** The integer expressions of the arith dialect

    [exprOf v] reads the expression that the operations defining [v] compute:
    the operations of the arith dialect that the loop reversal engine emits
    are interpreted, every other value is a leaf.  [evalExpr] evaluates it on
    integers of [w] bits, with wrap-around; arith.divsi rounds toward zero
    and has no result on a zero divisor or on the overflow of
    [INT_MIN / -1]. *)
Inductive Expr : Type :=
| EVal (v : Value)
| EConst (z : Z)
| EAdd (a b : Expr)
| ESub (a b : Expr)
| EMul (a b : Expr)
| EDivS (a b : Expr)
| ECmp (p : CmpIPredicate.t) (a b : Expr)
| ESelect (c a b : Expr).

Fixpoint exprOf (v : Value) {struct v} : Expr :=
  match v with
  | BlockArg _ _ => EVal v
  | OpResult (mkOp _ n vs attrs _ _ _) _ =>
      match vs with
      | [] =>
          if String.eqb n "arith.constant" then
            match getAttr "value" attrs with
            | Some (AInt z _) => EConst z
            | _ => EVal v
            end
          else EVal v
      | [a; b] =>
          if String.eqb n "arith.addi" then EAdd (exprOf a) (exprOf b)
          else if String.eqb n "arith.subi" then ESub (exprOf a) (exprOf b)
          else if String.eqb n "arith.muli" then EMul (exprOf a) (exprOf b)
          else if String.eqb n "arith.divsi" then EDivS (exprOf a) (exprOf b)
          else if String.eqb n "arith.cmpi" then
            match getAttr "predicate" attrs with
            | Some (APred p) => ECmp p (exprOf a) (exprOf b)
            | _ => EVal v
            end
          else EVal v
      | [c; a; b] =>
          if String.eqb n "arith.select"
          then ESelect (exprOf c) (exprOf a) (exprOf b)
          else EVal v
      | _ => EVal v
      end
  end.

Definition wrap (w : Z) (z : Z) : Z := (z mod 2 ^ w)%Z.

Definition signed (w : Z) (z : Z) : Z :=
  let u := wrap w z in
  if (u <? 2 ^ (w - 1))%Z then u else (u - 2 ^ w)%Z.

Definition evalCmp (w : Z) (p : CmpIPredicate.t) (a b : Z) : bool :=
  match p with
  | CmpIPredicate.eq => (wrap w a =? wrap w b)%Z
  | CmpIPredicate.ne => negb (wrap w a =? wrap w b)%Z
  | CmpIPredicate.slt => (signed w a <? signed w b)%Z
  | CmpIPredicate.sle => (signed w a <=? signed w b)%Z
  | CmpIPredicate.sgt => (signed w b <? signed w a)%Z
  | CmpIPredicate.sge => (signed w b <=? signed w a)%Z
  | CmpIPredicate.ult => (wrap w a <? wrap w b)%Z
  | CmpIPredicate.ule => (wrap w a <=? wrap w b)%Z
  | CmpIPredicate.ugt => (wrap w b <? wrap w a)%Z
  | CmpIPredicate.uge => (wrap w b <=? wrap w a)%Z
  end.

Definition divsi (w : Z) (a b : Z) : option Z :=
  let sa := signed w a in
  let sb := signed w b in
  if (sb =? 0)%Z then None
  else if (sa =? - 2 ^ (w - 1))%Z && (sb =? -1)%Z then None
  else Some (wrap w (Z.quot sa sb)).

Fixpoint evalExpr (w : Z) (env : Value -> option Z) (e : Expr) : option Z :=
  match e with
  | EVal v => x <- env v ;; Some (wrap w x)
  | EConst z => Some (wrap w z)
  | EAdd a b =>
      x <- evalExpr w env a ;; y <- evalExpr w env b ;; Some (wrap w (x + y))
  | ESub a b =>
      x <- evalExpr w env a ;; y <- evalExpr w env b ;; Some (wrap w (x - y))
  | EMul a b =>
      x <- evalExpr w env a ;; y <- evalExpr w env b ;; Some (wrap w (x * y))
  | EDivS a b =>
      x <- evalExpr w env a ;; y <- evalExpr w env b ;; divsi w x y
  | ECmp p a b =>
      x <- evalExpr w env a ;; y <- evalExpr w env b ;;
      Some (if evalCmp w p x y then 1 else 0)%Z
  | ESelect c a b =>
      k <- evalExpr w env c ;;
      x <- evalExpr w env a ;; y <- evalExpr w env b ;;
      Some (if (k =? 0)%Z then y else x)
  end.

Definition evalValue (w : Z) (env : Value -> option Z) (v : Value) :
  option Z :=
  evalExpr w env (exprOf v).

(** The trip count and the new initial value in the words of the
    specification, as expressions over the initial value [I], the bound [B]
    and the (signed) step [S]. *)
Definition tripCountExpr (pred : CmpIPredicate.t) (I B S : Expr) : Expr :=
  let range := ESub B I in
  let q := EDivS (if isInclusive pred then EAdd range S else range) S in
  ESelect (ECmp CmpIPredicate.sgt q (EConst 0)) q (EConst 0).

Definition newStartExpr (iterations I S : Expr) : Expr :=
  EAdd I (EMul (ESub iterations (EConst 1)) S).

Definition signedStepExpr (isAdd : bool) (S0 : Expr) : Expr :=
  if isAdd then S0 else ESub (EConst 0) S0.
(** ** Running a loop

    A small-step machine for the operations that the loop reversal engine
    reads and emits: the integer operations of the arith dialect,
    memref.alloca, memref.load and memref.store on scalar cells, and
    cc.loop, whose regions follow one another as
    [LoopOp::getSuccessorRegions] (CCOps.cpp) says: the loop enters its
    while region (its body, when post-conditional) with the init args; the
    cc.condition passes its results to the body or, when the condition is
    false, to the results of the loop; the cc.continue of the body passes
    its operands to the step region if there is one and to the while region
    otherwise; the cc.continue of the step region passes them to the while
    region.  Regions have one block.  Any other operation is stuck. *)
Module Exec.

Record State : Type := mkState {
  blockArgs : list (nat * Z);          (* block argument -> value *)
  results : list (nat * (nat * Z));    (* operation, result index -> value *)
  cells : list (nat * Z);              (* memref.alloca -> content *)
  visits : list (nat * (list Z * list (nat * Z)))
    (* every entry into the body of a loop, the last one first: the loop,
       the values passed to the body and the contents of the cells *)
}.

Definition initial : State := mkState [] [] [] [].

Definition lookup {A : Type} (k : nat) (m : list (nat * A)) : option A :=
  match find (fun e => Nat.eqb (fst e) k) m with
  | Some e => Some (snd e)
  | None => None
  end.

Definition valueOf (st : State) (v : Value) : option Z :=
  match v with
  | BlockArg a _ => lookup a (blockArgs st)
  | OpResult d i =>
      match find (fun e => Nat.eqb (fst e) (op_id d)
                           && Nat.eqb (fst (snd e)) i) (results st) with
      | Some e => Some (snd (snd e))
      | None => None
      end
  end.

Fixpoint valuesOf (st : State) (vs : list Value) : option (list Z) :=
  match vs with
  | [] => Some []
  | v :: vs' =>
      x <- valueOf st v ;; xs <- valuesOf st vs' ;; Some (x :: xs)
  end.

Definition setResult (op : Operation) (i : nat) (x : Z) (st : State) : State :=
  mkState (blockArgs st) ((op_id op, (i, x)) :: results st) (cells st)
    (visits st).
Definition setResults (op : Operation) (xs : list Z) (st : State) : State :=
  mkState (blockArgs st)
    (map (fun ix => (op_id op, ix)) (combine (seq 0 (List.length xs)) xs)
     ++ results st)
    (cells st) (visits st).
Definition setArguments (b : Block) (xs : list Z) (st : State) : State :=
  mkState (combine (map fst (blk_args b)) xs ++ blockArgs st) (results st)
    (cells st) (visits st).
Definition setCell (c : nat) (x : Z) (st : State) : State :=
  mkState (blockArgs st) (results st)
    ((c, x) :: filter (fun e => negb (Nat.eqb (fst e) c)) (cells st))
    (visits st).
Definition visit (loop : Operation) (xs : list Z) (st : State) : State :=
  mkState (blockArgs st) (results st) (cells st)
    ((op_id loop, (xs, cells st)) :: visits st).

Definition width (t : Ty) : Z :=
  match t with
  | TInt w => Z.of_nat w
  | _ => 64
  end.

(** One operation without regions. *)
Definition execOp (op : Operation) (st : State) : option State :=
  let w := width (nth 0 (getResultTypes op) (TOther "")) in
  if isa "arith.constant" op then
    match getAttr "value" (getAttrs op) with
    | Some (AInt z _) => Some (setResult op 0 (wrap w z) st)
    | _ => None
    end
  else if isa "memref.alloca" op then Some st
  else if isa "memref.load" op then
    m <- LoadOp.getMemRef op ;;
    d <- getDefiningOp m ;;
    x <- lookup (op_id d) (cells st) ;;
    Some (setResult op 0 x st)
  else if isa "memref.store" op then
    v <- StoreOp.getValue op ;;
    x <- valueOf st v ;;
    m <- StoreOp.getMemRef op ;;
    d <- getDefiningOp m ;;
    Some (setCell (op_id d) x st)
  else if isa "arith.select" op then
    match getOperands op with
    | [c; a; b] =>
        k <- valueOf st c ;; x <- valueOf st a ;; y <- valueOf st b ;;
        Some (setResult op 0 (if (k =? 0)%Z then y else x) st)
    | _ => None
    end
  else
    match getOperands op with
    | [a; b] =>
        x <- valueOf st a ;; y <- valueOf st b ;;
        if isa "arith.addi" op then Some (setResult op 0 (wrap w (x + y)) st)
        else if isa "arith.subi" op
        then Some (setResult op 0 (wrap w (x - y)) st)
        else if isa "arith.muli" op
        then Some (setResult op 0 (wrap w (x * y)) st)
        else if isa "arith.divsi" op then
          q <- divsi w x y ;; Some (setResult op 0 q st)
        else if isa "arith.cmpi" op then
          p <- getPredicate op ;;
          Some (setResult op 0
                  (if evalCmp (width (getType a)) p x y then 1 else 0)%Z st)
        else None
    | _ => None
    end.

(** Where the operations of a frame stand: at the top level, or in region
    [region] of [loop]. *)
Inductive Place : Type :=
| Top
| InLoop (loop : Operation) (region : nat).

Record Frame : Type := mkFrame {
  todo : list Operation;
  place : Place
}.

Definition Config : Type := list Frame * State.

Definition enterRegion (loop : Operation) (k : nat) (xs : list Z)
  (st : State) : option (Frame * State) :=
  match nth k (getRegions loop) [] with
  | [b] =>
      if Nat.eqb (List.length (blk_args b)) (List.length xs) then
        Some (mkFrame (blk_ops b) (InLoop loop k),
              setArguments b xs (if Nat.eqb k 1 then visit loop xs st else st))
      else None
  | _ => None
  end.

Definition step (c : Config) : option Config :=
  let st := snd c in
  match fst c with
  | [] => None
  | f :: rest =>
      match todo f with
      | [] =>
          match place f with
          | Top => Some (rest, st)
          | InLoop _ _ => None
          end
      | op :: ops =>
          let f' := mkFrame ops (place f) in
          if isa LoopOp.name op then
            xs <- valuesOf st (LoopOp.getInitArgs op) ;;
            fr <- enterRegion op
                    (if LoopOp.isPostConditional op then 1 else 0) xs st ;;
            Some (fst fr :: f' :: rest, snd fr)
          else if isa ConditionOp.name op then
            match place f with
            | InLoop loop 0 =>
                cond <- ConditionOp.getCondition op ;;
                k <- valueOf st cond ;;
                xs <- valuesOf st (ConditionOp.getResults op) ;;
                if (k =? 0)%Z then Some (rest, setResults loop xs st)
                else
                  fr <- enterRegion loop 1 xs st ;;
                  Some (fst fr :: rest, snd fr)
            | _ => None
            end
          else if isa "cc.continue" op then
            match place f with
            | InLoop loop 1 =>
                xs <- valuesOf st (getOperands op) ;;
                fr <- enterRegion loop (if LoopOp.hasStep loop then 2 else 0)
                        xs st ;;
                Some (fst fr :: rest, snd fr)
            | InLoop loop 2 =>
                xs <- valuesOf st (getOperands op) ;;
                fr <- enterRegion loop 0 xs st ;;
                Some (fst fr :: rest, snd fr)
            | _ => None
            end
          else
            st' <- execOp op st ;;
            Some (f' :: rest, st')
      end
  end.

Fixpoint run (fuel : nat) (c : Config) : option State :=
  match fst c with
  | [] => Some (snd c)
  | _ =>
      match fuel with
      | O => None
      | S fuel' => c' <- step c ;; run fuel' c'
      end
  end.

Definition runOps (fuel : nat) (ops : list Operation) : option State :=
  run fuel ([mkFrame ops Top], initial).

(** The visits of the body of [loop], in the order of execution. *)
Definition visitsOf (loop : Operation) (st : State) :
  list (list Z * list (nat * Z)) :=
  rev (map snd (filter (fun e => Nat.eqb (fst e) (op_id loop)) (visits st))).

End Exec.

(** ** Auxiliary notions for the proofs *)

(** A builder computation never gives back an identity it has handed
    out. *)
Definition monotone {A : Type} (m : Builder A) : Prop :=
  forall n a n', m n = Some (a, n') -> n <= n'.

(** The work list of [populateComparisonTemps]: the sum of the sizes of the
    operations on the work list decreases by at least one every round. *)
Definition worklistSize (l : list Operation) : nat :=
  list_sum (map op_size l).

(** Every memref.load reachable through the operands has its operand. *)
Fixpoint wellFormedLoads (o : Operation) : bool :=
  match o with
  | mkOp _ n vs _ _ _ _ =>
      (negb (String.eqb n "memref.load") || negb (empty vs)) &&
      (fix go (l : list Value) : bool :=
         match l with
         | [] => true
         | v :: l' =>
             match v with
             | BlockArg _ _ => true
             | OpResult d _ => wellFormedLoads d
             end && go l'
         end) vs
  end.

(** The blocks that [cloneReversedLoop] builds for the while and the body
    region of a loop whose regions have one block, when the supply of
    identities stands at [n]. *)
Definition tripZero (ins n : nat) (ty : Ty) : Operation :=
  mkOp (S n) "arith.constant" [] [("value", AInt 0 ty)] [ty] [] ins.
Definition tripTest (ins n : nat) (ty : Ty) (wb : Block) : Operation :=
  mkOp (S (S n)) "arith.cmpi" [BlockArg n ty; OpResult (tripZero ins n ty) 0]
    [("predicate", APred CmpIPredicate.sgt)] [TInt 1] [] (blk_id wb).
Definition reversedWhileBlock (ins n : nat) (ty : Ty) (wb : Block)
  (condOp : Operation) : Block :=
  mkBlock (blk_id wb) (blk_args wb ++ [(n, ty)])
    (removelast (blk_ops wb) ++
     [tripTest ins n ty wb;
      mkOp (S (S (S n))) ConditionOp.name
        (OpResult (tripTest ins n ty wb) 0 ::
         ConditionOp.getResults condOp ++ [BlockArg n ty])
        [] [] [] (blk_id wb)]).
Definition reversedBodyBlock (n : nat) (ty : Ty) (bb : Block) : Block :=
  mkBlock (blk_id bb) (blk_args bb ++ [(n, ty)])
    (removelast (blk_ops bb) ++
     [mkOp (S n) "cc.continue" (getArguments bb ++ [BlockArg n ty]) [] [] []
        (blk_id bb)]).

(** The step block that [cloneReversedLoop] builds from the block [sb] of a
    loop in the memory domain (the update of the cell is already replaced in
    [sb]): the trip counter is the new argument, it is decremented and passed
    on. *)
Definition tripOne (n : nat) (ty : Ty) (sb : Block) : Operation :=
  mkOp (S n) "arith.constant" [] [("value", AInt 1 ty)] [ty] [] (blk_id sb).
Definition tripDec (n : nat) (ty : Ty) (sb : Block) : Operation :=
  mkOp (S (S n)) "arith.subi"
    [BlockArg n ty; OpResult (tripOne n ty sb) 0] [] [ty] [] (blk_id sb).
Definition reversedStepBlock (n : nat) (ty : Ty) (sb : Block) : Block :=
  mkBlock (blk_id sb) (blk_args sb ++ [(n, ty)])
    (removelast (blk_ops sb) ++
     [tripOne n ty sb; tripDec n ty sb;
      mkOp (S (S (S n))) "cc.continue" [OpResult (tripDec n ty sb) 0] [] [] []
        (blk_id sb)]).

(** The loop that [cloneReversedLoop] builds from a loop in the memory
    domain: [trips] is the trip count, the only value the loop carries. *)
Definition tripLoop (id ins nw nb ns : nat) (trips : Value)
  (wb : Block) (condOp : Operation) (bb sb : Block) : Operation :=
  mkOp id LoopOp.name [trips] [("post_condition", ABool false)]
    [getType trips]
    [[reversedWhileBlock ins nw (getType trips) wb condOp];
     [reversedBodyBlock nb (getType trips) bb];
     [reversedStepBlock ns (getType trips) sb]] ins.




(** A quantum operation without parameters that is its own adjoint. *)
Definition selfAdjointGate (hasTraitHermitian isaOperatorInterface :
                              Operation -> bool) (op : Operation) : Prop :=
  isa "cc.if" op = false /\ isa "scf.for" op = false /\
  isa LoopOp.name op = false /\ isa "cc.scope" op = false /\
  (exists rest, getSegmentSizes op = Some (0%Z :: rest)) /\
  hasTraitHermitian op = true /\ isaOperatorInterface op = true /\
  getNumResults op = 0.



(** A primitive gate: an operation that is none of cc.if, scf.for, cc.loop
    and cc.scope, with segment sizes, the operator interface and no
    result. *)
Definition primitiveGate (isaOperatorInterface : Operation -> bool)
  (op : Operation) : Prop :=
  isa "cc.if" op = false /\ isa "scf.for" op = false /\
  isa LoopOp.name op = false /\ isa "cc.scope" op = false /\
  exists a0 rest,
    getSegmentSizes op = Some (a0 :: rest) /\
    (0 <= a0 <= Z.of_nat (List.length (getOperands op)))%Z /\
    isaOperatorInterface op = true /\ getNumResults op = 0.

(** What the control variant does to one operation [o] of the kernel, [o']
    being the operation at its place in the variant: a quantum gate gets
    [newCond] as its first control, any other operation keeps its operands
    and attributes. *)
Definition controlledBy (hasTraitQuantumGate : Operation -> bool)
  (newCond : Value) (o o' : Operation) : Prop :=
  op_name o' = op_name o /\ getResultTypes o' = getResultTypes o /\
  if hasTraitQuantumGate o then
    exists a0 a1 a2 rest,
      getSegmentSizes o = Some (a0 :: a1 :: a2 :: rest) /\
      (0 <= a0 <= Z.of_nat (List.length (getOperands o)))%Z /\
      getOperands o' =
        firstn (Z.to_nat a0) (getOperands o) ++ newCond ::
        skipn (Z.to_nat a0) (getOperands o) /\
      getSegmentSizes o' = Some [a0; (a1 + 1)%Z; a2] /\
      (forall k, k <> segmentSizes ->
                 getAttr k (getAttrs o') = getAttr k (getAttrs o)) /\
      ((0 <= a1)%Z ->
       getSegment 0 o' = getSegment 0 o /\
       getSegment 1 o' = newCond :: getSegment 1 o /\
       getSegment 2 o' = getSegment 2 o)
  else
    getOperands o' = getOperands o /\ getAttrs o' = getAttrs o /\
    op_id o' = op_id o.

Definition walkRegions (rs : list Region) : list Operation :=
  flat_map walkRegion rs.

(** The shape of an operation: its name, its attributes and the number of
    its operands.  Redirecting uses does not change it. *)
Definition shapeOf (op : Operation) : string * list (string * Attr) * nat :=
  (op_name op, getAttrs op, List.length (getOperands op)).

(** The shapes of the operations that stand, after step 2, for an operation
    of the module: a quake.apply without the attribute "replaced" becomes a
    func.call of the variant named by the mangling rule, preceded by one
    quake.concat of its controls when it has controls; every other operation
    stays. *)
Definition expectedShapes (op : Operation) :
  list (string * list (string * Attr) * nat) :=
  if isIllegal op then
    (if negb (empty (ApplyOp.getControls op))
     then [("quake.concat", [], List.length (ApplyOp.getControls op))]
     else []) ++
    [("func.call",
      [("callee",
        ASym (getVariantFunctionName op
                (match ApplyOp.getCallee op with
                 | Some s => s
                 | None => ""
                 end)))],
      (if negb (empty (ApplyOp.getControls op)) then 1 else 0) +
      List.length (ApplyOp.getArgs op))]
  else [shapeOf op].

Definition isIllegalShape (s : string * list (string * Attr) * nat) : bool :=
  String.eqb (fst (fst s)) ApplyOp.name &&
  match getAttr "replaced" (snd (fst s)) with
  | Some _ => false
  | None => true
  end.

(** ** What the loop reversal engine recovers from the loop *)




(** ** Sample IR

    [for (i = 0; i < 10; i = i + 1)] in both encodings of the induction
    variable, as the front end emits them. *)
Module Samples.

Definition i64 : Ty := TInt 64.
Definition i1 : Ty := TInt 1.

Definition constant (id blk : nat) (z : Z) : Operation :=
  mkOp id "arith.constant" [] [("value", AInt z i64)] [i64] [] blk.
Definition binop (name : string) (id blk : nat) (a b : Value) : Operation :=
  mkOp id name [a; b] [] [i64] [] blk.
Definition cmpi (id blk : nat) (p : CmpIPredicate.t) (a b : Value) : Operation :=
  mkOp id "arith.cmpi" [a; b] [("predicate", APred p)] [i1] [] blk.
Definition terminator (name : string) (id blk : nat) (vs : list Value) :
  Operation :=
  mkOp id name vs [] [] [] blk.
Definition res (o : Operation) : Value := OpResult o 0.

(** Value domain:
    %r = cc.loop while ((%i = %c0) -> (i64)) {
           %c10 = arith.constant 10; %c = arith.cmpi slt, %i, %c10
           cc.condition %c (%i)
         } do { ^bb(%i): cc.continue %i }
         step { ^bb(%i): %c1 = arith.constant 1; %n = arith.addi %i, %c1
                cc.continue %n } *)
Definition vWhileOf (pred : CmpIPredicate.t) (bound : Z) : Block :=
  let i := BlockArg 100 i64 in
  let c10 := constant 11 10 bound in
  let c := cmpi 12 10 pred i (res c10) in
  mkBlock 10 [(100, i64)]
    [c10; c; terminator "cc.condition" 13 10 [res c; i]].
Definition vBody : Block :=
  mkBlock 20 [(200, i64)] [terminator "cc.continue" 21 20 [BlockArg 200 i64]].
Definition vStepOf (update : string) (step : Z) : Block :=
  let i := BlockArg 300 i64 in
  let c1 := constant 31 30 step in
  let n := binop update 32 30 i (res c1) in
  mkBlock 30 [(300, i64)] [c1; n; terminator "cc.continue" 33 30 [res n]].
(** [for (i = init; i pred bound; i = i update step)]. *)
Definition countedLoop (init : Z) (pred : CmpIPredicate.t) (bound : Z)
  (update : string) (step : Z) : Operation :=
  mkOp 40 "cc.loop" [res (constant 1 0 init)]
    [("post_condition", ABool false)] [i64]
    [[vWhileOf pred bound]; [vBody]; [vStepOf update step]] 0.
Definition c0 : Operation := constant 1 0 0.
Definition vWhile : Block := vWhileOf CmpIPredicate.slt 10.
Definition vStep : Block := vStepOf "arith.addi" 1.
Definition valueLoop : Operation :=
  countedLoop 0 CmpIPredicate.slt 10 "arith.addi" 1.

(** Memory domain:
    %iv = memref.alloca() : memref<i64>
    cc.loop while { %0 = memref.load %iv[]; %c10 = arith.constant 10
                    %c = arith.cmpi slt, %0, %c10; cc.condition %c }
            do { cc.continue }
            step { %0 = memref.load %iv[]; %c1 = arith.constant 1
                   %n = arith.addi %0, %c1; memref.store %n, %iv[]
                   cc.continue } *)
Definition iv : Operation :=
  mkOp 2 "memref.alloca" [] [] [TMemRef [] i64] [] 0.
Definition load (id blk : nat) (cell : Operation) : Operation :=
  mkOp id "memref.load" [res cell] [] [i64] [] blk.
Definition store (id blk : nat) (v : Value) (cell : Operation) : Operation :=
  mkOp id "memref.store" [v; res cell] [] [] [] blk.
Definition mWhileOf (pred : CmpIPredicate.t) (bound : Z) : Block :=
  let l := load 11 10 iv in
  let c10 := constant 12 10 bound in
  let c := cmpi 13 10 pred (res l) (res c10) in
  mkBlock 10 [] [l; c10; c; terminator "cc.condition" 14 10 [res c]].
Definition mBody : Block :=
  mkBlock 20 [] [terminator "cc.continue" 21 20 []].
Definition mStepOf (n : Operation) : Block :=
  mkBlock 30 []
    (match getOperands n with
     | [OpResult a _; OpResult b _] =>
         if op_eqb a b then [a] else [a; b]
     | _ => []
     end ++ [n; store 34 30 (res n) iv; terminator "cc.continue" 35 30 []]).
(** [for (i = ...; i pred bound; i = i update step)], [i] in memory. *)
Definition memoryLoopOf (pred : CmpIPredicate.t) (bound : Z)
  (update : string) (step : Z) : Operation :=
  mkOp 40 "cc.loop" [] [("post_condition", ABool false)] []
    [[mWhileOf pred bound]; [mBody];
     [mStepOf (binop update 33 30 (res (load 31 30 iv))
                 (res (constant 32 30 step)))]] 0.
Definition mWhile : Block := mWhileOf CmpIPredicate.slt 10.
Definition mStep : Block :=
  mStepOf (binop "arith.addi" 33 30 (res (load 31 30 iv))
             (res (constant 32 30 1))).
Definition memoryLoop : Operation :=
  memoryLoopOf CmpIPredicate.slt 10 "arith.addi" 1.

(** The same loop with the update [i = i + i]: one store, whose add has two
    operands that load the cell. *)
Definition mStepDouble : Block :=
  let l := load 31 30 iv in
  mStepOf (binop "arith.addi" 33 30 (res l) (res l)).
Definition doublingLoop : Operation :=
  mkOp 40 "cc.loop" [] [("post_condition", ABool false)] []
    [[mWhile]; [mBody]; [mStepDouble]] 0.

(** A cc.scope around the value-domain loop, and a region of two blocks. *)
Definition scopeOp : Operation :=
  mkOp 50 "cc.scope" [] [] []
    [[mkBlock 5 [] [c0; valueLoop; terminator "cc.continue" 51 5 []]]] 0.
Definition kernelBody : Region :=
  [mkBlock 0 [] [scopeOp; terminator "func.return" 60 0 []]].

(** The traits and characteristics of the quake dialect, for the sample
    kernels: the gates are the quake operations with segmented operands;
    h, x, y, z, swap are self-adjoint. *)
Definition applyToVariant (op : Operation) : bool :=
  ApplyOp.getIsAdj op || negb (empty (ApplyOp.getControls op)).
Definition isGate (op : Operation) : bool :=
  existsb (String.eqb (op_name op))
    ["quake.h"; "quake.x"; "quake.y"; "quake.z"; "quake.s"; "quake.t";
     "quake.rx"; "quake.ry"; "quake.rz"; "quake.swap"].
Definition isHermitian (op : Operation) : bool :=
  existsb (String.eqb (op_name op))
    ["quake.h"; "quake.x"; "quake.y"; "quake.z"; "quake.swap"].
Definition hasCharacteristic (p : Operation -> bool) (f : Operation) : bool :=
  existsb p (removelast (walk f)).
Definition hasCallOp (f : Operation) : bool :=
  hasCharacteristic (fun op => isa "func.call" op || isa ApplyOp.name op) f.
Definition hasMeasureOp (f : Operation) : bool :=
  hasCharacteristic (fun op => isa "quake.mz" op || isa "quake.mx" op ||
                               isa "quake.my" op) f.
Definition noGarbage : ApplyVariants := mkApplyVariants false false false.

Definition qvec : Ty := TQVec None.
Definition gate (name : string) (id blk : nat) (params targets : list Value) :
  Operation :=
  mkOp id name (params ++ targets)
    [(segmentSizes,
      AI32Array [Z.of_nat (List.length params); 0%Z;
                 Z.of_nat (List.length targets)])] [] [] blk.
Definition func (id : nat) (name : string) (inputs : list Ty)
  (body : Region) : Operation :=
  mkOp id "func.func" []
    [("sym_name", ASym name); ("function_type", AFunctionType inputs [])]
    [] [body] 0.

(** func.func @k(%q : !quake.qvec<?>) { quake.h %q; quake.x %q; return } *)
Definition kq : Value := BlockArg 600 qvec.
Definition kernelK : Operation :=
  func 1 "k" [qvec]
    [mkBlock 6 [(600, qvec)]
       [gate "quake.h" 61 6 [] [kq]; gate "quake.x" 62 6 [] [kq];
        terminator "func.return" 63 6 []]].

(** func.func @ep(%q : !quake.qvec<?>, %c : !quake.qref) {
      quake.apply<adj> @k %q
      quake.apply @k [%c] %q
      return } *)
Definition apply (id blk : nat) (callee : string) (adj : bool)
  (controls args : list Value) (extra : list (string * Attr)) : Operation :=
  mkOp id "quake.apply" (controls ++ args)
    ([("callee", ASym callee)] ++
     (if adj then [("is_adj", AUnit)] else []) ++
     [(segmentSizes,
       AI32Array [Z.of_nat (List.length controls);
                  Z.of_nat (List.length args)])] ++ extra) [] [] blk.
Definition epq : Value := BlockArg 500 qvec.
Definition epc : Value := BlockArg 501 TQRef.
Definition applyAdj : Operation := apply 71 7 "k" true [] [epq] [].
Definition applyCtrl : Operation := apply 72 7 "k" false [epc] [epq] [].
Definition entryPoint : Operation :=
  func 2 "ep" [qvec; TQRef]
    [mkBlock 7 [(500, qvec); (501, TQRef)]
       [applyAdj; applyCtrl; terminator "func.return" 73 7 []]].
Definition twoSites : ModuleOp := [kernelK; entryPoint].

(** A kernel that calls another one. *)
Definition kernelWithCall : Operation :=
  func 3 "caller" [qvec]
    [mkBlock 8 [(800, qvec)]
       [mkOp 81 "func.call" [BlockArg 800 qvec] [("callee", ASym "k")] [] [] 8;
        terminator "func.return" 82 8 []]].

(** An apply site that carries the attribute "replaced". *)
Definition applyMarked : Operation :=
  apply 91 9 "k" true [] [BlockArg 900 qvec] [("replaced", AUnit)].
Definition markedSite : ModuleOp :=
  [kernelK;
   func 4 "ep2" [qvec]
     [mkBlock 9 [(900, qvec)]
        [applyMarked; terminator "func.return" 92 9 []]]].

(** The trip count and the new initial value that the emitted arithmetic
    computes on 64-bit integers, for the loops of the specification's
    examples. *)
Definition reversedInits (loop : Operation) : option (list (option Z)) :=
  match cloneReversedLoop 0 loop 1000 with
  | Some ((_, newLoop), _) =>
      Some (map (evalValue 64 (fun _ => None)) (LoopOp.getInitArgs newLoop))
  | None => None
  end.

(** Running the operations [ops] and then [loop]: for every iteration the
    values passed to the body and the contents of the cells, then the
    results of the loop and the final contents of the cells. *)
Definition observe (ops : list Operation) (loop : Operation) :
  option (list (list Z) * list (list Z) * list Z * list Z) :=
  st <- Exec.runOps 1000 (ops ++ [loop]) ;;
  rs <- Exec.valuesOf st (getResults loop) ;;
  Some (map fst (Exec.visitsOf loop st),
        map (fun v => map snd (snd v)) (Exec.visitsOf loop st),
        rs, map snd (Exec.cells st)).

(** The program [ops ++ [loop]] after the reversal of [loop]: the new loop
    stands where [loop] stood, after the operations that the engine
    emits. *)
Definition reverseIn (ops : list Operation) (loop : Operation) (n : nat) :
  option (list Operation * Operation * nat) :=
  match cloneReversedLoop 0 loop n with
  | Some ((emitted, newLoop), n') => Some (ops ++ emitted, newLoop, n')
  | None => None
  end.
Definition observeReversed (ops : list Operation) (loop : Operation) :
  option (list (list Z) * list (list Z) * list Z * list Z) :=
  r <- reverseIn ops loop 1000 ;;
  observe (fst (fst r)) (snd (fst r)).
Definition observeReversedTwice (ops : list Operation) (loop : Operation) :
  option (list (list Z) * list (list Z) * list Z * list Z) :=
  r <- reverseIn ops loop 1000 ;;
  r' <- reverseIn (fst (fst r)) (snd (fst r)) (snd r) ;;
  observe (fst (fst r')) (snd (fst r')).

(** [int i = 0;] in front of the memory-domain loop. *)
Definition memoryInit : list Operation := [c0; iv; store 3 0 (res c0) iv].

End Samples.
(** ** Auxiliary notions for the properties of the rest of the pass *)

(** The function that an apply site refers to, as [performAnalysis] looks it
    up: null when the site has no callee or the symbol is absent. *)
Definition calleeOp (module : ModuleOp) (appOp : Operation) :
  option Operation :=
  match ApplyOp.getCallee appOp with
  | Some callee => lookupSymbol module callee
  | None => None
  end.

(** The flag that one apply site sets in [variant]. *)
Definition markVariant (appOp : Operation) (variant : ApplyVariants) :
  ApplyVariants :=
  if ApplyOp.getIsAdj appOp && negb (empty (ApplyOp.getControls appOp))
  then mkApplyVariants (needsControlVariant variant)
         (needsAdjointVariant variant) true
  else if ApplyOp.getIsAdj appOp
  then mkApplyVariants (needsControlVariant variant) true
         (needsAdjointControlVariant variant)
  else if negb (empty (ApplyOp.getControls appOp))
  then mkApplyVariants true (needsAdjointVariant variant)
         (needsAdjointControlVariant variant)
  else variant.

(** The errors that [createAdjointVariantOf] reports. *)
Definition adjointErrors : list string :=
  ["cannot make adjoint of kernel with unstructured control flow";
   "cannot make adjoint of kernel with calls";
   "cannot make adjoint of kernel with callable expressions";
   "cannot make adjoint of kernel with a measurement"].

(** A function that step 1 creates for a global of the module [m]: a
    private func.func named after the global. *)
Definition variantOf (m : ModuleOp) (f : Operation) : Prop :=
  isa FuncOp.name f = true /\
  getAttr "sym_visibility" (getAttrs f) = Some (ASym "private") /\
  exists g, In g m /\
    (FuncOp.getName f = getCtrlVariantFunctionName (FuncOp.getName g) \/
     FuncOp.getName f = getAdjVariantFunctionName (FuncOp.getName g) \/
     FuncOp.getName f = getAdjCtrlVariantFunctionName (FuncOp.getName g)).

(** [st'] is [st] with variants of the globals of [m] appended to the module
    and errors reported; the pass has failed in [st'] exactly when it had
    failed in [st] or an error was reported. *)
Definition grows (m : ModuleOp) (st st' : PassState) : Prop :=
  exists new errs,
    module st' = module st ++ new /\ Forall (variantOf m) new /\
    diagnostics st' = diagnostics st ++ errs /\
    Forall (fun e => In e adjointErrors) errs /\
    passFailed st' = passFailed st || negb (empty errs).

(** The restrictions that [createAdjointVariantOf] checks. *)
Definition passesChecks (hasCallOp hasMeasureOp : Operation -> bool)
  (hasCharacteristic : (Operation -> bool) -> Operation -> bool)
  (funcOp : Operation) : Prop :=
  regionHasUnstructuredControlFlow (FuncOp.getBody funcOp) = Some false /\
  hasCallOp funcOp = false /\
  hasCharacteristic isaCallableExpression funcOp = false /\
  hasMeasureOp funcOp = false.

(** The conversion of step 2 leaves [op] as it is when no operation of it is
    illegal. *)
Definition legalOp (op : Operation) : Prop :=
  Forall (fun o => isIllegal o = false) (walk op) ->
  forall n, convertOp op n = Some (([op], []), n).

(** The number of operations that [cloneRootSubexpression] creates for
    [root]: one per node of the expression tree of [root] that is reached
    through operations of [block]. *)
Fixpoint clonesOf (block : nat) (root : Value) {struct root} : nat :=
  match root with
  | BlockArg _ _ => 0
  | OpResult (mkOp _ _ vs _ _ _ owner) _ =>
      if Nat.eqb owner block then
        S ((fix go (l : list Value) : nat :=
              match l with
              | [] => 0
              | v :: l' => clonesOf block v + go l'
              end) vs)
      else 0
  end.

(** The cell that a memref.load contributes to the candidates of
    [populateComparisonTemps]. *)
Definition loadedCell (op : Operation) : option (list Operation) :=
  m <- LoadOp.getMemRef op ;;
  match getDefiningOp m with
  | Some defOp =>
      if isa "memref.alloca" defOp
         && isScalarIntegral (nth 0 (getResultTypes defOp) (TOther ""))
      then Some [defOp] else Some []
  | None => Some []
  end.

(** The depth-first scan of the expression tree of [op] inside block [blk],
    the last operand first, that stops at the loads. *)
Fixpoint scanTemps (blk : nat) (op : Operation) {struct op} :
  option (list Operation) :=
  match op with
  | mkOp _ n vs _ _ _ _ =>
      if String.eqb n "memref.load" then loadedCell op
      else
        (fix go (l : list Value) : option (list Operation) :=
           match l with
           | [] => Some []
           | v :: l' =>
               rest <- go l' ;;
               r <- match v with
                    | BlockArg _ _ => Some []
                    | OpResult d _ =>
                        if Nat.eqb (getBlock d) blk then scanTemps blk d
                        else Some []
                    end ;;
               Some (rest ++ r)
           end) vs
  end.

(** The scan of a work list, its back first. *)
Fixpoint scanStack (blk : nat) (l : list Operation) :
  option (list Operation) :=
  match l with
  | [] => Some []
  | op :: l' =>
      rest <- scanStack blk l' ;;
      r <- scanTemps blk op ;;
      Some (rest ++ r)
  end.

(** A memref.alloca of a scalar of integer type. *)
Definition scalarCell (d : Operation) : Prop :=
  isa "memref.alloca" d = true /\
  isScalarIntegral (nth 0 (getResultTypes d) (TOther "")) = true.

(** The operation that defines the value tested by the cc.condition of the
    loop, which [cloneReversedLoop] casts to arith.cmpi, and the operation
    that defines the first operand of the cc.continue of the step block. *)
Definition testedOp (loop : Operation) : option Operation :=
  whileBlock <- back (LoopOp.getWhileRegion loop) ;;
  condition <- back (blk_ops whileBlock) ;;
  cond <- ConditionOp.getCondition condition ;;
  getDefiningOp cond.
Definition mutateOp (loop : Operation) : option Operation :=
  stepBlock <- back (LoopOp.getStepRegion loop) ;;
  backedgeOp <- back (blk_ops stepBlock) ;;
  next <- getOperand backedgeOp 0 ;;
  getDefiningOp next.

(** [ensureStepTerminator] (CCOps.cpp): the block at the back of the step
    region gets a cc.continue without operands unless its last operation has
    the trait IsTerminator, here the parameter [isTerminator]. *)
Definition ensureStepTerminator (isTerminator : Operation -> bool)
  (stepRegion : Region) : Builder Region :=
  block <~ Bld.lift (back stepRegion) ;;
  let addContinue : Builder Region :=
    c <~ Bld.create (blk_id block) "cc.continue" [] [] [] [] ;;
    Bld.ret (updBack (fun b => withBlockOps b (blk_ops b ++ [c]))
               stepRegion) in
  if empty (blk_ops block) then addContinue
  else
    term <~ Bld.lift (back (blk_ops block)) ;;
    if negb (isTerminator term) then addContinue else Bld.ret stepRegion.

(** ** Further sample IR *)
Module Cases.

(** An operation is quantum when it is a gate or holds one. *)
Definition hasQuantum (op : Operation) : bool :=
  existsb Samples.isGate (walk op).

(** func.func private @decl(!quake.qvec<?>) *)
Definition declaration : Operation :=
  mkOp 5 "func.func" []
    [("sym_name", ASym "decl");
     ("function_type", AFunctionType [Samples.qvec] [])] [] [[]] 0.

(** func.func @kf(%q : !quake.qvec<?>, %n : i64) {
      %c0 = arith.constant 0; %c1 = arith.constant 1
      scf.for %i = %c0 to %n step %c1 { quake.h %q; scf.yield }
      return } *)
Definition forOp : Operation :=
  mkOp 113 "scf.for"
    [Samples.res (Samples.constant 111 11 0); BlockArg 1101 Samples.i64;
     Samples.res (Samples.constant 112 11 1)] [] []
    [[mkBlock 12 [(1200, Samples.i64)]
        [Samples.gate "quake.h" 121 12 [] [BlockArg 1100 Samples.qvec];
         Samples.terminator "scf.yield" 122 12 []]]] 11.
Definition kernelFor : Operation :=
  Samples.func 6 "kf" [Samples.qvec; Samples.i64]
    [mkBlock 11 [(1100, Samples.qvec); (1101, Samples.i64)]
       [Samples.constant 111 11 0; Samples.constant 112 11 1; forOp;
        Samples.terminator "func.return" 114 11 []]].

(** quake.h %q; %c = arith.constant 7; quake.x %q; return *)
Definition mixedBlock : Block :=
  mkBlock 6 [(600, Samples.qvec)]
    [Samples.gate "quake.h" 61 6 [] [Samples.kq];
     Samples.constant 64 6 7;
     Samples.gate "quake.x" 62 6 [] [Samples.kq];
     Samples.terminator "func.return" 63 6 []].

(** A loop that carries the induction value and an accumulator:
    %r:2 = cc.loop while ((%i = %c0, %a = %c0) -> (i64, i64)) {
             %c10 = arith.constant 10; %c = arith.cmpi slt, %i, %c10
             cc.condition %c (%i, %a)
           } do { ^bb(%i, %a): cc.continue %i, %a }
           step { ^bb(%i, %a): %c1 = arith.constant 1
                  %n = arith.addi %i, %c1; cc.continue %n, %a } *)
Definition accumLoop : Operation :=
  let i64 := Samples.i64 in
  let c10 := Samples.constant 11 10 10 in
  let c := Samples.cmpi 12 10 CmpIPredicate.slt (BlockArg 100 i64)
             (Samples.res c10) in
  let c1 := Samples.constant 31 30 1 in
  let n := Samples.binop "arith.addi" 32 30 (BlockArg 300 i64)
             (Samples.res c1) in
  mkOp 40 "cc.loop" [Samples.res Samples.c0; Samples.res Samples.c0]
    [("post_condition", ABool false)] [i64; i64]
    [[mkBlock 10 [(100, i64); (101, i64)]
        [c10; c;
         Samples.terminator "cc.condition" 13 10
           [Samples.res c; BlockArg 100 i64; BlockArg 101 i64]]];
     [mkBlock 20 [(200, i64); (201, i64)]
        [Samples.terminator "cc.continue" 21 20
           [BlockArg 200 i64; BlockArg 201 i64]]];
     [mkBlock 30 [(300, i64); (301, i64)]
        [c1; n;
         Samples.terminator "cc.continue" 33 30
           [Samples.res n; BlockArg 301 i64]]]] 0.

(** The module of the kernel [k] and of a kernel that calls it, before the
    pass. *)
Definition callers : PassState :=
  mkPassState [Samples.kernelK; Samples.kernelWithCall] [] false 1000.

(** The module with an adjoint and a controlled apply site of [k]. *)
Definition sites : PassState := mkPassState Samples.twoSites [] false 1000.

(** The operations with the trait IsTerminator among those of the sample
    kernels. *)
Definition isTerminator (op : Operation) : bool :=
  existsb (String.eqb (op_name op))
    ["cc.continue"; "cc.condition"; "func.return"; "scf.yield"].

(** A module with an adjoint apply site of the kernel that calls another
    one. *)
Definition adjointOfCaller : PassState :=
  mkPassState
    [Samples.kernelK; Samples.kernelWithCall;
     Samples.func 7 "ep3" [Samples.qvec]
       [mkBlock 13 [(1300, Samples.qvec)]
          [Samples.apply 131 13 "caller" true [] [BlockArg 1300 Samples.qvec]
             [];
           Samples.terminator "func.return" 132 13 []]]]
    [] false 1000.

(** A loop whose condition is not a comparison:
    [while (i & 10)] with the update [i = i + 1] in the step region. *)
Definition maskLoop : Operation :=
  let i64 := Samples.i64 in
  let c10 := Samples.constant 11 10 10 in
  let c := Samples.binop "arith.andi" 12 10 (BlockArg 100 i64)
             (Samples.res c10) in
  mkOp 40 "cc.loop" [Samples.res Samples.c0]
    [("post_condition", ABool false)] [i64]
    [[mkBlock 10 [(100, i64)]
        [c10; c;
         Samples.terminator "cc.condition" 13 10
           [Samples.res c; BlockArg 100 i64]]];
     [Samples.vBody]; [Samples.vStep]] 0.



End Cases.

(** ** Facts about the recognizer and the classifier *)

Ltac inv H := inversion H; subst; clear H.

(** Case analysis on the first monadic bind or test of a goal or hypothesis. *)
Ltac bind_inv H :=
  match type of H with
  | Res.bind ?m _ = Some _ =>
      let E := fresh "E" in
      destruct m eqn:E; [cbn [Res.bind] in H | discriminate H]
  | (if ?c then _ else _) = Some _ =>
      let E := fresh "E" in
      destruct c eqn:E; [try discriminate H | try discriminate H]
  | match ?m with Some _ => _ | None => _ end = Some _ =>
      let E := fresh "E" in
      destruct m eqn:E; [| try discriminate H]
  end.

Lemma unstructuredOp_unfold (op : Operation) :
  unstructuredOp op =
  if Nat.eqb (getNumRegions op) 0 then Some false
  else
    unknown <- unknownMultiRegionOp op ;;
    if unknown then Some true else unstructuredRegions (getRegions op).
Proof.
  destruct op as [i n vs a t regions b].
  cbn [unstructuredOp].
  destruct (Nat.eqb _ 0); [reflexivity|].
  fold (unknownMultiRegionOp (mkOp i n vs a t regions b)).
  destruct (unknownMultiRegionOp _) as [[|]|]; cbn [Res.bind]; try reflexivity.
  cbn [getRegions]. clear.
  induction regions as [|reg rs IH]; [reflexivity|].
  cbn [unstructuredRegions].
  assert (E : match reg with
              | [] => Some false
              | [mkBlock _ _ ops] =>
                  (fix blockOps (l : list Operation) : option bool :=
                     match l with
                     | [] => Some false
                     | o :: l' =>
                         u <- unstructuredOp o ;;
                         if u then Some true else blockOps l'
                     end) ops
              | _ => Some true
              end = regionHasUnstructuredControlFlow reg).
  { destruct reg as [|[bi ba ops] [|b2 r2]]; reflexivity. }
  rewrite E.
  destruct (regionHasUnstructuredControlFlow reg) as [[|]|]; cbn [Res.bind];
    try reflexivity.
  exact IH.
Qed.

Lemma unstructuredOps_false (l : list Operation) :
  unstructuredOps l = Some false <->
  Forall (fun op => unstructuredOp op = Some false) l.
Proof.
  induction l as [|o l IH]; cbn.
  - split; auto.
  - split.
    + intros H. destruct (unstructuredOp o) as [[|]|] eqn:E; cbn in H;
        try discriminate. constructor; [assumption | now apply IH].
    + intros H. inv H. rewrite H2. cbn. now apply IH.
Qed.

Lemma unstructuredRegions_false (rs : list Region) :
  unstructuredRegions rs = Some false <->
  Forall (fun r => regionHasUnstructuredControlFlow r = Some false) rs.
Proof.
  induction rs as [|r rs IH]; cbn.
  - split; auto.
  - split.
    + intros H.
      destruct (regionHasUnstructuredControlFlow r) as [[|]|] eqn:E; cbn in H;
        try discriminate. constructor; [assumption | now apply IH].
    + intros H. inv H. rewrite H2. cbn. now apply IH.
Qed.

Lemma Forall_pointwise_iff {A : Type} (P Q : A -> Prop) (l : list A) :
  (forall x, P x <-> Q x) -> (Forall P l <-> Forall Q l).
Proof.
  intros H. split; intros F; eapply Forall_impl; try exact F;
    intros x Hx; now apply H.
Qed.

Lemma nth_region_overflow (l : list Region) (n : nat) :
  List.length l <= n -> nth n l ([] : Region) = [].
Proof. intros H. now apply nth_overflow. Qed.

(** An operation with at most one region is never a counted loop: its step
    region is absent. *)
Lemma isaCountedLoop_few_regions (op : Operation) :
  getNumRegions op <= 1 -> isaCountedLoop op = Some false.
Proof.
  intros H. unfold isaCountedLoop.
  destruct (isa LoopOp.name op); [|reflexivity].
  unfold LoopOp.hasStep, LoopOp.getStepRegion.
  rewrite nth_region_overflow by (unfold getNumRegions in H; lia).
  cbn. now rewrite orb_true_r.
Qed.

(** ** The counted-loop recognizer (claim C9) *)

Lemma hasMonotonicLCV_true_shape (loop : Operation) :
  hasMonotonicLCV loop = Some true ->
  empty (LoopOp.getInitArgs loop) || empty (getResults loop) = true.
Proof.
  unfold hasMonotonicLCV. intros H.
  destruct (empty (LoopOp.getInitArgs loop)), (empty (getResults loop));
    cbn in *; congruence.
Qed.

Lemma hasMonotonicPHIControl_true_shape (loop : Operation) :
  hasMonotonicPHIControl loop = Some true ->
  empty (LoopOp.getInitArgs loop) || empty (getResults loop) = false.
Proof.
  unfold hasMonotonicPHIControl. intros H.
  destruct (empty (LoopOp.getInitArgs loop) || empty (getResults loop));
    congruence.
Qed.

(** C9.  [isaCountedLoop] answers false on a post-conditional loop and on a
    loop without a step region; it accepts only a loop whose body region is
    one block ending in cc.continue; on such a loop its answer is the
    disjunction of the memory-domain and value-domain matchers; and the two
    matchers never both accept the same loop. *)
Theorem isaCountedLoop_recognizer :
  (forall op, LoopOp.isPostConditional op = true ->
              isaCountedLoop op = Some false) /\
  (forall op, LoopOp.hasStep op = false -> isaCountedLoop op = Some false) /\
  (forall op, isaCountedLoop op = Some true ->
     exists blk term,
       LoopOp.getBodyRegion op = [blk] /\ getTerminator blk = Some term /\
       isa "cc.continue" term = true) /\
  (forall op blk term,
     isa LoopOp.name op = true ->
     LoopOp.isPostConditional op = false -> LoopOp.hasStep op = true ->
     LoopOp.getBodyRegion op = [blk] -> getTerminator blk = Some term ->
     isa "cc.continue" term = true ->
     (hasMonotonicLCV op = Some true -> isaCountedLoop op = Some true) /\
     (forall a b, hasMonotonicLCV op = Some a ->
                  hasMonotonicPHIControl op = Some b ->
                  isaCountedLoop op = Some (a || b))) /\
  (forall loop, ~ (hasMonotonicLCV loop = Some true /\
                   hasMonotonicPHIControl loop = Some true)).
Proof.
  split; [|split; [|split; [|split]]].
  - intros op H. unfold isaCountedLoop. rewrite H. cbn.
    now destruct (isa LoopOp.name op).
  - intros op H. unfold isaCountedLoop. rewrite H. cbn.
    rewrite orb_true_r. now destruct (isa LoopOp.name op).
  - intros op H. unfold isaCountedLoop in H.
    destruct (isa LoopOp.name op); [|discriminate].
    destruct (LoopOp.isPostConditional op || negb (LoopOp.hasStep op));
      [discriminate|].
    destruct (LoopOp.getBodyRegion op) as [|blk [|b2 r]]; cbn in H;
      try discriminate.
    destruct (getTerminator blk) as [term|] eqn:Et; cbn in H; [|discriminate].
    destruct (isa "cc.continue" term) eqn:E; cbn in H; [|discriminate].
    now exists blk, term.
  - intros op blk term H H0 H1 H2 H3 H4.
    assert (E : isaCountedLoop op = hasMonotonicControlInduction op).
    { unfold isaCountedLoop. rewrite H, H0, H1, H2. cbn. rewrite H3. cbn.
      now rewrite H4. }
    rewrite E. unfold hasMonotonicControlInduction. split.
    + intros H5. now rewrite H5.
    + intros a b Ha Hb. rewrite Ha. cbn. destruct a; [reflexivity | exact Hb].
  - intros loop [Ha Hb].
    apply hasMonotonicLCV_true_shape in Ha.
    apply hasMonotonicPHIControl_true_shape in Hb. congruence.
Qed.

Lemma isaCountedLoop_recognizer_witness :
  isaCountedLoop Samples.valueLoop = Some true /\
  isaCountedLoop Samples.memoryLoop = Some true.
Proof.
  destruct isaCountedLoop_recognizer as (_ & _ & _ & H & _).
  split.
  - exact (proj2 (H Samples.valueLoop Samples.vBody
                    (Samples.terminator "cc.continue" 21 20
                       [BlockArg 200 Samples.i64])
                    eq_refl eq_refl eq_refl eq_refl eq_refl eq_refl)
                 false true eq_refl eq_refl).
  - exact (proj1 (H Samples.memoryLoop Samples.mBody
                    (Samples.terminator "cc.continue" 21 20 [])
                    eq_refl eq_refl eq_refl eq_refl eq_refl eq_refl)
                 eq_refl).
Defined.

(** ** The structured-control-flow classifier (claim C4) *)

(** C4.  A region without blocks is structured; a region of two or more
    blocks is unstructured; a region of one block is structured exactly when
    each of its operations that has regions is a cc.if, a counted loop or an
    operation with at most one region, and each region of such an operation
    is structured in turn. *)
Theorem regionHasUnstructuredControlFlow_classifier :
  regionHasUnstructuredControlFlow [] = Some false /\
  (forall b1 b2 bs,
     regionHasUnstructuredControlFlow (b1 :: b2 :: bs) = Some true) /\
  (forall b,
     regionHasUnstructuredControlFlow [b] = Some false <->
     Forall (fun op =>
       getNumRegions op = 0 \/
       ((isaIfOp op = true \/ isaCountedLoop op = Some true \/
         getNumRegions op <= 1) /\
        Forall (fun r => regionHasUnstructuredControlFlow r = Some false)
               (getRegions op))) (blk_ops b)).
Proof.
  split; [reflexivity|]. split; [reflexivity|].
  intros b. unfold regionHasUnstructuredControlFlow at 1. cbn.
  rewrite unstructuredOps_false.
  apply Forall_pointwise_iff.
  intros op. rewrite unstructuredOp_unfold.
  destruct (Nat.eqb (getNumRegions op) 0) eqn:E0.
  { apply Nat.eqb_eq in E0. split; auto. }
  apply Nat.eqb_neq in E0.
  unfold unknownMultiRegionOp.
  destruct (isaIfOp op) eqn:Eif; cbn [Res.bind negb].
  { rewrite unstructuredRegions_false. split.
    - intros H. right. split; auto.
    - intros [H|[_ H]]; [exfalso; lia | exact H]. }
  destruct (isaCountedLoop op) as [[|]|] eqn:Ec; cbn [Res.bind negb].
  - rewrite unstructuredRegions_false. split.
    + intros H. right. split; auto.
    + intros [H|[_ H]]; [exfalso; lia | exact H].
  - destruct (Nat.ltb 1 (getNumRegions op)) eqn:El; cbn [Res.bind negb].
    + apply Nat.ltb_lt in El. split; [discriminate|].
      intros [H|[[H|[H|H]] _]]; try discriminate; exfalso; lia.
    + apply Nat.ltb_ge in El. rewrite unstructuredRegions_false. split.
      * intros H. right. split; auto.
      * intros [H|[_ H]]; [exfalso; lia | exact H].
  - split; [discriminate|].
    intros [H|[[H|[H|H]] _]]; try discriminate; [exfalso; lia|].
    rewrite isaCountedLoop_few_regions in Ec by assumption. discriminate.
Qed.

Lemma regionHasUnstructuredControlFlow_classifier_witness :
  regionHasUnstructuredControlFlow Samples.kernelBody = Some false.
Proof.
  destruct regionHasUnstructuredControlFlow_classifier as (_ & _ & H).
  apply (proj2 (H (mkBlock 0 [] [Samples.scopeOp;
                                  Samples.terminator "func.return" 60 0 []]))).
  cbn [blk_ops]. constructor; [|constructor; [left; reflexivity|constructor]].
  right. split; [right; right; cbn; lia|].
  constructor; [|constructor].
  apply (proj2 (H (mkBlock 5 [] [Samples.c0; Samples.valueLoop;
                                  Samples.terminator "cc.continue" 51 5 []]))).
  cbn [blk_ops].
  constructor; [left; reflexivity|].
  constructor; [|constructor; [left; reflexivity|constructor]].
  right. split; [right; left; reflexivity|].
  repeat constructor.
Defined.

(** ** The memory-domain matcher (claim C5) *)

Lemma countOperand_spec (cell : option Operation) (v : Value) :
  countOperand cell v =
  if operandDefined v then Some (if loadsCell cell v then 1 else 0) else None.
Proof.
  unfold countOperand, operandDefined, loadsCell, LoadOp.getMemRef, getOperand.
  destruct (getDefiningOp v) as [d|]; cbn [Res.bind]; [|reflexivity].
  destruct (isa "memref.load" d); cbn [negb orb andb]; [|reflexivity].
  destruct (getOperands d) as [|m l]; cbn; [reflexivity|].
  now destruct (optop_eqb cell (getDefiningOp m)).
Qed.

Lemma countOperands_spec (cell : option Operation) (l : list Value) :
  countOperands cell l =
  if forallb operandDefined l
  then Some (List.length (filter (loadsCell cell) l)) else None.
Proof.
  induction l as [|v l IH]; [reflexivity|].
  cbn [countOperands forallb filter]. rewrite countOperand_spec, IH.
  destruct (operandDefined v); cbn [Res.bind andb]; [|reflexivity].
  destruct (forallb operandDefined l); cbn [Res.bind]; [|reflexivity].
  now destruct (loadsCell cell v).
Qed.

Lemma countStore_spec (temps : list Operation) (op : Operation) :
  countStore temps op =
  if storeScanDefined temps op
  then Some (List.length (matchingOperands temps op)) else None.
Proof.
  unfold countStore, storeScanDefined, matchingOperands, storeTarget,
    storedUpdate.
  destruct (isa "memref.store" op); cbn [negb orb andb]; [|reflexivity].
  destruct (StoreOp.getMemRef op) as [m|]; cbn [Res.bind]; [|reflexivity].
  destruct (findOp (getDefiningOp m) temps); cbn [negb orb]; [|reflexivity].
  destruct (StoreOp.getValue op) as [v|]; cbn [Res.bind]; [|reflexivity].
  destruct (getDefiningOp v) as [d|]; [|reflexivity].
  destruct (isAddOrSub d); cbn [negb orb]; [|reflexivity].
  apply countOperands_spec.
Qed.

Lemma countStores_spec (temps : list Operation) (l : list Operation) :
  countStores temps l =
  if forallb (storeScanDefined temps) l then Some (pairCount temps l)
  else None.
Proof.
  unfold pairCount.
  induction l as [|op l IH]; [reflexivity|].
  cbn [countStores forallb flat_map]. rewrite countStore_spec, IH.
  destruct (storeScanDefined temps op); cbn [Res.bind andb]; [|reflexivity].
  destruct (forallb (storeScanDefined temps) l); cbn [Res.bind];
    [|reflexivity].
  now rewrite length_app.
Qed.

Lemma forallb_rev {A : Type} (f : A -> bool) (l : list A) :
  forallb f (rev l) = forallb f l.
Proof.
  induction l as [|a l IH]; [reflexivity|].
  cbn. rewrite forallb_app, IH. cbn. rewrite andb_true_r. apply andb_comm.
Qed.

Lemma pairCount_rev (temps : list Operation) (l : list Operation) :
  pairCount temps (rev l) = pairCount temps l.
Proof.
  unfold pairCount. induction l as [|a l IH]; [reflexivity|].
  cbn. rewrite flat_map_app, !length_app, IH. cbn. rewrite app_nil_r. lia.
Qed.

(** One matching pair in all: one matching store, with one matching
    operand. *)
Lemma pairCount_one (temps : list Operation) (l : list Operation) :
  pairCount temps l = 1 <->
  exists s, filter (matchingStore temps) l = [s] /\
            List.length (matchingOperands temps s) = 1.
Proof.
  unfold pairCount, matchingStore.
  induction l as [|op l IH].
  - cbn. split; [discriminate | intros (s & H & _); discriminate].
  - cbn [flat_map filter]. rewrite length_app.
    destruct (matchingOperands temps op) as [|v vs] eqn:E; cbn [empty negb].
    + cbn [List.length Nat.add]. exact IH.
    + split.
      * intros H. cbn in H.
        assert (Hl : List.length (flat_map (matchingOperands temps) l) = 0)
          by lia.
        assert (Hv : vs = []) by (destruct vs; [reflexivity | cbn in H; lia]).
        subst vs. exists op. rewrite E. split; [|reflexivity]. f_equal.
        apply length_zero_iff_nil in Hl. clear - Hl.
        induction l as [|a l IHl]; [reflexivity|].
        cbn in Hl. apply app_eq_nil in Hl. destruct Hl as [Ha Hl].
        cbn. rewrite Ha. cbn. auto.
      * intros (s & Hs & Hn). inv Hs. rewrite E in Hn.
        assert (Hl : flat_map (matchingOperands temps) l = []).
        { clear - H1. induction l as [|a l IHl]; [reflexivity|].
          cbn in H1. cbn.
          destruct (matchingOperands temps a) eqn:Ea; cbn in H1;
            [auto | discriminate]. }
        rewrite Hl. cbn in *. lia.
Qed.

Lemma hasMonotonicLCV_count (loop : Operation) (b : bool) :
  hasMonotonicLCV loop = Some b ->
  b = true ->
  exists temps stepBlock,
    memoryDomainShape loop temps stepBlock /\
    countStores temps (rev (blk_ops stepBlock)) = Some 1.
Proof.
  intros H ->. unfold hasMonotonicLCV in H.
  destruct (negb (empty (LoopOp.getInitArgs loop)) &&
            negb (empty (getResults loop))) eqn:Eg; [discriminate|].
  bind_inv H. rename b into whileBlock.
  bind_inv H. rename o into condition.
  destruct (isa ConditionOp.name condition) eqn:Ei; [|discriminate].
  cbn [negb] in H.
  bind_inv H. rename v into cond.
  destruct (getDefiningOp cond) as [cmpOp|] eqn:Ed; [|discriminate].
  destruct (isa "arith.cmpi" cmpOp) eqn:Ec; [|discriminate].
  cbn [negb] in H.
  bind_inv H. rename l into temps.
  bind_inv H. rename b into stepBlock.
  bind_inv H. rename n into count.
  destruct (Nat.eqb count 1) eqn:En; [|discriminate].
  apply Nat.eqb_eq in En. subst count.
  exists temps, stepBlock. split; [|assumption].
  split.
  - destruct (empty (LoopOp.getInitArgs loop)), (empty (getResults loop));
      cbn in *; congruence.
  - exists whileBlock, condition, cond, cmpOp. auto 10.
Qed.

(** C5 (as amended).  The memory-domain matcher accepts a loop exactly when
    the loop has the memory-domain shape, the scan of the step block is
    defined, and exactly one store of the step block matches -- it targets a
    candidate cell and stores an add or subtract with a load of that cell
    among its operands -- and exactly one operand of that add or subtract
    loads the cell. *)
Theorem hasMonotonicLCV_accepts (loop : Operation) :
  hasMonotonicLCV loop = Some true <->
  exists temps stepBlock,
    memoryDomainShape loop temps stepBlock /\
    forallb (storeScanDefined temps) (blk_ops stepBlock) = true /\
    exists s, filter (matchingStore temps) (blk_ops stepBlock) = [s] /\
              List.length (matchingOperands temps s) = 1.
Proof.
  split.
  - intros H. destruct (hasMonotonicLCV_count loop H eq_refl)
      as (temps & stepBlock & Hs & Hc).
    exists temps, stepBlock. split; [assumption|].
    rewrite countStores_spec, forallb_rev, pairCount_rev in Hc.
    destruct (forallb (storeScanDefined temps) (blk_ops stepBlock));
      [|discriminate].
    split; [reflexivity|]. apply pairCount_one. congruence.
  - intros (temps & stepBlock & (Hg & wb & cn & cond & cmpOp & Hs) & Hd &
            Hone).
    destruct Hs as (H1 & H2 & H3 & H4 & H5 & H6 & H7 & H8).
    apply pairCount_one in Hone.
    unfold hasMonotonicLCV.
    replace (negb (empty (LoopOp.getInitArgs loop)) &&
             negb (empty (getResults loop))) with false
      by (destruct (empty (LoopOp.getInitArgs loop)),
                   (empty (getResults loop)); cbn in *; congruence).
    rewrite H1. cbn [Res.bind]. rewrite H2. cbn [Res.bind]. rewrite H3.
    cbn [negb]. rewrite H4. cbn [Res.bind]. rewrite H5, H6. cbn [negb].
    rewrite H7. cbn [Res.bind]. rewrite H8. cbn [Res.bind].
    rewrite countStores_spec, forallb_rev, pairCount_rev, Hd, Hone.
    reflexivity.
Qed.

Lemma hasMonotonicLCV_accepts_witness :
  hasMonotonicLCV Samples.memoryLoop = Some true.
Proof.
  apply (proj2 (hasMonotonicLCV_accepts Samples.memoryLoop)).
  exists [Samples.iv], Samples.mStep. split; [|split].
  - split; [reflexivity|].
    eexists _, _, _, _. repeat split; reflexivity.
  - reflexivity.
  - eexists. split; reflexivity.
Defined.

(** C5, the claim as written fails: with the update [i = i + i] the step
    block holds exactly one matching store, yet the matcher rejects the
    loop, because two operands of the stored add load the cell. *)
Lemma hasMonotonicLCV_doubling_rejected :
  memoryDomainShape Samples.doublingLoop [Samples.iv] Samples.mStepDouble /\
  List.length (filter (matchingStore [Samples.iv])
                      (blk_ops Samples.mStepDouble)) = 1 /\
  hasMonotonicLCV Samples.doublingLoop = Some false.
Proof.
  split; [|split]; try reflexivity.
  split; [reflexivity|].
  eexists _, _, _, _. repeat split; reflexivity.
Qed.

(** ** The variant-requirement analysis (claim C10) *)

(** C10, the code at the failing input: the kernel [k] has an adjoint apply
    site followed by a controlled one.  The entry of [k] is the one the first
    site inserted; the second site reads it, sets needs-control in its local
    copy, and [insert] leaves the map as it is.  Whatever the local variable
    held before, needs-control of [k] is not set by the controlled site; the
    pass then creates [k.adj] only, and step 2 turns the controlled site
    into a call of [k.ctrl], a symbol that the module does not hold. *)
Theorem performAnalysis_second_site_lost (uninitialized : ApplyVariants) :
  infoFind (Some Samples.kernelK)
    (performAnalysis Samples.applyToVariant uninitialized Samples.twoSites) =
  Some (mkApplyVariants (needsControlVariant uninitialized) true
          (needsAdjointControlVariant uninitialized)) /\
  needsControlVariant
    (match infoFind (Some Samples.kernelK)
             (performAnalysis Samples.applyToVariant Samples.noGarbage
                Samples.twoSites) with
     | Some v => v
     | None => Samples.noGarbage
     end) = false /\
  existsb (fun site =>
             negb (ApplyOp.getIsAdj site) &&
             negb (empty (ApplyOp.getControls site)) &&
             match ApplyOp.getCallee site with
             | Some callee =>
                 optop_eqb (lookupSymbol Samples.twoSites callee)
                           (Some Samples.kernelK)
             | None => false
             end)
          (filter (isa ApplyOp.name) (walkOps Samples.twoSites)) = true /\
  match runOnOperation Samples.applyToVariant Samples.hasCallOp
          Samples.hasMeasureOp Samples.hasCharacteristic Samples.isGate
          Samples.isGate Samples.isHermitian Samples.isGate Samples.noGarbage
          (mkPassState Samples.twoSites [] false 1000) with
  | Some st' =>
      map (fun o => getAttr "callee" (getAttrs o))
          (filter (isa "func.call") (walkOps (module st'))) =
        [Some (ASym "k.adj"); Some (ASym "k.ctrl")] /\
      lookupSymbol (module st') "k.ctrl" = None /\
      passFailed st' = false
  | None => False
  end.
Proof.
  split; [reflexivity|]. split; [reflexivity|]. split; [reflexivity|].
  vm_compute. repeat split.
Qed.

(** ** The variant synthesizer *)

Section PassFacts.

Variable hasCallOp : Operation -> bool.
Variable hasMeasureOp : Operation -> bool.
Variable hasCharacteristic : (Operation -> bool) -> Operation -> bool.
Variable hasQuantum : Operation -> bool.
Variable hasTraitQuantumGate : Operation -> bool.
Variable hasTraitHermitian : Operation -> bool.
Variable isaOperatorInterface : Operation -> bool.

Local Notation createAdjointVariantOf' :=
  (createAdjointVariantOf hasCallOp hasMeasureOp hasCharacteristic hasQuantum
     hasTraitHermitian isaOperatorInterface).

(** C6.  When the body of the kernel is unstructured, or the kernel holds a
    call, a callable expression or a measurement, [createAdjointVariantOf]
    reports one error, signals the failure of the pass and returns the null
    function; the module is the one it was given, so no symbol -- in
    particular no symbol named [funcName] -- has been added. *)
Theorem createAdjointVariantOf_unsupported
  (funcOp : Operation) (funcName : string) (st : PassState) :
  regionHasUnstructuredControlFlow (FuncOp.getBody funcOp) = Some true \/
  (regionHasUnstructuredControlFlow (FuncOp.getBody funcOp) = Some false /\
   (hasCallOp funcOp = true \/
    hasCharacteristic isaCallableExpression funcOp = true \/
    hasMeasureOp funcOp = true)) ->
  exists msg st',
    createAdjointVariantOf' funcOp funcName st = Some (None, st') /\
    diagnostics st' = diagnostics st ++ [msg] /\
    passFailed st' = true /\
    module st' = module st /\
    lookupSymbol (module st') funcName = lookupSymbol (module st) funcName.
Proof.
  unfold createAdjointVariantOf.
  intros [Hu | [Hu Hc]]; rewrite Hu; cbn [Res.bind].
  - eexists _, _. repeat split.
  - destruct (hasCallOp funcOp).
    { eexists _, _. repeat split. }
    destruct (hasCharacteristic isaCallableExpression funcOp).
    { eexists _, _. repeat split. }
    destruct (hasMeasureOp funcOp).
    { eexists _, _. repeat split. }
    destruct Hc as [Hc | [Hc | Hc]]; discriminate.
Qed.

End PassFacts.

Lemma createAdjointVariantOf_unsupported_witness :
  exists msg st',
    createAdjointVariantOf Samples.hasCallOp Samples.hasMeasureOp
      Samples.hasCharacteristic Samples.isGate Samples.isHermitian
      Samples.isGate Samples.kernelWithCall "caller.adj"
      (mkPassState [Samples.kernelK; Samples.kernelWithCall] [] false 1000) =
    Some (None, st') /\
    diagnostics st' = [] ++ [msg] /\
    passFailed st' = true /\
    module st' = [Samples.kernelK; Samples.kernelWithCall] /\
    lookupSymbol (module st') "caller.adj" = None.
Proof.
  apply (createAdjointVariantOf_unsupported Samples.hasCallOp
           Samples.hasMeasureOp Samples.hasCharacteristic Samples.isGate
           Samples.isHermitian Samples.isGate Samples.kernelWithCall
           "caller.adj"
           (mkPassState [Samples.kernelK; Samples.kernelWithCall] [] false
              1000)).
  right. split; [reflexivity | left; reflexivity].
Defined.

(** ** The loop reversal engine (claims C1 and C2) *)

Lemma bld_bind_inv {A B : Type} (m : Builder A) (k : A -> Builder B)
  (n : nat) (r : B * nat) :
  Bld.bind m k n = Some r ->
  exists a n1, m n = Some (a, n1) /\ k a n1 = Some r.
Proof.
  unfold Bld.bind. destruct (m n) as [[a n1]|]; [|discriminate].
  intros H. now exists a, n1.
Qed.

Lemma bld_lift_inv {A : Type} (m : option A) (n : nat) (a : A) (n' : nat) :
  Bld.lift m n = Some (a, n') -> m = Some a /\ n' = n.
Proof.
  unfold Bld.lift. destruct m; [|discriminate]. intros H. now inv H.
Qed.

Lemma bld_check_inv (b : bool) (n : nat) (u : unit) (n' : nat) :
  Bld.check b n = Some (u, n') -> b = true /\ n' = n.
Proof.
  unfold Bld.check. destruct b; [|discriminate]. intros H. now inv H.
Qed.

(** Steps through the next bind of a builder computation in [H]. *)
Tactic Notation "bld_bind" hyp(H) ident(x) ident(n) ident(Hx) :=
  apply bld_bind_inv in H; destruct H as (x & n & Hx & H).
Tactic Notation "bld_lift" hyp(H) ident(x) ident(Hx) :=
  let n := fresh "n" in
  let E := fresh "E" in
  apply bld_bind_inv in H; destruct H as (x & n & Hx & H);
  apply bld_lift_inv in Hx; destruct Hx as [Hx E]; subst n.
Tactic Notation "bld_check" hyp(H) ident(Hx) :=
  let n := fresh "n" in
  let u := fresh "u" in
  let E := fresh "E" in
  apply bld_bind_inv in H; destruct H as (u & n & Hx & H);
  apply bld_check_inv in Hx; destruct Hx as [Hx E]; subst n.

(** The arithmetic emitted in front of the new loop, read as expressions. *)
Lemma emitTripArith_exprs (ins : nat) (loop : Operation) (p : LoopParts)
  (n : nat) (ops : list Operation) (t : TripArith) (n' : nat) :
  emitTripArith ins loop p n = Some ((ops, t), n') ->
  exists pred,
    getPredicate (cmpOp p) = Some pred /\
    exprOf (zero t) = EConst 0 /\
    exprOf (newStepVal t) =
      signedStepExpr (stepIsAnAddOp p) (exprOf (clonedStepVal t)) /\
    exprOf (iters t) =
      tripCountExpr pred (exprOf (initialValue p)) (exprOf (newTermVal t))
        (exprOf (newStepVal t)) /\
    exprOf (newInitVal t) =
      newStartExpr (exprOf (iters t)) (exprOf (initialValue p))
        (exprOf (newStepVal t)).
Proof.
  unfold emitTripArith. intros H.
  bld_lift H whileBack Hw. bld_lift H stepBack Hs.
  bld_bind H term n1 Hterm. bld_bind H step n2 Hstep.
  destruct (getPredicate (cmpOp p)) as [pred|] eqn:Hp.
  2:{ destruct (stepIsAnAddOp p); cbn in H; discriminate. }
  exists pred. split; [reflexivity|].
  unfold tripCountExpr, newStartExpr, signedStepExpr.
  destruct (stepIsAnAddOp p), (isInclusive pred) eqn:Hi;
    cbn in H; rewrite Hi in H; cbn in H; inv H; cbn; rewrite ?Hi; auto.
Qed.

Lemma extractLoopParts_shape (ins : nat) (loop : Operation) (n : nat)
  (pre : list Operation) (p : LoopParts) (n' : nat) :
  extractLoopParts ins loop n = Some ((pre, p), n') ->
  hasMonotonicPHIControl loop = Some (inductionIsValue p) /\
  isa "arith.cmpi" (cmpOp p) = true /\
  (if stepIsAnAddOp p then isa "arith.addi" (stepOp p) = true
   else isa "arith.subi" (stepOp p) = true) /\
  (inductionIsValue p = true ->
   nth_error (LoopOp.getInitArgs loop) 0 = Some (initialValue p) /\
   pre = []) /\
  (inductionIsValue p = false ->
   exists iv, inductionVar p = Some iv /\
     initialValue p =
       OpResult (mkOp n "memref.load" [getResult iv 0] []
                   [elementType (getType (getResult iv 0))] [] ins) 0 /\
     pre = defOf (initialValue p)).
Proof.
  unfold extractLoopParts. intros H.
  bld_lift H isValue Hv. bld_lift H whileBack Hw. bld_lift H condOp Hc.
  bld_check H Hic. bld_lift H cond Hcond. bld_lift H cmp Hcmp.
  bld_check H Hicmp. bld_lift H stepBack Hs. bld_lift H pair0 Hp0.
  bld_bind H init n1 Hinit. bld_lift H terminal Hterm.
  bld_lift H trip0 Ht0. inv H. cbn.
  split; [assumption|]. split; [assumption|]. split; [|split].
  - destruct isValue; cbn [negb] in Ht0;
      repeat (cbn [Res.bind negb] in Ht0; bind_inv Ht0);
      cbn [Res.bind] in Ht0; inv Ht0; cbn [fst snd]; assumption.
  - intros ->. bld_lift Hinit a Ha. now inv Hinit.
  - intros ->. bld_lift Hinit iv Hiv. exists iv. split; [assumption|].
    cbn in Hinit. now inv Hinit.
Qed.

Lemma optop_eqb_sym (a b : option Operation) :
  optop_eqb a b = optop_eqb b a.
Proof.
  destruct a, b; cbn; try reflexivity. unfold op_eqb. apply Nat.eqb_sym.
Qed.

Lemma optop_eqb_trans (a b c : option Operation) :
  optop_eqb a b = true -> optop_eqb b c = optop_eqb a c.
Proof.
  destruct a, b, c; cbn; try discriminate; try reflexivity.
  unfold op_eqb. intros H. apply Nat.eqb_eq in H. now rewrite H.
Qed.










Lemma cloneReversedLoop_examples :
  (* for (i = 0; i < 10; i += 1): starts at 9, 10 iterations *)
  Samples.reversedInits (Samples.countedLoop 0 CmpIPredicate.slt 10 "arith.addi" 1) =
    Some [Some 9; Some 10]%Z /\
  (* for (i = 0; i <= 10; i += 2): starts at 10, 6 iterations *)
  Samples.reversedInits (Samples.countedLoop 0 CmpIPredicate.sle 10 "arith.addi" 2) =
    Some [Some 10; Some 6]%Z /\
  (* for (i = 10; i > 0; i -= 1): starts at 1, 10 iterations *)
  Samples.reversedInits (Samples.countedLoop 10 CmpIPredicate.sgt 0 "arith.subi" 1) =
    Some [Some 1; Some 10]%Z /\
  (* for (i = 5; i < 0; i += 1): no iteration *)
  Samples.reversedInits (Samples.countedLoop 5 CmpIPredicate.slt 0 "arith.addi" 1) =
    Some [Some 4; Some 0]%Z.
Proof. repeat split; vm_compute; reflexivity. Qed.

(** The engine is defined on every for-loop of the shape that the front end
    emits, [for (i = init; i pred bound; i = i +/- step)], whatever the
    constants and the predicate, with the induction variable as a value and
    in memory. *)
Lemma cloneReversedLoop_defined_on_for_loops
  (pred : CmpIPredicate.t) (init bound step : Z) (update : string)
  (n : nat) :
  update = "arith.addi" \/ update = "arith.subi" ->
  (isaCountedLoop (Samples.countedLoop init pred bound update step) =
     Some true /\
   exists r,
     cloneReversedLoop 0 (Samples.countedLoop init pred bound update step) n
     = Some r) /\
  (isaCountedLoop (Samples.memoryLoopOf pred bound update step) = Some true /\
   exists r,
     cloneReversedLoop 0 (Samples.memoryLoopOf pred bound update step) n
     = Some r).
Proof.
  intros [-> | ->]; (split; (split; [reflexivity|])); destruct pred;
    eexists; cbv; reflexivity.
Qed.

(** *** The identity supply only grows *)

Lemma monotone_ret {A : Type} (a : A) : monotone (Bld.ret a).
Proof. intros n x n' H. inv H. lia. Qed.

Lemma monotone_lift {A : Type} (m : option A) : monotone (Bld.lift m).
Proof. intros n x n' H. apply bld_lift_inv in H. lia. Qed.

Lemma monotone_check (b : bool) : monotone (Bld.check b).
Proof. intros n x n' H. apply bld_check_inv in H. lia. Qed.

Lemma monotone_create blk name operands attrs tys regions :
  monotone (Bld.create blk name operands attrs tys regions).
Proof. intros n x n' H. inv H. lia. Qed.

Lemma monotone_bind {A B : Type} (m : Builder A) (k : A -> Builder B) :
  monotone m -> (forall a, monotone (k a)) -> monotone (Bld.bind m k).
Proof.
  intros Hm Hk n b n' H. apply bld_bind_inv in H.
  destruct H as (a & n1 & H1 & H2).
  apply Hm in H1. apply Hk in H2. lia.
Qed.

Lemma monotone_if {A : Type} (c : bool) (m1 m2 : Builder A) :
  monotone m1 -> monotone m2 -> monotone (if c then m1 else m2).
Proof. now destruct c. Qed.

Ltac monotone_tac :=
  repeat first
    [ apply monotone_ret | apply monotone_lift | apply monotone_check
    | apply monotone_create | apply monotone_if
    | apply monotone_bind; [|intros ?] ].

Lemma monotone_cloneRootSubexpression (ins block : nat) :
  forall root, monotone (cloneRootSubexpression ins block root).
Proof.
  fix IH 1. intros [a ty | [i nm vs ats tys rs owner] idx].
  - apply monotone_ret.
  - cbn [cloneRootSubexpression].
    apply monotone_if; [|apply monotone_ret].
    apply monotone_bind.
    + induction vs as [|v vs IHvs].
      * apply monotone_ret.
      * apply monotone_bind; [apply IH|]. intros r.
        apply monotone_bind; [exact IHvs|]. intros rest. apply monotone_ret.
    + intros subs. unfold Bld.clone. monotone_tac.
Qed.

Lemma monotone_extractLoopParts (ins : nat) (loop : Operation) :
  monotone (extractLoopParts ins loop).
Proof.
  unfold extractLoopParts, createLoad. monotone_tac.
Qed.

Lemma monotone_emitTripArith (ins : nat) (loop : Operation) (p : LoopParts) :
  monotone (emitTripArith ins loop p).
Proof.
  unfold emitTripArith, createIntConstant, createBinary, createCmpI,
    createSelect.
  monotone_tac; apply monotone_cloneRootSubexpression.
Qed.

(** *** The regions of the reversed loop *)

Lemma back_app_single {A : Type} (l : list A) (x : A) :
  back (l ++ [x]) = Some x.
Proof. unfold back. now rewrite rev_app_distr. Qed.

Lemma back_single {A : Type} (x : A) : back [x] = Some x.
Proof. reflexivity. Qed.

Lemma getArguments_addArgument (a : nat) (ty : Ty) (b : Block) :
  getArguments (addArgument a ty b) = getArguments b ++ [BlockArg a ty].
Proof. unfold getArguments, addArgument. cbn. now rewrite map_app. Qed.

Lemma buildWhileRegion_single (ins : nat) (loop : Operation) (ty : Ty)
  (n : nat) (w : list Operation * Region) (n' : nat) (wb : Block) :
  LoopOp.getWhileRegion loop = [wb] ->
  buildWhileRegion ins loop ty n = Some (w, n') ->
  exists condOp,
    back (blk_ops wb) = Some condOp /\
    isa ConditionOp.name condOp = true /\
    w = ([tripZero ins n ty], [reversedWhileBlock ins n ty wb condOp]) /\
    n' = S (S (S (S n))).
Proof.
  intros Hr H. unfold buildWhileRegion in H. rewrite Hr in H.
  bld_lift H f Hf. bld_bind H a n1 Ha. inv Ha.
  cbn [updFront] in H. bld_lift H block Hb. inv Hb.
  bld_lift H condOp Hc. bld_check H Hi. bld_lift H trip Ht.
  rewrite getArguments_addArgument, back_app_single in Ht. inv Ht.
  cbn in H. inv H. exists condOp. repeat split; assumption.
Qed.

Lemma buildBodyRegion_single (loop : Operation) (ty : Ty) (n : nat)
  (b : Region) (n' : nat) (bb : Block) :
  LoopOp.getBodyRegion loop = [bb] ->
  buildBodyRegion loop ty n = Some (b, n') ->
  b = [reversedBodyBlock n ty bb] /\ n' = S (S n).
Proof.
  intros Hr H. unfold buildBodyRegion in H. rewrite Hr in H.
  bld_lift H f Hf. bld_bind H a n1 Ha. inv Ha.
  cbn [updFront] in H. bld_lift H entry He. inv He.
  bld_lift H lastBlock Hl. inv Hl. bld_lift H term Ht.
  rewrite getArguments_addArgument in H. cbn in H. inv H.
  split; reflexivity.
Qed.

Lemma updBack_nonempty {A : Type} (f : A -> A) (l : list A) :
  l <> [] -> updBack f l <> [].
Proof.
  unfold updBack. intros H E. apply (f_equal (@List.length A)) in E.
  rewrite length_rev in E. destruct (rev l) eqn:El.
  - apply (f_equal (@rev A)) in El. rewrite rev_involutive in El.
    now apply H.
  - cbn in E. discriminate.
Qed.

Lemma buildStepRegion_nonempty (loop : Operation) (p : LoopParts) (ty : Ty)
  (n : nat) (s : Region) (n' : nat) :
  buildStepRegion loop p ty n = Some (s, n') -> s <> [].
Proof.
  unfold buildStepRegion. intros H.
  bld_bind H stepped n1 Hst. bld_lift H f Hf. bld_bind H a n2 Ha.
  bld_lift H entry He. bld_lift H lastBlock Hl. bld_lift H contOp Hc.
  bld_check H Hi. bld_bind H bump n3 Hb. cbn in H.
  destruct (back (getArguments entry)); cbn in H; [|discriminate]. inv H.
  apply updBack_nonempty. destruct stepped; [discriminate|]. discriminate.
Qed.

Lemma isaCountedLoop_true_inv (op : Operation) :
  isaCountedLoop op = Some true ->
  isa LoopOp.name op = true /\
  LoopOp.isPostConditional op = false /\
  LoopOp.hasStep op = true /\
  hasMonotonicControlInduction op = Some true /\
  exists blk term,
    LoopOp.getBodyRegion op = [blk] /\ getTerminator blk = Some term /\
    isa "cc.continue" term = true.
Proof.
  intros H. unfold isaCountedLoop in H.
  destruct (isa LoopOp.name op); [|discriminate].
  destruct (LoopOp.isPostConditional op); [discriminate|].
  destruct (LoopOp.hasStep op); [|discriminate]. cbn [orb negb] in H.
  destruct (LoopOp.getBodyRegion op) as [|blk [|b2 r]]; cbn in H;
    try discriminate.
  destruct (getTerminator blk) as [term|] eqn:Et; cbn in H; [|discriminate].
  destruct (isa "cc.continue" term) eqn:E; cbn in H; [|discriminate].
  repeat split; try assumption. now exists blk, term.
Qed.

Lemma hasMonotonicPHIControl_true_inv (loop : Operation) :
  hasMonotonicPHIControl loop = Some true ->
  exists whileBlock condition a0 r0,
    back (LoopOp.getWhileRegion loop) = Some whileBlock /\
    back (blk_ops whileBlock) = Some condition /\
    isa ConditionOp.name condition = true /\
    nth_error (getArguments whileBlock) 0 = Some a0 /\
    nth_error (ConditionOp.getResults condition) 0 = Some r0 /\
    value_eqb a0 r0 = true.
Proof.
  unfold hasMonotonicPHIControl. intros H.
  destruct (empty (LoopOp.getInitArgs loop) || empty (getResults loop));
    [discriminate|].
  bind_inv H. rename b into whileBlock. bind_inv H. rename o into condition.
  destruct (isa ConditionOp.name condition) eqn:Ei; [|discriminate].
  cbn [negb] in H. bind_inv H. rename v into a0. bind_inv H.
  rename v into r0.
  destruct (value_eqb a0 r0) eqn:Ev; [|discriminate].
  exists whileBlock, condition, a0, r0. auto 10.
Qed.

Lemma getArguments_fresh (b : Block) (n : nat) (a : Value) (ty : Ty) :
  Forall (fun x => fst x < n) (blk_args b) ->
  In a (getArguments b) -> value_eqb a (BlockArg n ty) = false.
Proof.
  unfold getArguments. intros F Hin. apply in_map_iff in Hin.
  destruct Hin as ([x tx] & <- & Hin).
  rewrite Forall_forall in F. apply F in Hin. cbn in *.
  apply Nat.eqb_neq. lia.
Qed.

Lemma back_app_two {A : Type} (l : list A) (x y : A) :
  back (l ++ [x; y]) = Some y.
Proof.
  change (l ++ [x; y]) with (l ++ [x] ++ [y]). rewrite app_assoc.
  apply back_app_single.
Qed.

(** The loop that [cloneReversedLoop] creates, in terms of its regions. *)
Lemma cloneReversedLoop_inv (ins : nat) (loop : Operation) (n : nat)
  (emitted : list Operation) (newLoop : Operation) (n' : nat) :
  cloneReversedLoop ins loop n = Some ((emitted, newLoop), n') ->
  exists pre p n1 arith t n2 st n3 w n4 b n5 s n6,
    extractLoopParts ins loop n = Some ((pre, p), n1) /\
    emitTripArith ins loop p n1 = Some ((arith, t), n2) /\
    n <= n3 /\
    buildWhileRegion ins loop (getType (iters t)) n3 = Some (w, n4) /\
    buildBodyRegion loop (getType (iters t)) n4 = Some (b, n5) /\
    buildStepRegion loop p (getType (iters t)) n5 = Some (s, n6) /\
    emitted = pre ++ arith ++ st ++ fst w /\
    newLoop =
      mkOp n6 LoopOp.name
        ((if inductionIsValue p then [newInitVal t] else []) ++ [iters t])
        [("post_condition", ABool false)]
        (map getType
           ((if inductionIsValue p then [newInitVal t] else []) ++ [iters t]))
        [snd w; b; s] ins.
Proof.
  intros H. unfold cloneReversedLoop in H.
  bld_bind H ex0 n1 Hex. destruct ex0 as [pre p]. cbn [snd fst] in H.
  bld_bind H ar n2 Har. destruct ar as [arith t]. cbn [snd fst] in H.
  bld_bind H st n3 Hst. bld_bind H w n4 Hw. bld_bind H b n5 Hb.
  bld_bind H s n6 Hs. cbn in H. inv H.
  assert (Hm : monotone
            (if inductionIsValue p then Bld.ret []
             else
               iv <~ Bld.lift (inductionVar p) ;;
               s <~ createStore ins (newInitVal t) (getResult iv 0) ;;
               Bld.ret [s]))
    by (unfold createStore; monotone_tac).
  pose proof (monotone_extractLoopParts _ _ _ Hex).
  pose proof (monotone_emitTripArith _ _ _ _ Har).
  pose proof (Hm _ _ _ Hst).
  exists pre, p, n1, arith, t, n2, st, n3, w, n4, b, n5, s, n6.
  repeat split; try assumption. lia.
Qed.

Lemma findInductionStore_nil (l : list Operation) :
  findInductionStore [] l = None \/
  findInductionStore [] l = Some (None, None).
Proof.
  induction l as [|op l IH]; cbn [findInductionStore]; [now right|].
  destruct (isa "memref.store" op); [|exact IH].
  destruct (StoreOp.getMemRef op) as [m|]; cbn [Res.bind]; [|now left].
  unfold findOp. destruct (getDefiningOp m); exact IH.
Qed.

(** The comparison of the trip counter with zero reads no memory cell. *)
Lemma populateComparisonTemps_tripTest (ins n : nat) (ty : Ty)
  (wb b : Block) :
  blk_id b = blk_id wb ->
  populateComparisonTemps (tripTest ins n ty wb) b = Some [].
Proof.
  intros E. unfold populateComparisonTemps. rewrite E. cbn.
  destruct (Nat.eqb ins (blk_id wb)); reflexivity.
Qed.

(** A loop that is not in the value domain and whose comparison reads no
    memory cell has no induction variable: [inductionVar] is null and the
    load of the initial value dereferences it. *)
Lemma extractLoopParts_no_cell (ins : nat) (loop : Operation) (m : nat)
  (whileBack : Block) (condOp : Operation) (cond : Value) (cmp : Operation) :
  hasMonotonicPHIControl loop = Some false ->
  back (LoopOp.getWhileRegion loop) = Some whileBack ->
  back (blk_ops whileBack) = Some condOp ->
  ConditionOp.getCondition condOp = Some cond ->
  getDefiningOp cond = Some cmp ->
  populateComparisonTemps cmp whileBack = Some [] ->
  extractLoopParts ins loop m = None.
Proof.
  intros Hphi Hw Hc Hcond Hcmp Htemps.
  destruct (extractLoopParts ins loop m) as [[[pre p] m']|] eqn:H;
    [exfalso|reflexivity].
  unfold extractLoopParts in H. rewrite Hphi, Hw in H.
  bld_lift H isValue Hv. inv Hv. bld_lift H wb' Hwb. inv Hwb.
  rewrite Hc in H. bld_lift H c Hc'. inv Hc'. bld_check H Hic.
  rewrite Hcond in H. bld_lift H cd Hcd. inv Hcd.
  rewrite Hcmp in H. bld_lift H cm Hcm. inv Hcm. bld_check H Hicmp.
  bld_lift H stepBack Hs. cbn [negb] in H. rewrite Htemps in H.
  cbn [Res.bind] in H. bld_lift H pair0 Hp0.
  destruct (findInductionStore_nil (rev (blk_ops stepBack))) as [E|E];
    rewrite E in Hp0; [discriminate|]. inv Hp0.
  cbn [fst] in H. bld_bind H init n1 Hinit. bld_lift Hinit iv Hiv.
  discriminate.
Qed.

(** When a counted loop in the value domain is reversed, the new loop
    carries the trip counter after the induction value and its condition
    tests the trip counter only: neither matcher accepts the new loop, the
    recognizer rejects it, and the engine is undefined on it. *)
Lemma reversed_value_loop_rejected
  (ins : nat) (loop : Operation) (n : nat) (emitted : list Operation)
  (newLoop : Operation) (n' : nat) (whileBlock : Block) :
  isaCountedLoop loop = Some true ->
  hasMonotonicPHIControl loop = Some true ->
  LoopOp.getWhileRegion loop = [whileBlock] ->
  Forall (fun a => fst a < n) (blk_args whileBlock) ->
  cloneReversedLoop ins loop n = Some ((emitted, newLoop), n') ->
  hasMonotonicLCV newLoop = Some false /\
  hasMonotonicPHIControl newLoop = Some false /\
  isaCountedLoop newLoop = Some false /\
  forall ins' m, cloneReversedLoop ins' newLoop m = None.
Proof.
  intros Hcounted Hphi Hwr Hfresh H.
  apply cloneReversedLoop_inv in H.
  destruct H as (pre & p & n1 & arith & t & n2 & st & n3 & w & n4 & b & n5 &
                 s & n6 & Hex & Har & Hle & Hw & Hb & Hs & -> & ->).
  destruct (isaCountedLoop_true_inv _ Hcounted)
    as (_ & _ & _ & _ & bb & term & Hbr & _ & _).
  destruct (buildWhileRegion_single _ _ _ _ Hwr Hw)
    as (condOp & Hcond & Hic & -> & ->).
  destruct (buildBodyRegion_single _ _ _ Hbr Hb) as [-> ->].
  apply buildStepRegion_nonempty in Hs.
  destruct (hasMonotonicPHIControl_true_inv _ Hphi)
    as (wb' & cn' & a0 & r0 & Hwb & Hcn & _ & Ha0 & Hr0 & Heq).
  rewrite Hwr in Hwb. inv Hwb. rewrite Hcond in Hcn. inv Hcn.
  cbn [snd].
  set (L := mkOp n6 LoopOp.name _ _ _ _ _).
  assert (Hlcv : hasMonotonicLCV L = Some false).
  { unfold hasMonotonicLCV, L. now destruct (inductionIsValue p). }
  assert (Hphi' : hasMonotonicPHIControl L = Some false).
  { unfold hasMonotonicPHIControl.
    replace (empty (LoopOp.getInitArgs L) || empty (getResults L))
      with false by (unfold L; now destruct (inductionIsValue p)).
    unfold L at 1. cbn [LoopOp.getWhileRegion getRegions nth].
    rewrite back_single.
    cbn [Res.bind]. unfold reversedWhileBlock at 1. cbn [blk_ops].
    rewrite back_app_two. cbn [Res.bind].
    change (isa ConditionOp.name (mkOp _ ConditionOp.name _ _ _ _ _))
      with true. cbn [negb].
    unfold reversedWhileBlock at 1, getArguments at 1. cbn [blk_args].
    rewrite map_app. fold (getArguments wb').
    rewrite nth_error_app1
      by (apply nth_error_Some; rewrite Ha0; discriminate).
    rewrite Ha0. cbn [Res.bind].
    unfold ConditionOp.getResults at 1. cbn [getOperands tl].
    rewrite nth_error_app1
      by (apply nth_error_Some; rewrite Hr0; discriminate).
    rewrite Hr0. cbn [Res.bind].
    rewrite Heq. cbn [negb].
    cbn [ConditionOp.getCondition getOperands nth_error Res.bind
         getDefiningOp].
    unfold tripTest at 1. cbn [getOperands findValue existsb].
    rewrite (getArguments_fresh wb' (n := n3) a0 (getType (iters t))).
    - apply nth_error_In in Ha0. unfold getArguments in Ha0.
      apply in_map_iff in Ha0. destruct Ha0 as (x & <- & _). reflexivity.
    - eapply Forall_impl; [|exact Hfresh]. cbn. intros; lia.
    - eapply nth_error_In. exact Ha0. }
  split; [assumption|]. split; [assumption|]. split.
  2:{ intros ins' m. unfold cloneReversedLoop, Bld.bind at 1.
      erewrite extractLoopParts_no_cell; [reflexivity|exact Hphi'| | | | |].
      - reflexivity.
      - unfold reversedWhileBlock at 1. cbn [blk_ops]. apply back_app_two.
      - reflexivity.
      - reflexivity.
      - now apply populateComparisonTemps_tripTest. }
  unfold isaCountedLoop.
  replace (isa LoopOp.name L) with true by reflexivity.
  replace (LoopOp.isPostConditional L || negb (LoopOp.hasStep L)) with false
    by (unfold LoopOp.hasStep, L; cbn; now destruct s).
  replace (LoopOp.getBodyRegion L)
    with [reversedBodyBlock (S (S (S (S n3)))) (getType (iters t)) bb]
    by reflexivity.
  cbn [empty hasOneBlock negb andb front hd_error Res.bind].
  unfold getTerminator, reversedBodyBlock at 1. cbn [blk_ops].
  rewrite back_app_single. cbn [Res.bind].
  change (isa "cc.continue" (mkOp _ "cc.continue" _ _ _ _ _)) with true.
  cbn [negb]. unfold hasMonotonicControlInduction.
  rewrite Hlcv. cbn [Res.bind]. exact Hphi'.
Qed.

(** ** The reversal of the quantum operations (claim C3) *)

Lemma value_eqb_refl (v : Value) : value_eqb v v = true.
Proof.
  destruct v; cbn; unfold op_eqb; now rewrite ?Nat.eqb_refl.
Qed.






Lemma getAttr_app_fresh (n : string) (a : Attr) (l : list (string * Attr)) :
  getAttr n l = None -> getAttr n (l ++ [(n, a)]) = Some a.
Proof.
  induction l as [|[k x] l IH]; cbn.
  - now rewrite String.eqb_refl.
  - destruct (String.eqb k n); [discriminate | exact IH].
Qed.



Lemma map_lookupOrDefault_nil (l : list Value) :
  map (lookupOrDefault []) l = l.
Proof. induction l as [|v l IH]; cbn; [reflexivity | now rewrite IH]. Qed.

Lemma same_id_same_op (l : list Operation) (x y : Operation) :
  NoDup (map op_id l) -> In x l -> In y l -> op_id x = op_id y -> x = y.
Proof.
  induction l as [|a l IH]; intros Hnd Hx Hy E; [destruct Hx|].
  inv Hnd. destruct Hx as [->|Hx], Hy as [->|Hy]; try reflexivity.
  - exfalso. apply H1. rewrite E. now apply in_map.
  - exfalso. apply H1. rewrite <- E. now apply in_map.
  - now apply IH.
Qed.

Lemma filter_filter {A : Type} (f g : A -> bool) (l : list A) :
  filter f (filter g l) = filter (fun x => g x && f x) l.
Proof.
  induction l as [|a l IH]; cbn; [reflexivity|].
  destruct (g a); cbn; [destruct (f a)|]; now rewrite IH.
Qed.

Lemma filter_all {A : Type} (f : A -> bool) (l : list A) :
  Forall (fun x => f x = true) l -> filter f l = l.
Proof.
  induction 1 as [|a l Ha _ IH]; cbn; [reflexivity|]. now rewrite Ha, IH.
Qed.

Lemma flat_map_single {A : Type} (f : A -> list A) (l : list A) :
  Forall (fun x => f x = [x]) l -> flat_map f l = l.
Proof.
  induction 1 as [|a l Ha _ IH]; cbn; [reflexivity|]. now rewrite Ha, IH.
Qed.


Section ReversalFacts.

Variable hasQuantum : Operation -> bool.
Variable hasTraitHermitian : Operation -> bool.
Variable isaOperatorInterface : Operation -> bool.

Local Notation invertQuantumOp' :=
  (invertQuantumOp hasTraitHermitian isaOperatorInterface).
Local Notation selfAdjointGate' :=
  (selfAdjointGate hasTraitHermitian isaOperatorInterface).





(** A quantum operation without parameters that is its own adjoint is moved
    as it is, and nothing is created. *)
Lemma invertQuantumOp_selfAdjoint (op : Operation) (n : nat) :
  selfAdjointGate' op ->
  invertQuantumOp' (getBlock op) op n = Some ([op], n).
Proof.
  intros (_ & _ & _ & _ & (rest & Hs) & Hh & Hi & Hr).
  unfold invertQuantumOp, Bld.bind, Bld.lift, Bld.check.
  rewrite Hs. cbn [nth_error Z.leb Z.compare andb Z.to_nat firstn].
  replace (Z.leb 0 (Z.of_nat (List.length (getOperands op)))) with true
    by (symmetry; apply Z.leb_le; lia).
  cbn [negateParameters Bld.ret fst snd empty negb].
  rewrite Hi, Hh. cbn [negb andb]. rewrite map_lookupOrDefault_nil.
  replace (mkOp (op_id op) (op_name op) (getOperands op) (getAttrs op)
             (getResultTypes op) (getRegions op) (getBlock op)) with op
    by now destruct op.
  rewrite Hr. reflexivity.
Qed.

Lemma eraseOp_spec (op : Operation) (bid : nat) (args : list (nat * Ty))
  (K D : list Operation) (term : Operation) :
  Forall (fun d => op_id d <> op_id op) (D ++ [term]) ->
  eraseOp op (mkBlock bid args (K ++ D ++ [term])) =
  mkBlock bid args (filter (fun x => negb (op_eqb x op)) K ++ D ++ [term]).
Proof.
  intros H. unfold eraseOp, withBlockOps. cbn. f_equal.
  rewrite filter_app. f_equal. apply filter_all.
  eapply Forall_impl; [|exact H]. cbn. intros d Hd.
  unfold op_eqb. apply negb_true_iff. now apply Nat.eqb_neq.
Qed.

Lemma insertBefore_spec (term : Operation) (new : list Operation)
  (bid : nat) (args : list (nat * Ty)) (K : list Operation) :
  Forall (fun x => op_id x <> op_id term) K ->
  insertBefore term new (mkBlock bid args (K ++ [term])) =
  mkBlock bid args (K ++ new ++ [term]).
Proof.
  intros H. unfold insertBefore, withBlockOps. cbn. f_equal.
  rewrite flat_map_app. f_equal.
  - apply flat_map_single. eapply Forall_impl; [|exact H]. cbn.
    intros x Hx. unfold op_eqb.
    now replace (Nat.eqb (op_id x) (op_id term)) with false
      by (symmetry; now apply Nat.eqb_neq).
  - cbn. unfold op_eqb. now rewrite Nat.eqb_refl, app_nil_r.
Qed.

Lemma reverseLoop_selfAdjoint
  (recurse : Block -> Operation -> list Operation -> Builder Block)
  (term : Operation) (bid : nat) (args : list (nat * Ty)) (n : nat) :
  forall (l K D : list Operation),
    Forall selfAdjointGate' l ->
    Forall (fun op => getBlock op = bid) l ->
    NoDup (map op_id l) ->
    Forall (fun x => op_id x <> op_id term) (K ++ D ++ l) ->
    Forall (fun d => ~ In (op_id d) (map op_id l)) D ->
    reverseLoop hasQuantum hasTraitHermitian isaOperatorInterface recurse
      term l (mkBlock bid args (K ++ D ++ [term])) n =
    Some (mkBlock bid args
            (filter (fun x => negb (existsb (op_eqb x) l)) K ++ D ++ l ++
             [term]), n).
Proof.
  induction l as [|op l IH]; intros K D Hg Hb Hnd Hterm HD.
  - cbn. rewrite filter_all; [reflexivity|]. now apply Forall_forall.
  - apply Forall_cons_iff in Hg. destruct Hg as [Hgate Hg].
    apply Forall_cons_iff in Hb. destruct Hb as [Hbo Hb].
    cbn [map] in Hnd. apply NoDup_cons_iff in Hnd.
    destruct Hnd as [Hfresh Hnd].
    pose proof Hgate as (Hif & Hfor & Hloop & Hscope & _).
    cbn [reverseLoop]. rewrite Hif, Hfor, Hloop, Hscope.
    cbn [blk_id]. unfold Bld.bind.
    rewrite <- Hbo.
    rewrite (invertQuantumOp_selfAdjoint n Hgate). rewrite Hbo.
    rewrite eraseOp_spec.
    2:{ apply Forall_app. split.
        - eapply Forall_impl; [|exact HD]. cbn. intros d Hd E.
          apply Hd. now left.
        - constructor; [|constructor].
          rewrite !Forall_app in Hterm. destruct Hterm as (_ & _ & Ht).
          inv Ht. congruence. }
    rewrite app_assoc, insertBefore_spec.
    2:{ rewrite !Forall_app in Hterm. destruct Hterm as (HK & HDt & _).
        apply Forall_app. split; [|assumption].
        clear - HK. induction HK as [|x K Hx _ IHK]; cbn;
          [constructor|]. destruct (negb (op_eqb x op)); auto. }
    rewrite <- !app_assoc.
    replace (D ++ [op] ++ [term]) with ((D ++ [op]) ++ [term])
      by now rewrite <- app_assoc.
    rewrite IH; try assumption.
    + rewrite filter_filter. rewrite <- !app_assoc. cbn [app].
      do 4 f_equal. apply filter_ext. intros x. cbn [existsb].
      rewrite negb_orb. reflexivity.
    + rewrite !Forall_app in Hterm. destruct Hterm as (HK & HDt & Hl).
      inv Hl. rewrite !Forall_app. repeat split; try assumption.
      * clear - HK. induction HK as [|x K Hx _ IHK]; cbn;
          [constructor|]. destruct (negb (op_eqb x op)); auto.
      * constructor; [assumption | constructor].
    + apply Forall_app. split.
      * eapply Forall_impl; [|exact HD]. cbn. intros d Hd E.
        apply Hd. now right.
      * constructor; [assumption | constructor].
Qed.

Lemma NoDup_map_filter {A B : Type} (f : A -> B) (g : A -> bool)
  (l : list A) :
  NoDup (map f l) -> NoDup (map f (filter g l)).
Proof.
  induction l as [|a l IH]; cbn; intros H; [constructor|].
  inv H. destruct (g a); cbn; auto. constructor; auto.
  intros Hin. apply H2. apply in_map_iff in Hin.
  destruct Hin as (x & E & Hx). apply filter_In in Hx.
  apply in_map_iff. exists x. tauto.
Qed.

Lemma existsb_op_eqb_filter (l : list Operation) (x : Operation) :
  NoDup (map op_id l) -> In x l ->
  existsb (op_eqb x) (rev (filter hasQuantum l)) = hasQuantum x.
Proof.
  intros Hnd Hx. destruct (hasQuantum x) eqn:Hq.
  - apply existsb_exists. exists x. split.
    + apply -> in_rev. apply filter_In. tauto.
    + unfold op_eqb. apply Nat.eqb_refl.
  - apply not_true_is_false. intros E. apply existsb_exists in E.
    destruct E as (y & Hy & Ey). apply in_rev in Hy.
    apply filter_In in Hy. destruct Hy as [Hy Hqy].
    unfold op_eqb in Ey. apply Nat.eqb_eq in Ey.
    rewrite (same_id_same_op l x y Hnd Hx Hy Ey) in Hq. congruence.
Qed.

Variable hasCallOp : Operation -> bool.
Variable hasMeasureOp : Operation -> bool.
Variable hasCharacteristic : (Operation -> bool) -> Operation -> bool.

Local Notation primitiveGate' := (primitiveGate isaOperatorInterface).
Local Notation reverse :=
  (reverseTheOpsInTheBlock hasQuantum hasTraitHermitian isaOperatorInterface).
Local Notation classical := (fun op => negb (hasQuantum op)).
Local Notation createAdjointVariantOf' :=
  (createAdjointVariantOf hasCallOp hasMeasureOp hasCharacteristic hasQuantum
     hasTraitHermitian isaOperatorInterface).
Local Notation passesChecks' :=
  (passesChecks hasCallOp hasMeasureOp hasCharacteristic).









End ReversalFacts.


(** ** Induction over the operations nested in an operation *)

Lemma Operation_nested_ind (P : Operation -> Prop) :
  (forall i n vs a t rs b,
     Forall (Forall (fun blk => Forall P (blk_ops blk))) rs ->
     P (mkOp i n vs a t rs b)) ->
  forall o, P o.
Proof.
  intros IH. fix rec 1. intros [i n vs a t rs b]. apply IH.
  induction rs as [|r rs IHrs]; constructor; [|exact IHrs].
  induction r as [|[bi args ops] r IHr]; constructor; [|exact IHr].
  cbn. induction ops as [|o ops IHops]; constructor; [apply rec | exact IHops].
Qed.

Lemma walk_unfold (op : Operation) :
  walk op = walkRegions (getRegions op) ++ [op].
Proof.
  destruct op as [i n vs a t rs b]. cbn [walk getRegions]. f_equal.
  unfold walkRegions, walkRegion, walkBlock, walkOps.
  induction rs as [|r rs IH]; [reflexivity|]. cbn [flat_map]. f_equal; [|exact IH].
  clear. induction r as [|[bi args ops] r IH]; [reflexivity|].
  cbn [flat_map blk_ops]. now rewrite IH.
Qed.

(** ** The control variant (claim C8) *)

Lemma getAttr_setAttrL_same (n : string) (a : Attr)
  (l : list (string * Attr)) :
  getAttr n (setAttrL n a l) = Some a.
Proof.
  unfold setAttrL. destruct (getAttr n l) eqn:E.
  - induction l as [|[k x] l IH]; [discriminate|]. cbn in *.
    destruct (String.eqb k n) eqn:Ek; cbn.
    + now rewrite String.eqb_refl.
    + rewrite Ek. now apply IH.
  - now apply getAttr_app_fresh.
Qed.

Lemma getAttr_setAttrL_other (k n : string) (a : Attr)
  (l : list (string * Attr)) :
  k <> n -> getAttr k (setAttrL n a l) = getAttr k l.
Proof.
  intros Hk. unfold setAttrL. destruct (getAttr n l) eqn:E.
  - clear E. induction l as [|[k' x] l IH]; [reflexivity|]. cbn.
    destruct (String.eqb k' n) eqn:Ek; cbn.
    + apply String.eqb_eq in Ek. subst k'.
      replace (String.eqb n k) with false
        by (symmetry; apply String.eqb_neq; congruence).
      exact IH.
    + destruct (String.eqb k' k); [reflexivity | exact IH].
  - clear E. induction l as [|[k' x] l IH]; cbn.
    + now replace (String.eqb n k) with false
        by (symmetry; apply String.eqb_neq; congruence).
    + destruct (String.eqb k' k); [reflexivity | exact IH].
Qed.

Lemma controlled_segments (newCond : Value) (o o' : Operation)
  (a0 a1 a2 : Z) (rest : list Z) :
  getSegmentSizes o = Some (a0 :: a1 :: a2 :: rest) ->
  getSegmentSizes o' = Some [a0; (a1 + 1)%Z; a2] ->
  (0 <= a0 <= Z.of_nat (List.length (getOperands o)))%Z ->
  getOperands o' =
    firstn (Z.to_nat a0) (getOperands o) ++ newCond ::
    skipn (Z.to_nat a0) (getOperands o) ->
  (0 <= a1)%Z ->
  getSegment 0 o' = getSegment 0 o /\
  getSegment 1 o' = newCond :: getSegment 1 o /\
  getSegment 2 o' = getSegment 2 o.
Proof.
  intros Hs Hs' Ha Hops Ha1. unfold getSegment. rewrite Hs, Hs', Hops.
  cbn [nth firstn fold_right].
  assert (Hlen : List.length (firstn (Z.to_nat a0) (getOperands o)) =
                 Z.to_nat a0) by (rewrite length_firstn; lia).
  repeat split.
  - cbn [Z.to_nat skipn]. rewrite firstn_app, Hlen, Nat.sub_diag.
    cbn [firstn]. rewrite app_nil_r, firstn_firstn. now rewrite Nat.min_id.
  - rewrite !Z.add_0_r.
    rewrite skipn_app, Hlen, Nat.sub_diag. cbn [skipn].
    rewrite skipn_all2 by lia. cbn [app].
    replace (Z.to_nat (a1 + 1)) with (S (Z.to_nat a1)) by lia.
    reflexivity.
  - rewrite !Z.add_0_r.
    replace (Z.to_nat (a0 + (a1 + 1))) with (Z.to_nat a0 + S (Z.to_nat a1))
      by lia.
    replace (Z.to_nat (a0 + a1)) with (Z.to_nat a0 + Z.to_nat a1) by lia.
    rewrite skipn_app, Hlen.
    replace (Z.to_nat a0 + S (Z.to_nat a1) - Z.to_nat a0)
      with (S (Z.to_nat a1)) by lia.
    rewrite skipn_all2 by (rewrite Hlen; lia). cbn [app skipn].
    now rewrite skipn_skipn, Nat.add_comm.
Qed.

Section ControlFacts.

Variable hasTraitQuantumGate : Operation -> bool.

Local Notation walkAddControl' := (walkAddControl hasTraitQuantumGate).
Local Notation controlledBy' := (controlledBy hasTraitQuantumGate).

Lemma walkAddControl_unfold (newCond : Value) (op : Operation) :
  walkAddControl' newCond op =
  (rs' <~ walkAddControlRegions hasTraitQuantumGate newCond (getRegions op) ;;
   let op' := withRegions op rs' in
   if hasTraitQuantumGate op then addControlOperand newCond op'
   else Bld.ret op').
Proof. destruct op. reflexivity. Qed.

Lemma addControlOperand_spec (newCond : Value) (op : Operation) (n : nat)
  (op' : Operation) (n' : nat) :
  addControlOperand newCond op n = Some (op', n') ->
  getRegions op' = [] /\
  op_name op' = op_name op /\ getResultTypes op' = getResultTypes op /\
  exists a0 a1 a2 rest,
    getSegmentSizes op = Some (a0 :: a1 :: a2 :: rest) /\
    (0 <= a0 <= Z.of_nat (List.length (getOperands op)))%Z /\
    getOperands op' =
      firstn (Z.to_nat a0) (getOperands op) ++ newCond ::
      skipn (Z.to_nat a0) (getOperands op) /\
    getSegmentSizes op' = Some [a0; (a1 + 1)%Z; a2] /\
    (forall k, k <> segmentSizes ->
               getAttr k (getAttrs op') = getAttr k (getAttrs op)).
Proof.
  unfold addControlOperand. intros H.
  bld_lift H arrAttr Hs. bld_lift H a0 H0. bld_lift H a1 H1.
  bld_lift H a2 H2. bld_check H Hc. inv H.
  destruct arrAttr as [|x0 [|x1 [|x2 rest]]]; try discriminate.
  inv H0. inv H1. inv H2.
  apply andb_true_iff in Hc. destruct Hc as [Hc1 Hc2].
  apply Z.leb_le in Hc1, Hc2.
  repeat (split; [reflexivity|]).
  exists a0, a1, a2, rest. split; [assumption|]. split; [lia|].
  split; [reflexivity|]. split.
  - unfold getSegmentSizes. cbn [getAttrs].
    now rewrite getAttr_setAttrL_same.
  - intros k Hk. cbn [getAttrs]. now apply getAttr_setAttrL_other.
Qed.

Lemma controlledBy_gate (newCond : Value) (o : Operation) (rs : list Region)
  (n : nat) (o' : Operation) (n' : nat) :
  hasTraitQuantumGate o = true ->
  addControlOperand newCond (withRegions o rs) n = Some (o', n') ->
  controlledBy' newCond o o' /\ getRegions o' = [].
Proof.
  intros Ht H. apply addControlOperand_spec in H.
  destruct H as (Hr & Hn & Hty & a0 & a1 & a2 & rest & Hs & Ha & Ho & Hs' & Hk).
  assert (E1 : getOperands (withRegions o rs) = getOperands o)
    by now destruct o.
  assert (E2 : getAttrs (withRegions o rs) = getAttrs o) by now destruct o.
  assert (E3 : getSegmentSizes (withRegions o rs) = getSegmentSizes o)
    by now destruct o.
  rewrite E1 in *. rewrite E2 in *. rewrite E3 in *.
  split; [|assumption]. unfold controlledBy. rewrite Ht.
  split; [destruct o; exact Hn|]. split; [destruct o; exact Hty|].
  exists a0, a1, a2, rest. repeat (split; [assumption|]).
  intros Ha1. eapply controlled_segments; eassumption.
Qed.

Lemma controlledBy_other (newCond : Value) (o : Operation) (rs : list Region) :
  hasTraitQuantumGate o = false ->
  controlledBy' newCond o (withRegions o rs).
Proof.
  intros Ht. unfold controlledBy. rewrite Ht. now destruct o.
Qed.

(** The walk keeps the order of the operations; each operation of the
    kernel has its counterpart in the variant. *)
Local Notation gatesAreLeaves :=
  (Forall (fun o => hasTraitQuantumGate o = true -> getRegions o = [])).
Local Notation walkPreserved newCond :=
  (fun op =>
     gatesAreLeaves (walk op) ->
     forall n op' n',
       walkAddControl' newCond op n = Some (op', n') ->
       Forall2 (controlledBy' newCond) (walk op) (walk op')).

Lemma walkAddControlOps_walk (newCond : Value) (ops : list Operation) :
  Forall (walkPreserved newCond) ops ->
  gatesAreLeaves (walkOps ops) ->
  forall n ops' n',
    walkAddControlOps hasTraitQuantumGate newCond ops n = Some (ops', n') ->
    Forall2 (controlledBy' newCond) (walkOps ops) (walkOps ops').
Proof.
  unfold walkOps.
  induction ops as [|o ops IH]; intros HP Hg n ops' n' H.
  - inv H. constructor.
  - cbn [walkAddControlOps] in H.
    bld_bind H o' n1 Ho. bld_bind H rest n2 Hr. inv H.
    apply Forall_cons_iff in HP. destruct HP as [HPo HP].
    cbn [flat_map] in Hg |- *. apply Forall_app in Hg.
    destruct Hg as [Hgo Hgs]. apply Forall2_app.
    + eapply HPo; eassumption.
    + eapply IH; eassumption.
Qed.

Lemma walkAddControlBlocks_walk (newCond : Value) (r : Region) :
  Forall (fun blk => Forall (walkPreserved newCond) (blk_ops blk)) r ->
  gatesAreLeaves (walkRegion r) ->
  forall n r' n',
    walkAddControlBlocks hasTraitQuantumGate newCond r n = Some (r', n') ->
    Forall2 (controlledBy' newCond) (walkRegion r) (walkRegion r') /\
    map blk_id r' = map blk_id r /\ map blk_args r' = map blk_args r.
Proof.
  unfold walkRegion.
  induction r as [|[bi args ops] r IH]; intros HP Hg n r' n' H.
  - inv H. repeat split. constructor.
  - cbn [walkAddControlBlocks] in H.
    bld_bind H ops' n1 Ho. bld_bind H rest n2 Hr. inv H.
    apply Forall_cons_iff in HP. destruct HP as [HPo HP].
    cbn [flat_map] in Hg |- *. apply Forall_app in Hg.
    destruct Hg as [Hgo Hgs].
    destruct (IH HP Hgs _ _ _ Hr) as (IH1 & IH2 & IH3).
    split; [|cbn; now rewrite IH2, IH3].
    apply Forall2_app; [|assumption].
    eapply walkAddControlOps_walk; eassumption.
Qed.

Lemma walkAddControlRegions_walk (newCond : Value) (rs : list Region) :
  Forall (Forall (fun blk => Forall (walkPreserved newCond) (blk_ops blk)))
         rs ->
  gatesAreLeaves (walkRegions rs) ->
  forall n rs' n',
    walkAddControlRegions hasTraitQuantumGate newCond rs n = Some (rs', n') ->
    Forall2 (controlledBy' newCond) (walkRegions rs) (walkRegions rs') /\
    map (map blk_args) rs' = map (map blk_args) rs /\
    List.length rs' = List.length rs.
Proof.
  unfold walkRegions.
  induction rs as [|r rs IH]; intros HP Hg n rs' n' H.
  - inv H. repeat split. constructor.
  - cbn [walkAddControlRegions] in H.
    bld_bind H r' n1 Ho. bld_bind H rest n2 Hr. inv H.
    apply Forall_cons_iff in HP. destruct HP as [HPo HP].
    cbn [flat_map] in Hg |- *. apply Forall_app in Hg.
    destruct Hg as [Hgo Hgs].
    destruct (IH HP Hgs _ _ _ Hr) as (IH1 & IH2 & IH3).
    destruct (walkAddControlBlocks_walk HPo Hgo _ Ho) as (B1 & B2 & B3).
    split; [|cbn; now rewrite IH2, IH3, B3].
    apply Forall2_app; assumption.
Qed.

Lemma walkAddControl_walk (newCond : Value) :
  forall op, walkPreserved newCond op.
Proof.
  induction op as [i nm vs a t rs b IH] using Operation_nested_ind.
  intros Hg n op' n' H.
  rewrite walkAddControl_unfold in H. cbn [getRegions] in H.
  bld_bind H rs' n1 Hrs. cbn zeta in H.
  rewrite walk_unfold in Hg. cbn [getRegions] in Hg.
  apply Forall_app in Hg. destruct Hg as [Hgr Hgo].
  apply Forall_cons_iff in Hgo. destruct Hgo as [Hgo _].
  destruct (hasTraitQuantumGate (mkOp i nm vs a t rs b)) eqn:Ht.
  - specialize (Hgo eq_refl). cbn in Hgo. subst rs.
    inv Hrs.
    destruct (@controlledBy_gate newCond (mkOp i nm vs a t [] b) [] n1 op' n'
                Ht H) as [Hc Hr].
    rewrite (walk_unfold op'), Hr. cbn. constructor; [assumption|constructor].
  - inv H. rewrite !walk_unfold. cbn [getRegions withRegions].
    apply Forall2_app.
    + eapply walkAddControlRegions_walk; eassumption.
    + constructor; [|constructor].
      exact (@controlledBy_other newCond (mkOp i nm vs a t rs b) rs' Ht).
Qed.

Lemma walkRegion_insertArgument0 (a : nat) (ty : Ty) (r : Region) :
  walkRegion (updFront (insertArgument0 a ty) r) = walkRegion r.
Proof. destruct r as [|[bi args ops] r]; reflexivity. Qed.

(** C8.  The control variant of a kernel is named [name.ctrl]; its inputs are
    a quantum register followed by the inputs of the kernel; its entry block
    has one new argument, in front; and its operations are, in order, those
    of the kernel, where every operation with the quantum-gate trait has the
    new argument as an additional operand at the start of its control
    segment, its recorded control-segment size incremented by one, the
    other two sizes, the other operands and the other attributes unchanged,
    and every other operation keeps its operands and attributes. *)
Theorem createControlVariantOf_adds_control
  (funcOp : Operation) (st : PassState) (newFunc : Operation)
  (st' : PassState) :
  (forall op, isa FuncOp.name op = true -> hasTraitQuantumGate op = false) ->
  Forall (fun o => hasTraitQuantumGate o = true -> getRegions o = [])
         (walkRegion (FuncOp.getBody funcOp)) ->
  createControlVariantOf hasTraitQuantumGate funcOp st =
    Some (newFunc, st') ->
  FuncOp.getName newFunc =
    getCtrlVariantFunctionName (FuncOp.getName funcOp) /\
  FuncOp.getInputs newFunc = TQVec None :: FuncOp.getInputs funcOp /\
  FuncOp.getResultTys newFunc = FuncOp.getResultTys funcOp /\
  module st' = module st ++ [newFunc] /\
  exists entry rest,
    let newCond := BlockArg (S (nextId st)) (TQVec None) in
    FuncOp.getBody funcOp = entry :: rest /\
    map blk_args (FuncOp.getBody newFunc) =
      ((S (nextId st), TQVec None) :: blk_args entry) :: map blk_args rest /\
    Forall2 (controlledBy' newCond)
      (walkRegion (FuncOp.getBody funcOp))
      (walkRegion (FuncOp.getBody newFunc)).
Proof.
  intros Hfunc Hleaves H. unfold createControlVariantOf in H.
  bind_inv H. destruct p as [f st1]. cbn [fst snd Res.bind] in H. inv H.
  unfold runBuilder in E.
  destruct (Bld.bind _ _ (nextId st)) as [[f' n']|] eqn:Eb; [|discriminate].
  inv E. cbn [module withModule withNextId].
  bld_bind Eb newFunc0 n1 Hc. inv Hc.
  bld_lift Eb entry He. bld_bind Eb a n2 Ha. inv Ha. cbn zeta in Eb.
  rewrite walkAddControl_unfold in Eb.
  bld_bind Eb rs' n3 Hrs. cbn zeta in Eb.
  rewrite Hfunc in Eb by reflexivity. inv Eb.
  cbn [FuncOp.setBody withRegions getRegions] in Hrs.
  destruct (FuncOp.getBody funcOp) as [|entry0 rest] eqn:Hbody;
    [discriminate|]. inv He.
  assert (HP : Forall (Forall (fun blk =>
                 Forall (walkPreserved (BlockArg (S (nextId st)) (TQVec None)))
                        (blk_ops blk)))
                 [updFront (insertArgument0 (S (nextId st)) (TQVec None))
                    (entry :: rest)]).
  { apply Forall_forall. intros r _. apply Forall_forall. intros blk _.
    apply Forall_forall. intros o _. apply walkAddControl_walk. }
  assert (Hg : Forall
                 (fun o => hasTraitQuantumGate o = true -> getRegions o = [])
                 (walkRegions
                    [updFront (insertArgument0 (S (nextId st)) (TQVec None))
                       (entry :: rest)])).
  { unfold walkRegions. cbn [flat_map]. rewrite app_nil_r.
    now rewrite walkRegion_insertArgument0. }
  destruct (walkAddControlRegions_walk HP Hg _ Hrs) as (W1 & W2 & W3).
  destruct rs' as [|r' [|r2 rs2]]; try discriminate.
  unfold walkRegions in W1. cbn [flat_map] in W1.
  rewrite !app_nil_r, walkRegion_insertArgument0 in W1.
  cbn [map] in W2. inv W2.
  repeat (split; [reflexivity|]).
  exists entry, rest. cbn zeta. split; [reflexivity|].
  cbn [FuncOp.getBody getRegions nth withRegions FuncOp.setBody].
  split; [|assumption]. rewrite H0. reflexivity.
Qed.

End ControlFacts.

Lemma createControlVariantOf_adds_control_witness :
  exists newFunc st',
    createControlVariantOf Samples.isGate Samples.kernelK
      (mkPassState [Samples.kernelK] [] false 1000) = Some (newFunc, st') /\
    FuncOp.getName newFunc = "k.ctrl" /\
    FuncOp.getInputs newFunc = [TQVec None; TQVec None] /\
    Forall2 (controlledBy Samples.isGate (BlockArg 1001 (TQVec None)))
      (walkRegion (FuncOp.getBody Samples.kernelK))
      (walkRegion (FuncOp.getBody newFunc)).
Proof.
  eexists _, _. split; [vm_compute; reflexivity|].
  edestruct (createControlVariantOf_adds_control Samples.isGate
               Samples.kernelK (mkPassState [Samples.kernelK] [] false 1000))
    as (H1 & H2 & _ & _ & entry & rest & _ & _ & H3).
  - intros op H. unfold Samples.isGate. unfold isa in H.
    apply String.eqb_eq in H. rewrite H. reflexivity.
  - cbn. repeat constructor.
  - vm_compute. reflexivity.
  - split; [exact H1|]. split; [exact H2|]. exact H3.
Defined.

(** ** The call-site rewriter (claim C7) *)

Lemma convertOp_unfold (op : Operation) :
  convertOp op =
  (rs' <~ convertRegions (getRegions op) ;;
   let op' := withRegions op rs' in
   if isIllegal op then
     new <~ matchAndRewrite op' ;;
     Bld.ret (new, match back new with
                   | Some call => [(op_id op, call)]
                   | None => []
                   end)
   else Bld.ret ([op'], [])).
Proof. destruct op. reflexivity. Qed.

Lemma shapeOf_rauwOp (old : nat) (news : list Value) (o : Operation) :
  shapeOf (rauwOp old news o) = shapeOf o.
Proof.
  destruct o as [i n vs a t rs b]. unfold shapeOf. cbn.
  now rewrite length_map.
Qed.

Lemma walk_rauwOp (old : nat) (news : list Value) :
  forall o, walk (rauwOp old news o) = map (rauwOp old news) (walk o).
Proof.
  induction o as [i n vs a t rs b IH] using Operation_nested_ind.
  rewrite (walk_unfold (mkOp i n vs a t rs b)). cbn [rauwOp].
  rewrite walk_unfold. cbn [getRegions]. rewrite map_app. cbn [map rauwOp].
  f_equal. unfold walkRegions.
  induction rs as [|r rs IHrs]; [reflexivity|].
  apply Forall_cons_iff in IH. destruct IH as [IHr IH].
  cbn [map flat_map]. rewrite map_app. f_equal; [|now apply IHrs].
  clear IHrs IH. unfold walkRegion.
  induction r as [|[bi args ops] r IHr']; [reflexivity|].
  apply Forall_cons_iff in IHr. destruct IHr as [IHo IHr].
  cbn [map flat_map rauwBlock]. rewrite map_app. f_equal; [|now apply IHr'].
  clear IHr' IHr. unfold walkBlock, walkOps. cbn [blk_ops] in *.
  induction ops as [|o ops IHops]; [reflexivity|].
  apply Forall_cons_iff in IHo. destruct IHo as [Ho IHo].
  cbn [map flat_map]. rewrite map_app, Ho. f_equal. now apply IHops.
Qed.

Lemma shapes_redirectUses (replaced : list (nat * Operation))
  (ops : list Operation) :
  map shapeOf (walkOps (redirectUses replaced ops)) =
  map shapeOf (walkOps ops).
Proof.
  unfold redirectUses. revert ops.
  induction replaced as [|[old call] replaced IH]; intros ops; [reflexivity|].
  cbn [fold_left fst snd]. rewrite IH. unfold walkOps.
  induction ops as [|o ops IHo]; [reflexivity|].
  cbn [map flat_map]. rewrite !map_app, IHo. f_equal.
  rewrite walk_rauwOp, map_map. apply map_ext. intros x.
  apply shapeOf_rauwOp.
Qed.

(** The operations that replace one apply site. *)
Lemma matchAndRewrite_spec (appOp : Operation) (n : nat) :
  exists call n',
    let concat :=
      mkOp n "quake.concat" (ApplyOp.getControls appOp) [] [TQVec None] []
        (getBlock appOp) in
    matchAndRewrite appOp n =
      Some ((if negb (empty (ApplyOp.getControls appOp)) then [concat]
             else []) ++ [call], n') /\
    op_name call = "func.call" /\
    getAttrs call =
      [("callee",
        ASym (getVariantFunctionName appOp
                (match ApplyOp.getCallee appOp with
                 | Some s => s
                 | None => ""
                 end)))] /\
    getOperands call =
      (if negb (empty (ApplyOp.getControls appOp))
       then [OpResult concat 0] else []) ++ ApplyOp.getArgs appOp /\
    getResultTypes call = getResultTypes appOp /\
    getRegions call = [].
Proof.
  unfold matchAndRewrite.
  destruct (negb (empty (ApplyOp.getControls appOp))); cbn;
    eexists _, _; (split; [reflexivity|]); repeat split.
Qed.

Local Notation applySitesAreLeaves :=
  (Forall (fun o => isIllegal o = true -> getRegions o = [])).
Local Notation converted :=
  (fun op =>
     applySitesAreLeaves (walk op) ->
     forall n, exists new repl n',
       convertOp op n = Some ((new, repl), n') /\
       map shapeOf (walkOps new) = flat_map expectedShapes (walk op)).

Lemma convertOps_shapes (ops : list Operation) :
  Forall converted ops ->
  applySitesAreLeaves (walkOps ops) ->
  forall n, exists new repl n',
    convertOps ops n = Some ((new, repl), n') /\
    map shapeOf (walkOps new) = flat_map expectedShapes (walkOps ops).
Proof.
  unfold walkOps.
  induction ops as [|o ops IH]; intros HP Hg n.
  - exists [], [], n. split; reflexivity.
  - apply Forall_cons_iff in HP. destruct HP as [HPo HP].
    cbn [flat_map] in Hg. apply Forall_app in Hg. destruct Hg as [Hgo Hgs].
    destruct (HPo Hgo n) as (new1 & repl1 & n1 & E1 & S1).
    destruct (IH HP Hgs n1) as (new2 & repl2 & n2 & E2 & S2).
    exists (new1 ++ new2), (repl1 ++ repl2), n2. split.
    + cbn [convertOps]. unfold Bld.bind. now rewrite E1, E2.
    + cbn [flat_map]. rewrite !flat_map_app, map_app.
      unfold walkOps in S1. now rewrite S1, S2.
Qed.

Lemma convertBlocks_shapes (r : Region) :
  Forall (fun blk => Forall converted (blk_ops blk)) r ->
  applySitesAreLeaves (walkRegion r) ->
  forall n, exists r' n',
    convertBlocks r n = Some (r', n') /\
    map shapeOf (walkRegion r') = flat_map expectedShapes (walkRegion r).
Proof.
  unfold walkRegion.
  induction r as [|[bi args ops] r IH]; intros HP Hg n.
  - exists [], n. split; reflexivity.
  - apply Forall_cons_iff in HP. destruct HP as [HPo HP].
    cbn [flat_map] in Hg. apply Forall_app in Hg. destruct Hg as [Hgo Hgs].
    cbn [blk_ops] in HPo. unfold walkBlock in Hgo. cbn [blk_ops] in Hgo.
    destruct (convertOps_shapes HPo Hgo n) as (new & repl & n1 & E1 & S1).
    destruct (IH HP Hgs n1) as (r' & n2 & E2 & S2).
    exists (mkBlock bi args (redirectUses repl new) :: r'), n2. split.
    + cbn [convertBlocks]. unfold Bld.bind. now rewrite E1, E2.
    + cbn [flat_map]. rewrite flat_map_app, map_app, S2. f_equal.
      unfold walkBlock. cbn [blk_ops].
      now rewrite shapes_redirectUses.
Qed.

Lemma convertRegions_shapes (rs : list Region) :
  Forall (Forall (fun blk => Forall converted (blk_ops blk))) rs ->
  applySitesAreLeaves (walkRegions rs) ->
  forall n, exists rs' n',
    convertRegions rs n = Some (rs', n') /\
    map shapeOf (walkRegions rs') = flat_map expectedShapes (walkRegions rs).
Proof.
  unfold walkRegions.
  induction rs as [|r rs IH]; intros HP Hg n.
  - exists [], n. split; reflexivity.
  - apply Forall_cons_iff in HP. destruct HP as [HPo HP].
    cbn [flat_map] in Hg. apply Forall_app in Hg. destruct Hg as [Hgo Hgs].
    destruct (convertBlocks_shapes HPo Hgo n) as (r' & n1 & E1 & S1).
    destruct (IH HP Hgs n1) as (rs' & n2 & E2 & S2).
    exists (r' :: rs'), n2. split.
    + cbn [convertRegions]. unfold Bld.bind. now rewrite E1, E2.
    + cbn [flat_map]. now rewrite flat_map_app, map_app, S1, S2.
Qed.

Lemma getSegment_withRegions (k : nat) (op : Operation) (rs : list Region) :
  getSegment k (withRegions op rs) = getSegment k op.
Proof. now destruct op. Qed.

Lemma convertOp_shapes : forall op, converted op.
Proof.
  induction op as [i nm vs a t rs b IH] using Operation_nested_ind.
  intros Hg n. rewrite walk_unfold in Hg. cbn [getRegions] in Hg.
  apply Forall_app in Hg. destruct Hg as [Hgr Hgo].
  apply Forall_cons_iff in Hgo. destruct Hgo as [Hgo _].
  rewrite convertOp_unfold. cbn [getRegions].
  set (op := mkOp i nm vs a t rs b) in *.
  destruct (isIllegal op) eqn:Hill.
  - specialize (Hgo eq_refl). cbn in Hgo. subst rs.
    destruct (matchAndRewrite_spec (withRegions op []) n)
      as (call & n' & E & Hn & Ha & Ho & _ & Hr).
    cbn zeta in E. change (withRegions op []) with op in *.
    unfold Bld.bind. cbn [convertRegions Bld.ret].
    change (withRegions op []) with op.
    rewrite E. eexists _, _, _. split; [reflexivity|].
    rewrite walk_unfold.
    replace (getRegions op) with ([] : list Region) by reflexivity.
    cbn [walkRegions flat_map app].
    rewrite app_nil_r. unfold expectedShapes. rewrite Hill.
    unfold walkOps. rewrite flat_map_app, map_app. cbn [flat_map].
    rewrite (walk_unfold call), Hr. cbn [walkRegions flat_map app map].
    f_equal.
    + destruct (negb (empty (ApplyOp.getControls op))); reflexivity.
    + unfold shapeOf. rewrite Hn, Ha, Ho, length_app.
      destruct (negb (empty (ApplyOp.getControls op))); reflexivity.
  - destruct (convertRegions_shapes IH Hgr n) as (rs' & n' & E & S).
    unfold Bld.bind. rewrite E. cbn zeta. eexists _, _, _.
    split; [reflexivity|].
    unfold walkOps. cbn [flat_map]. rewrite app_nil_r.
    rewrite !walk_unfold. cbn [getRegions withRegions op].
    rewrite map_app, flat_map_app, S. f_equal.
    cbn [flat_map map]. unfold expectedShapes. fold op. rewrite Hill.
    reflexivity.
Qed.

Lemma isIllegalShape_shapeOf (op : Operation) :
  isIllegalShape (shapeOf op) = isIllegal op.
Proof.
  unfold isIllegalShape, isIllegal, shapeOf, isa, hasAttr. cbn.
  now destruct (getAttr "replaced" (getAttrs op)).
Qed.

Lemma expectedShapes_legal (op : Operation) :
  Forall (fun s => isIllegalShape s = false) (expectedShapes op).
Proof.
  unfold expectedShapes. destruct (isIllegal op) eqn:E.
  - destruct (negb (empty (ApplyOp.getControls op))); repeat constructor.
  - constructor; [|constructor]. now rewrite isIllegalShape_shapeOf.
Qed.

(** C7 (as amended).  On a module whose apply sites hold no region, step 2
    succeeds and reports nothing.  After it, the operations of
    the module are, in order, those before it, where every quake.apply that
    does not carry the attribute "replaced" has become one func.call --
    preceded by one quake.concat of its controls when it has controls --
    whose callee is the name given by the mangling rule ([.adj.ctrl],
    [.adj], [.ctrl] or the plain name) and whose operands are the result of
    the concat, if any, followed by the arguments of the apply; a
    quake.apply that carries "replaced" stays, and no other quake.apply is
    left. *)
Theorem step2_rewrites_apply_sites (st : PassState) :
  Forall (fun o => isIllegal o = true -> getRegions o = [])
         (walkOps (module st)) ->
  exists st',
    step2 st = Some st' /\
    map shapeOf (walkOps (module st')) =
      flat_map expectedShapes (walkOps (module st)) /\
    Forall (fun op => isa ApplyOp.name op = true ->
                      hasAttr "replaced" op = true)
           (walkOps (module st')) /\
    diagnostics st' = diagnostics st /\ passFailed st' = passFailed st /\
    forall appOp n,
      exists call n',
        let concat :=
          mkOp n "quake.concat" (ApplyOp.getControls appOp) [] [TQVec None] []
            (getBlock appOp) in
        matchAndRewrite appOp n =
          Some ((if negb (empty (ApplyOp.getControls appOp)) then [concat]
                 else []) ++ [call], n') /\
        op_name call = "func.call" /\
        getAttrs call =
          [("callee",
            ASym (getVariantFunctionName appOp
                    (match ApplyOp.getCallee appOp with
                     | Some s => s
                     | None => ""
                     end)))] /\
        getOperands call =
          (if negb (empty (ApplyOp.getControls appOp))
           then [OpResult concat 0] else []) ++ ApplyOp.getArgs appOp /\
        getResultTypes call = getResultTypes appOp /\
        getRegions call = [].
Proof.
  intros Hleaves.
  assert (HP : Forall converted (module st))
    by (apply Forall_forall; intros o _; apply convertOp_shapes).
  destruct (convertOps_shapes HP Hleaves (nextId st))
    as (new & repl & n' & E & S).
  assert (Hs : Forall (fun s => isIllegalShape s = false)
                 (map shapeOf (walkOps (redirectUses repl new)))).
  { rewrite shapes_redirectUses, S. apply Forall_flat_map.
    apply Forall_forall. intros o _. apply expectedShapes_legal. }
  apply Forall_map in Hs.
  assert (Hl : existsb isIllegal (walkOps (redirectUses repl new)) = false).
  { clear - Hs. induction Hs as [|o l Ho _ IH]; [reflexivity|].
    cbn [existsb]. rewrite isIllegalShape_shapeOf in Ho.
    now rewrite Ho, IH. }
  unfold step2, runBuilder. rewrite E. cbn [Res.bind fst snd]. rewrite Hl.
  eexists. split; [reflexivity|].
  cbn [module withModule withNextId diagnostics passFailed].
  rewrite shapes_redirectUses.
  split; [exact S|]. split; [|split; [reflexivity|split; [reflexivity|]]].
  - eapply Forall_impl; [|exact Hs]. cbn.
    intros op Hop Ha. rewrite isIllegalShape_shapeOf in Hop.
    unfold isIllegal in Hop. rewrite Ha in Hop. cbn in Hop.
    now apply negb_false_iff in Hop.
  - intros appOp n. apply matchAndRewrite_spec.
Qed.

Lemma step2_rewrites_apply_sites_witness :
  exists st',
    step2 (mkPassState Samples.twoSites [] false 1000) = Some st' /\
    map shapeOf (walkOps (module st')) =
      flat_map expectedShapes (walkOps Samples.twoSites) /\
    map (fun op => getAttr "callee" (getAttrs op))
        (filter (isa "func.call") (walkOps (module st'))) =
      [Some (ASym "k.adj"); Some (ASym "k.ctrl")].
Proof.
  destruct (step2_rewrites_apply_sites
              (mkPassState Samples.twoSites [] false 1000))
    as (st' & H1 & H2 & _).
  - cbn. repeat constructor; discriminate.
  - exists st'. split; [exact H1|]. split; [exact H2|].
    vm_compute in H1. inv H1. reflexivity.
Defined.

(** C7, the claim as written fails: an apply site that carries the attribute
    "replaced" is legal for the conversion of step 2 and is still in the
    module, as a quake.apply, after the pass; no call has been created for
    it. *)
Lemma step2_keeps_marked_apply_site :
  match runOnOperation Samples.applyToVariant Samples.hasCallOp
          Samples.hasMeasureOp Samples.hasCharacteristic Samples.isGate
          Samples.isGate Samples.isHermitian Samples.isGate Samples.noGarbage
          (mkPassState Samples.markedSite [] false 1000) with
  | Some st' =>
      existsb (fun op => isa ApplyOp.name op && ApplyOp.getIsAdj op)
              (walkOps (module st')) = true /\
      filter (isa "func.call") (walkOps (module st')) = []
  | None => False
  end.
Proof. vm_compute. split; reflexivity. Qed.

(** *** Arithmetic of the trip count *)

Lemma pow2_double (w : Z) : (0 < w)%Z -> (2 ^ w = 2 * 2 ^ (w - 1))%Z.
Proof.
  intros H. replace w with (Z.succ (w - 1)) at 1 by lia.
  rewrite Z.pow_succ_r by lia. reflexivity.
Qed.

Lemma pow2_pos (w : Z) : (0 <= w)%Z -> (0 < 2 ^ w)%Z.
Proof. intros H. apply Z.pow_pos_nonneg; lia. Qed.

Lemma wrap_small (w x : Z) : (0 <= x < 2 ^ w)%Z -> wrap w x = x.
Proof. intros H. unfold wrap. now apply Z.mod_small. Qed.

Lemma wrap_range (w z : Z) : (0 <= w)%Z -> (0 <= wrap w z < 2 ^ w)%Z.
Proof. intros H. unfold wrap. apply Z.mod_pos_bound. now apply pow2_pos. Qed.

Lemma signed_small (w x : Z) :
  (0 < w)%Z -> (0 <= x < 2 ^ (w - 1))%Z -> signed w x = x.
Proof.
  intros Hw H. unfold signed. pose proof (pow2_double Hw).
  rewrite wrap_small by lia.
  destruct (Z.ltb_spec x (2 ^ (w - 1))); lia.
Qed.

Lemma signed_nonneg_inv (w x : Z) :
  (0 < w)%Z -> (0 <= x < 2 ^ w)%Z -> (0 <= signed w x)%Z ->
  (x < 2 ^ (w - 1))%Z.
Proof.
  intros Hw H Hs. unfold signed in Hs. rewrite wrap_small in Hs by lia.
  destruct (Z.ltb_spec x (2 ^ (w - 1))); lia.
Qed.

Lemma signed_neg (w x : Z) :
  (0 < w)%Z -> (0 < x <= 2 ^ (w - 1))%Z -> signed w (wrap w (0 - x)) = (- x)%Z.
Proof.
  intros Hw H. pose proof (pow2_double Hw).
  assert (E : wrap w (0 - x) = (2 ^ w - x)%Z).
  { unfold wrap. replace (0 - x)%Z with (2 ^ w - x + (-1) * 2 ^ w)%Z by lia.
    rewrite Z.mod_add by lia. apply Z.mod_small. lia. }
  rewrite E. unfold signed. rewrite wrap_small by lia.
  destruct (Z.ltb_spec (2 ^ w - x) (2 ^ (w - 1))); lia.
Qed.

(** The value of a trip count is a non-negative signed integer. *)
Lemma tripCount_nonneg (w : Z) (env : Value -> option Z)
  (pred : CmpIPredicate.t) (I B S : Expr) (x : Z) :
  (0 < w)%Z ->
  evalExpr w env (tripCountExpr pred I B S) = Some x ->
  (0 <= x < 2 ^ (w - 1))%Z.
Proof.
  intros Hw H. unfold tripCountExpr in H. cbn [evalExpr] in H.
  destruct (evalExpr w env (if isInclusive pred then _ else _)) as [r|];
    [|discriminate].
  cbn [Res.bind] in H. destruct (evalExpr w env S) as [s|]; [|discriminate].
  cbn [Res.bind] in H. destruct (divsi w r s) as [qv|] eqn:Eq;
    [|discriminate].
  cbn [Res.bind] in H.
  assert (Hq : (0 <= qv < 2 ^ w)%Z).
  { unfold divsi in Eq.
    destruct (_ =? 0)%Z; [discriminate|].
    destruct (_ && _); [discriminate|]. inv Eq. apply wrap_range. lia. }
  pose proof (pow2_pos (w := w - 1)) as Hp.
  assert (Hz : wrap w 0 = 0%Z) by (apply wrap_small; pose proof (pow2_pos (w := w)); lia).
  rewrite Hz in H. cbn [evalCmp] in H.
  assert (Hs0 : signed w 0 = 0%Z) by (apply signed_small; lia).
  rewrite Hs0 in H.
  destruct (Z.ltb_spec 0 (signed w qv)) as [Hlt|Hge]; cbn in H; inv H.
  - split; [lia|]. apply (signed_nonneg_inv Hw); lia.
  - lia.
Qed.

(** Reversing the trip counter gives the trip count back:
    [((0 - x) divsi (0 - 1))], clamped, is [x]. *)
Lemma tripCount_of_tripCounter (w : Z) (env : Value -> option Z)
  (X : Expr) (x : Z) :
  (0 < w)%Z ->
  evalExpr w env X = Some x -> (0 <= x < 2 ^ (w - 1))%Z ->
  evalExpr w env
    (tripCountExpr CmpIPredicate.sgt X (EConst 0)
       (ESub (EConst 0) (EConst 1))) = Some x.
Proof.
  intros Hw HX Hx. pose proof (pow2_double Hw) as Hd.
  pose proof (pow2_pos (w := w - 1)) as Hp.
  assert (Hz : wrap w 0 = 0%Z) by (apply wrap_small; lia).
  assert (H1 : wrap w 1 = 1%Z) by (apply wrap_small; lia).
  assert (Hs0 : signed w 0 = 0%Z) by (apply signed_small; lia).
  assert (Hm1 : signed w (wrap w (0 - 1)) = (-1)%Z)
    by (apply signed_neg; lia).
  assert (Hsx : signed w x = x) by (apply signed_small; lia).
  assert (Hnx : signed w (wrap w (0 - x)) = (- x)%Z).
  { destruct (Z.eq_dec x 0) as [->|Hne].
    - change (0 - 0)%Z with 0%Z. rewrite Hz. exact Hs0.
    - apply signed_neg; lia. }
  unfold tripCountExpr. cbn [isInclusive evalExpr Res.bind].
  rewrite HX. cbn [Res.bind]. rewrite Hz, H1. cbn [Res.bind].
  unfold divsi. rewrite Hm1, Hnx. cbn [Z.eqb].
  replace (- x =? - 2 ^ (w - 1))%Z with false
    by (symmetry; apply Z.eqb_neq; lia).
  cbn [andb Res.bind].
  replace (Z.quot (- x) (-1)) with x
    by (change (-1)%Z with (Z.opp 1); rewrite Z.quot_opp_opp by lia;
        now rewrite Z.quot_1_r).
  rewrite (@wrap_small w x) by lia.
  cbn [evalCmp]. rewrite Hs0, Hsx.
  destruct (Z.ltb_spec 0 x); cbn; f_equal; lia.
Qed.

(** ** The work list of [populateComparisonTemps]

    The number of rounds that the model allows, the size of the comparison,
    is enough: more rounds give the same result, and the scan has a result
    whenever every memref.load it visits has its operand. *)

Lemma op_size_pos (o : Operation) : 1 <= op_size o.
Proof. destruct o. cbn. lia. Qed.

Lemma op_size_operands (o : Operation) (blk : nat) :
  S (worklistSize (defsInBlock blk (getOperands o))) <= op_size o.
Proof.
  destruct o as [i n vs a t r b]. cbn [op_size getOperands].
  apply le_n_S. induction vs as [|v vs IH]; [cbn; lia|].
  unfold defsInBlock, worklistSize in *. cbn [flat_map].
  rewrite map_app, list_sum_app.
  destruct v as [x ty|d k]; cbn [getDefiningOp].
  - cbn. lia.
  - destruct (Nat.eqb (getBlock d) blk); cbn; lia.
Qed.

Lemma worklistSize_app (l l' : list Operation) :
  worklistSize (l ++ l') = worklistSize l + worklistSize l'.
Proof. unfold worklistSize. now rewrite map_app, list_sum_app. Qed.

Lemma worklistSize_back (l : list Operation) (op : Operation) :
  back l = Some op ->
  worklistSize l = worklistSize (removelast l) + op_size op.
Proof.
  intros H. destruct l as [|x l] using rev_ind; [discriminate|].
  rewrite back_app_single in H. inv H.
  rewrite removelast_last, worklistSize_app. unfold worklistSize. cbn. lia.
Qed.

Lemma worklistSize_nonempty (l : list Operation) :
  empty l = false -> 1 <= worklistSize l.
Proof.
  destruct l as [|x l]; [discriminate|]. intros _.
  unfold worklistSize. cbn. pose proof (op_size_pos x). lia.
Qed.

Lemma populate_loop_fuel (fuel k blk : nat) (wl res : list Operation) :
  worklistSize wl <= fuel -> empty wl = false ->
  populate_loop (fuel + k) blk wl res = populate_loop fuel blk wl res.
Proof.
  revert wl res. induction fuel as [|fuel IH]; intros wl res Hsz Hne.
  - apply worklistSize_nonempty in Hne. lia.
  - cbn [Nat.add populate_loop].
    destruct (back wl) as [op|] eqn:Hb; [|reflexivity]. cbn [Res.bind].
    pose proof (worklistSize_back _ Hb) as Hs.
    pose proof (op_size_operands op blk) as Ho. pose proof (op_size_pos op).
    destruct (isa "memref.load" op).
    + destruct (LoadOp.getMemRef op) as [m|]; [|reflexivity].
      cbn [Res.bind].
      assert (E : forall r, (if empty (removelast wl) then Some r
                   else populate_loop (fuel + k) blk (removelast wl) r) =
                  (if empty (removelast wl) then Some r
                   else populate_loop fuel blk (removelast wl) r)).
      { intros r. destruct (empty (removelast wl)) eqn:Ee; [reflexivity|].
        apply IH; [lia|assumption]. }
      destruct (getDefiningOp m) as [d|]; [|apply E].
      destruct (_ && _); apply E.
    + cbn [Res.bind fst snd].
      destruct (empty (removelast wl ++ defsInBlock blk (getOperands op)))
        eqn:Ee; [reflexivity|].
      apply IH; [|assumption]. rewrite worklistSize_app. lia.
Qed.

Lemma populateComparisonTemps_fuel (cmpOp : Operation) (whileBlock : Block)
  (k : nat) :
  populate_loop (op_size cmpOp + k) (blk_id whileBlock) [cmpOp] [] =
  populateComparisonTemps cmpOp whileBlock.
Proof.
  apply populate_loop_fuel; [|reflexivity].
  unfold worklistSize. cbn. lia.
Qed.

Lemma wellFormedLoads_operands (o : Operation) (blk : nat) :
  wellFormedLoads o = true ->
  Forall (fun d => wellFormedLoads d = true)
         (defsInBlock blk (getOperands o)).
Proof.
  destruct o as [i n vs a t r b]. cbn [wellFormedLoads getOperands].
  intros H. apply andb_prop in H. destruct H as [_ H].
  induction vs as [|v vs IH]; [constructor|].
  apply andb_prop in H. destruct H as [Hv H].
  unfold defsInBlock. cbn [flat_map]. apply Forall_app. split.
  - destruct v as [x ty|d k]; cbn [getDefiningOp]; [constructor|].
    destruct (Nat.eqb (getBlock d) blk); repeat constructor. exact Hv.
  - apply IH. exact H.
Qed.

Lemma populate_loop_total (fuel blk : nat) (wl res : list Operation) :
  Forall (fun d => wellFormedLoads d = true) wl ->
  worklistSize wl <= fuel -> empty wl = false ->
  exists temps, populate_loop fuel blk wl res = Some temps.
Proof.
  revert wl res. induction fuel as [|fuel IH]; intros wl res Hwf Hsz Hne.
  - apply worklistSize_nonempty in Hne. lia.
  - cbn [populate_loop].
    destruct wl as [|op wl _] using rev_ind; [discriminate|].
    rewrite back_app_single. cbn [Res.bind]. rewrite removelast_last.
    apply Forall_app in Hwf. destruct Hwf as [Hwl Hop].
    apply Forall_cons_iff in Hop. destruct Hop as [Hop _].
    rewrite worklistSize_app in Hsz. unfold worklistSize at 2 in Hsz.
    cbn in Hsz.
    pose proof (op_size_operands op blk) as Ho.
    assert (E : forall r, exists temps,
               (if empty wl then Some r else populate_loop fuel blk wl r)
               = Some temps).
    { intros r. destruct (empty wl) eqn:Ee; [now exists r|].
      apply IH; [assumption|lia|assumption]. }
    destruct (isa "memref.load" op) eqn:Hl.
    + destruct op as [i n vs a t r b]. unfold LoadOp.getMemRef, getOperand.
      cbn [getOperands]. cbn [wellFormedLoads] in Hop. unfold isa in Hl.
      cbn [op_name] in Hl. rewrite Hl in Hop.
      destruct vs as [|m vs]; [discriminate|]. cbn [nth_error Res.bind].
      destruct (getDefiningOp m) as [d|];
        [destruct (isa "memref.alloca" d && isScalarIntegral _)|];
        cbn [Res.bind fst snd]; apply E.
    + cbn [Res.bind fst snd].
      destruct (empty (wl ++ defsInBlock blk (getOperands op))) eqn:Ee;
        [eauto|].
      apply IH; [|rewrite worklistSize_app; lia|assumption].
      apply Forall_app. split; [assumption|].
      now apply wellFormedLoads_operands.
Qed.

Lemma populateComparisonTemps_total (cmpOp : Operation) (whileBlock : Block) :
  wellFormedLoads cmpOp = true ->
  exists temps, populateComparisonTemps cmpOp whileBlock = Some temps.
Proof.
  intros H. apply populate_loop_total; [|unfold worklistSize; cbn; lia|
                                         reflexivity].
  now repeat constructor.
Qed.

(** ** Reversing twice (claim C2) *)

Lemma back_two {A : Type} (x y : A) : back [x; y] = Some y.
Proof. reflexivity. Qed.

Lemma back_app_three {A : Type} (l : list A) (x y z : A) :
  back (l ++ [x; y; z]) = Some z.
Proof.
  change (l ++ [x; y; z]) with (l ++ [x; y] ++ [z]). rewrite app_assoc.
  apply back_app_single.
Qed.

(** A verified loop that the memory-domain matcher accepts carries no
    value. *)
Lemma verify_memory_loop (loop : Operation) (wb bb sb : Block) :
  LoopOpVerifier.verify loop = Some true ->
  hasMonotonicLCV loop = Some true ->
  LoopOp.getWhileRegion loop = [wb] ->
  LoopOp.getBodyRegion loop = [bb] ->
  LoopOp.getStepRegion loop = [sb] ->
  LoopOp.getInitArgs loop = [] /\ blk_args wb = [] /\ blk_args bb = [] /\
  blk_args sb = [] /\
  exists condOp, back (blk_ops wb) = Some condOp /\
    ConditionOp.getResults condOp = [].
Proof.
  intros Hv Hl Hw Hb Hs.
  assert (Hi : LoopOp.getInitArgs loop = []).
  { unfold hasMonotonicLCV in Hl. unfold LoopOpVerifier.verify in Hv.
    destruct (LoopOp.getInitArgs loop) as [|a l]; [reflexivity|].
    destruct (getResults loop) as [|r l']; [discriminate|].
    cbn in Hl. discriminate. }
  unfold LoopOpVerifier.verify in Hv. rewrite Hi, Hw, Hb, Hs in Hv.
  cbn [List.length front hd_error Res.bind empty negb] in Hv.
  destruct (Nat.eqb (List.length (getResults loop)) 0); [|discriminate].
  cbn [negb] in Hv.
  assert (Hlen : forall b, Nat.eqb (List.length (getArguments b)) 0 = true ->
                           blk_args b = []).
  { intros b E. apply Nat.eqb_eq in E. unfold getArguments in E.
    rewrite length_map in E. now apply length_zero_iff_nil. }
  destruct (Nat.eqb (List.length (getArguments wb)) 0) eqn:E1;
    [|discriminate].
  cbn [negb] in Hv. unfold getTerminator in Hv.
  destruct (back (blk_ops wb)) as [condOp|]; [|discriminate].
  cbn [Res.bind] in Hv.
  destruct (isa ConditionOp.name condOp); [|discriminate]. cbn [negb] in Hv.
  destruct (Nat.eqb (List.length (ConditionOp.getResults condOp)) 0) eqn:E2;
    [|discriminate].
  cbn [negb] in Hv.
  destruct (Nat.eqb (List.length (getArguments bb)) 0) eqn:E3;
    [|discriminate].
  cbn [negb] in Hv.
  destruct (Nat.eqb (List.length (getArguments sb)) 0) eqn:E4;
    [|discriminate].
  repeat split; auto. exists condOp. split; [reflexivity|].
  apply Nat.eqb_eq in E2. now apply length_zero_iff_nil.
Qed.

(** The step region that the engine builds in the memory domain. *)
Lemma buildStepRegion_memory_single (loop : Operation) (p : LoopParts)
  (ty : Ty) (n : nat) (s : Region) (n' : nat) (sb : Block) :
  inductionIsValue p = false ->
  LoopOp.getStepRegion loop = [sb] ->
  buildStepRegion loop p ty n = Some (s, n') ->
  exists sb',
    blk_id sb' = blk_id sb /\ blk_args sb' = blk_args sb /\
    s = [reversedStepBlock (S n) ty sb'] /\ n' = 5 + n.
Proof.
  intros Hv Hr H. unfold buildStepRegion in H. rewrite Hv, Hr in H.
  cbn [negb] in H. bld_bind H stepped n1 Hst.
  bld_lift Hst o0 Ho0. bld_lift Hst o1 Ho1. bld_bind Hst new n2 Hnew.
  inv Hst.
  assert (n1 = S n) by (destruct (stepIsAnAddOp p); now inv Hnew). subst n1.
  unfold replaceOpInRegion, rauwRegion in H. cbn [map] in H.
  set (sb' := substBlock (op_id (stepOp p)) [new]
                (rauwBlock (op_id (stepOp p)) (getResults new) sb)) in H.
  bld_lift H f Hf. bld_bind H a n3 Ha. inv Ha.
  cbn [updFront] in H. bld_lift H entry He. inv He.
  bld_lift H lastBlock Hl. inv Hl. bld_lift H contOp Hc.
  bld_check H Hi. rewrite getArguments_addArgument, back_app_single in H.
  cbn in H. inv H. exists sb'.
  repeat split; try reflexivity; unfold sb'; now destruct sb.
Qed.

(** The reversal of a loop in the memory domain is a loop in the value
    domain, whose induction value is the trip counter: the recognizer
    accepts it and the engine reverses it. *)
Section TripLoop.
Variables (id ins nw nb ns : nat) (trips : Value).
Variables (wb : Block) (condOp : Operation) (bb sb : Block).
Hypothesis Hw : blk_args wb = [].
Hypothesis Hc : ConditionOp.getResults condOp = [].
Hypothesis Hb : blk_args bb = [].
Hypothesis Hs : blk_args sb = [].

Ltac trip_simpl :=
  unfold reversedWhileBlock, reversedBodyBlock, reversedStepBlock,
    getArguments;
  rewrite ?Hw, ?Hc, ?Hb, ?Hs;
  repeat (progress (rewrite ?back_single, ?back_two, ?back_app_single,
                      ?back_app_two, ?back_app_three, ?value_eqb_refl;
                    cbn -[back value_eqb])).

Lemma tripLoop_PHI :
  hasMonotonicPHIControl (tripLoop id ins nw nb ns trips wb condOp bb sb)
  = Some true.
Proof.
  unfold hasMonotonicPHIControl, tripLoop. trip_simpl. reflexivity.
Qed.

Lemma tripLoop_counted :
  isaCountedLoop (tripLoop id ins nw nb ns trips wb condOp bb sb)
  = Some true.
Proof.
  unfold isaCountedLoop, hasMonotonicControlInduction.
  rewrite tripLoop_PHI.
  unfold tripLoop, getTerminator, hasMonotonicLCV. trip_simpl. reflexivity.
Qed.

Lemma tripLoop_extract (ins' m : nat) :
  extractLoopParts ins' (tripLoop id ins nw nb ns trips wb condOp bb sb) m =
  Some (([], mkLoopParts true (tripTest ins nw (getType trips) wb) None
               (tripDec ns (getType trips) sb) trips
               (OpResult (tripZero ins nw (getType trips)) 0)
               (OpResult (tripOne ns (getType trips) sb) 0) false false), m).
Proof.
  unfold extractLoopParts. rewrite tripLoop_PHI.
  unfold tripLoop. unfold Bld.bind, Bld.lift, Bld.check, Bld.ret. trip_simpl.
  reflexivity.
Qed.

Lemma tripLoop_reversal (ins' m : nat) :
  exists emitted' newLoop' m' start' trips',
    cloneReversedLoop ins' (tripLoop id ins nw nb ns trips wb condOp bb sb) m
    = Some ((emitted', newLoop'), m') /\
    LoopOp.getInitArgs newLoop' = [start'; trips'] /\
    exprOf trips' =
      tripCountExpr CmpIPredicate.sgt (exprOf trips) (EConst 0)
        (ESub (EConst 0) (EConst 1)).
Proof.
  unfold cloneReversedLoop. unfold Bld.bind at 1. rewrite tripLoop_extract.
  cbn [snd fst]. unfold emitTripArith, buildWhileRegion, buildBodyRegion,
    buildStepRegion.
  unfold tripLoop.
  unfold Bld.bind, Bld.lift, Bld.check, Bld.ret, Bld.create, Bld.freshArg,
    Bld.clone, createIntConstant, createBinary, createCmpI, createSelect.
  trip_simpl. rewrite Nat.eqb_refl.
  destruct (Nat.eqb ins (blk_id wb)); trip_simpl;
    do 5 eexists; (split; [reflexivity|]); split; reflexivity.
Qed.
End TripLoop.

(** The reversed loop runs as many times as the loop, and its body sees the
    induction values in the opposite order: [for (i = 0; i < 10; i += 1)]
    runs ten times with [i = 0, ..., 9] and leaves [i = 10]; its reversal
    runs ten times with [i = 9, ..., 0], in the value domain and in the
    memory domain. *)
Lemma reversed_loop_runs_backwards :
  Samples.observe [Samples.c0] Samples.valueLoop =
    Some ([[0]; [1]; [2]; [3]; [4]; [5]; [6]; [7]; [8]; [9]],
          [[]; []; []; []; []; []; []; []; []; []], [10], [])%Z /\
  Samples.observeReversed [Samples.c0] Samples.valueLoop =
    Some ([[9; 10]; [8; 9]; [7; 8]; [6; 7]; [5; 6]; [4; 5]; [3; 4]; [2; 3];
           [1; 2]; [0; 1]],
          [[]; []; []; []; []; []; []; []; []; []],
          [2 ^ 64 - 1; 0], [])%Z /\
  Samples.observe Samples.memoryInit Samples.memoryLoop =
    Some ([[]; []; []; []; []; []; []; []; []; []],
          [[0]; [1]; [2]; [3]; [4]; [5]; [6]; [7]; [8]; [9]], [], [10])%Z /\
  Samples.observeReversed Samples.memoryInit Samples.memoryLoop =
    Some ([[10]; [9]; [8]; [7]; [6]; [5]; [4]; [3]; [2]; [1]],
          [[9]; [8]; [7]; [6]; [5]; [4]; [3]; [2]; [1]; [0]],
          [0], [2 ^ 64 - 1])%Z.
Proof. repeat split; vm_compute; reflexivity. Qed.

(** C2 (as amended).  Let the engine reverse a structured counted loop that
    the recognizer accepts and the verifier of cc.loop accepts.  If the
    induction variable of the loop is a value that the loop carries, the
    recognizer rejects the new loop and the engine is undefined on it:
    there is no second reversal.  If the induction variable is a memory
    cell, the recognizer accepts the new loop, which carries the trip
    counter only; the engine reverses it again, and the trip count that the
    second reversal computes has the value of the trip count that the first
    one computed. *)
Theorem cloneReversedLoop_twice
  (ins : nat) (loop : Operation) (n : nat) (emitted : list Operation)
  (newLoop : Operation) (n' : nat) (whileBlock stepBlock : Block) :
  isaCountedLoop loop = Some true ->
  LoopOpVerifier.verify loop = Some true ->
  LoopOp.getWhileRegion loop = [whileBlock] ->
  LoopOp.getStepRegion loop = [stepBlock] ->
  Forall (fun a => fst a < n) (blk_args whileBlock) ->
  cloneReversedLoop ins loop n = Some ((emitted, newLoop), n') ->
  (hasMonotonicPHIControl loop = Some true /\
   isaCountedLoop newLoop = Some false /\
   forall ins' m, cloneReversedLoop ins' newLoop m = None)
  \/
  (hasMonotonicPHIControl loop = Some false /\
   isaCountedLoop newLoop = Some true /\
   exists trips,
     LoopOp.getInitArgs newLoop = [trips] /\
     forall ins' m,
     exists emitted' newLoop' m' start' trips',
       cloneReversedLoop ins' newLoop m = Some ((emitted', newLoop'), m') /\
       LoopOp.getInitArgs newLoop' = [start'; trips'] /\
       forall (w : Z) (env : Value -> option Z) (x : Z),
         (0 < w)%Z ->
         evalValue w env trips = Some x -> evalValue w env trips' = Some x).
Proof.
  intros Hcounted Hver Hwr Hsr Hfresh H. pose proof H as H0.
  apply cloneReversedLoop_inv in H.
  destruct H as (pre & p & n1 & arith & t & n2 & st & n3 & w & n4 & b & n5 &
                 s & n6 & Hex & Har & Hle & Hw & Hb & Hs & -> & ->).
  destruct (extractLoopParts_shape _ _ _ Hex) as (Hphi & _).
  destruct (inductionIsValue p) eqn:Hv.
  - left. split; [assumption|].
    destruct (@reversed_value_loop_rejected _ _ _ _ _ _ _ Hcounted Hphi Hwr
                Hfresh H0) as (_ & _ & Hrej & Hnone).
    split; assumption.
  - right. split; [assumption|].
    destruct (isaCountedLoop_true_inv _ Hcounted)
      as (_ & _ & _ & Hind & bb & term & Hbr & _ & _).
    assert (Hlcv : hasMonotonicLCV loop = Some true).
    { unfold hasMonotonicControlInduction in Hind.
      destruct (hasMonotonicLCV loop) as [[|]|]; cbn in Hind;
        congruence. }
    destruct (verify_memory_loop _ Hver Hlcv Hwr Hbr Hsr)
      as (Hi & Hwa & Hba & Hsa & condOp & Hcond & Hres).
    destruct (buildWhileRegion_single _ _ _ _ Hwr Hw)
      as (condOp' & Hcond' & Hic & -> & ->).
    rewrite Hcond in Hcond'. inv Hcond'.
    destruct (buildBodyRegion_single _ _ _ Hbr Hb) as [-> ->].
    destruct (buildStepRegion_memory_single _ _ _ _ Hv Hsr Hs)
      as (sb' & Hid & Hargs & -> & ->).
    rewrite Hsa in Hargs.
    cbn [app map snd].
    change (mkOp _ LoopOp.name [iters t] _ _ _ ins)
      with (tripLoop (5 + S (S (S (S (S (S n3)))))) ins n3 (S (S (S (S n3))))
              (S (S (S (S (S (S (S n3))))))) (iters t) whileBlock condOp'
              bb sb').
    split; [now apply tripLoop_counted|].
    exists (iters t). split; [reflexivity|]. intros ins' m.
    destruct (@tripLoop_reversal (5 + S (S (S (S (S (S n3)))))) ins n3
                (S (S (S (S n3)))) (S (S (S (S (S (S (S n3)))))))
                (iters t) whileBlock condOp' bb sb' Hwa Hres Hba Hargs ins' m)
      as (emitted' & newLoop' & m' & start' & trips' & Hrev & Hinit & Hexpr).
    exists emitted', newLoop', m', start', trips'.
    split; [assumption|]. split; [assumption|].
    intros wd env x Hwd Hx. unfold evalValue in *. rewrite Hexpr.
    apply tripCount_of_tripCounter; [assumption|assumption|].
    destruct (emitTripArith_exprs _ _ _ _ Har)
      as (pred & _ & _ & _ & Hit & _).
    rewrite Hit in Hx. eapply tripCount_nonneg; eassumption.
Qed.

Lemma cloneReversedLoop_twice_witness :
  (exists emitted newLoop n',
     cloneReversedLoop 0 Samples.valueLoop 1000 =
       Some ((emitted, newLoop), n') /\
     isaCountedLoop newLoop = Some false /\
     forall ins' m, cloneReversedLoop ins' newLoop m = None) /\
  (exists emitted newLoop n' trips,
     cloneReversedLoop 0 Samples.memoryLoop 1000 =
       Some ((emitted, newLoop), n') /\
     isaCountedLoop newLoop = Some true /\
     LoopOp.getInitArgs newLoop = [trips] /\
     forall ins' m,
     exists emitted' newLoop' m' start' trips',
       cloneReversedLoop ins' newLoop m = Some ((emitted', newLoop'), m') /\
       LoopOp.getInitArgs newLoop' = [start'; trips'] /\
       forall (w : Z) (env : Value -> option Z) (x : Z),
         (0 < w)%Z ->
         evalValue w env trips = Some x -> evalValue w env trips' = Some x).
Proof.
  split.
  - eexists _, _, _. split; [vm_compute; reflexivity|].
    edestruct (@cloneReversedLoop_twice 0 Samples.valueLoop 1000)
      as [(_ & H1 & H2)|(Hphi & _)];
      [reflexivity | reflexivity | reflexivity | reflexivity
      | repeat constructor; cbn; lia | vm_compute; reflexivity | |].
    + split; [exact H1 | exact H2].
    + vm_compute in Hphi. discriminate.
  - eexists _, _, _, _. split; [vm_compute; reflexivity|].
    edestruct (@cloneReversedLoop_twice 0 Samples.memoryLoop 1000)
      as [(Hphi & _)|(_ & H1 & trips & H2 & H3)];
      [reflexivity | reflexivity | reflexivity | reflexivity
      | constructor | vm_compute; reflexivity | |].
    + vm_compute in Hphi. discriminate.
    + split; [exact H1|]. inv H2. split; [reflexivity | exact H3].
Defined.

(** C2, counterexample.  The value-domain loop [for (i = 0; i < 10; i += 1)]
    is accepted, its reversal is rejected by the recognizer and the engine
    is undefined on it.  The memory-domain loop is accepted and so is its
    reversal; the loop reversed twice runs ten times, but its body sees
    [i = 9, ..., 0] as in the loop reversed once, and it leaves
    [i = -1] where the original leaves [i = 10]. *)
Lemma cloneReversedLoop_twice_not_identity :
  isaCountedLoop Samples.valueLoop = Some true /\
  (exists emitted newLoop n',
     cloneReversedLoop 0 Samples.valueLoop 1000 =
       Some ((emitted, newLoop), n') /\
     isaCountedLoop newLoop = Some false /\
     cloneReversedLoop 0 newLoop n' = None) /\
  isaCountedLoop Samples.memoryLoop = Some true /\
  Samples.observe Samples.memoryInit Samples.memoryLoop =
    Some ([[]; []; []; []; []; []; []; []; []; []],
          [[0]; [1]; [2]; [3]; [4]; [5]; [6]; [7]; [8]; [9]], [], [10])%Z /\
  Samples.observeReversedTwice Samples.memoryInit Samples.memoryLoop =
    Some ([[1; 10]; [2; 9]; [3; 8]; [4; 7]; [5; 6]; [6; 5]; [7; 4]; [8; 3];
           [9; 2]; [10; 1]],
          [[9]; [8]; [7]; [6]; [5]; [4]; [3]; [2]; [1]; [0]],
          [11; 0], [2 ^ 64 - 1])%Z.
Proof.
  split; [reflexivity|]. split.
  - eexists _, _, _. split; [vm_compute; reflexivity|].
    split; vm_compute; reflexivity.
  - repeat split; vm_compute; reflexivity.
Qed.
(** * Further properties of the pass *)

(** ** The analysis and the names of the variants *)

Lemma infoFind_app (k : option Operation) (m : ApplyOpAnalysisInfo)
  (k' : option Operation) (v : ApplyVariants) :
  infoFind k (m ++ [(k', v)]) =
  match infoFind k m with
  | Some x => Some x
  | None => if optop_eqb k' k then Some v else None
  end.
Proof.
  unfold infoFind. induction m as [|e m IH]; cbn.
  - now destruct (optop_eqb k' k).
  - destruct (optop_eqb (fst e) k); [reflexivity|exact IH].
Qed.

Lemma infoFind_congr (k k' : option Operation) (m : ApplyOpAnalysisInfo) :
  optop_eqb k' k = true -> infoFind k' m = infoFind k m.
Proof.
  intros H. unfold infoFind. induction m as [|e m IH]; cbn; [reflexivity|].
  rewrite (optop_eqb_sym (fst e) k'), (optop_eqb_sym (fst e) k).
  rewrite <- (optop_eqb_trans _ _ (fst e) H).
  rewrite (optop_eqb_sym k' k) in H.
  destruct (optop_eqb k (fst e)) eqn:E.
  - reflexivity.
  - exact IH.
Qed.

Section Analysis.
Variable applyToVariant : Operation -> bool.
Variable uninitialized : ApplyVariants.
Variable module : ModuleOp.

Lemma analyseApply_fold (k : option Operation) (l : list Operation) :
  forall m,
  infoFind k (fold_left (analyseApply applyToVariant uninitialized module) l m)
  = match infoFind k m with
    | Some v => Some v
    | None =>
        match find (fun site => applyToVariant site &&
                                optop_eqb (calleeOp module site) k) l with
        | Some site => Some (markVariant site uninitialized)
        | None => None
        end
    end.
Proof.
  induction l as [|site l IH]; intros m; cbn [fold_left find].
  - now destruct (infoFind k m).
  - rewrite IH. unfold analyseApply.
    destruct (applyToVariant site); cbn [negb andb]; [|reflexivity].
    fold (calleeOp module site).
    unfold infoInsert.
    destruct (infoFind (calleeOp module site) m) as [v0|] eqn:E0.
    + destruct (optop_eqb (calleeOp module site) k) eqn:Ek; [|reflexivity].
      rewrite <- (@infoFind_congr _ _ m Ek), E0. reflexivity.
    + rewrite infoFind_app.
      destruct (infoFind k m) as [v|] eqn:E1; [reflexivity|].
      destruct (optop_eqb (calleeOp module site) k) eqn:Ek; reflexivity.
Qed.

(** X1. The entry that [performAnalysis] records for a function is decided
    by the first apply site of the module, in walk order, that needs a
    variant and refers to that function: the entry holds the flags of the
    uninitialised local with the one flag of that site set, and a function
    that no such site refers to has no entry.  Apply sites whose callee is
    absent share the entry of the null operation. *)
Theorem performAnalysis_first_site (k : option Operation) :
  infoFind k (performAnalysis applyToVariant uninitialized module) =
  match find (fun site => applyToVariant site &&
                          optop_eqb (calleeOp module site) k)
             (filter (isa ApplyOp.name) (walkOps module)) with
  | Some site => Some (markVariant site uninitialized)
  | None => None
  end.
Proof. unfold performAnalysis. now rewrite analyseApply_fold. Qed.
End Analysis.

Lemma append_inj_l (n s t : string) :
  String.append n s = String.append n t -> s = t.
Proof.
  induction n as [|c n IH]; cbn; intros H; [exact H|].
  inv H. now apply IH.
Qed.

Lemma append_assoc (a b c : string) :
  String.append (String.append a b) c = String.append a (String.append b c).
Proof. induction a as [|x a IH]; cbn; [reflexivity|now rewrite IH]. Qed.

Lemma append_nil_r (a : string) : String.append a "" = a.
Proof. induction a as [|x a IH]; cbn; [reflexivity|now rewrite IH]. Qed.

(** X2. The names of a function and of its three variants are pairwise
    different, the control variant of the adjoint variant carries the name
    of the adjoint-control variant, and [getVariantFunctionName] returns the
    name of the function itself exactly for an apply site that is neither
    adjoint nor controlled, and the adjoint-control name exactly for a site
    that is both. *)
Theorem variant_names (n : string) :
  NoDup [n; getAdjVariantFunctionName n; getCtrlVariantFunctionName n;
         getAdjCtrlVariantFunctionName n] /\
  getCtrlVariantFunctionName (getAdjVariantFunctionName n) =
    getAdjCtrlVariantFunctionName n /\
  forall appOp,
    (getVariantFunctionName appOp n = n <->
     ApplyOp.getIsAdj appOp = false /\
     empty (ApplyOp.getControls appOp) = true) /\
    (getVariantFunctionName appOp n = getAdjCtrlVariantFunctionName n <->
     ApplyOp.getIsAdj appOp = true /\
     empty (ApplyOp.getControls appOp) = false).
Proof.
  unfold getAdjVariantFunctionName, getCtrlVariantFunctionName,
    getAdjCtrlVariantFunctionName.
  assert (D : forall s t, s <> t ->
                String.append n s <> String.append n t).
  { intros s t Hne E. apply Hne. eapply append_inj_l. exact E. }
  assert (D0 : forall s, s <> "" -> n <> String.append n s).
  { intros s Hne E. rewrite <- (append_nil_r n) in E at 1.
    apply append_inj_l in E. now apply Hne. }
  split; [|split].
  - repeat constructor; cbn; intuition;
      try (eapply D0; [|eassumption]; discriminate);
      try (eapply D; [|eassumption]; discriminate);
      try (eapply D0; [|symmetry; eassumption]; discriminate).
  - now rewrite append_assoc.
  - intros appOp. unfold getVariantFunctionName,
      getAdjVariantFunctionName, getCtrlVariantFunctionName,
      getAdjCtrlVariantFunctionName.
    destruct (ApplyOp.getIsAdj appOp), (empty (ApplyOp.getControls appOp));
      cbn; split; split; intros H; try tauto; try (destruct H; discriminate);
      exfalso;
      try (symmetry in H; eapply D0; [|eassumption]; discriminate);
      try (eapply D0; [|eassumption]; discriminate);
      try (eapply D; [|eassumption]; discriminate).
Qed.

(** ** The candidates of the induction in memory *)

Lemma scanStack_app (blk : nat) (a b : list Operation) :
  scanStack blk (a ++ b) =
  (rb <- scanStack blk b ;; ra <- scanStack blk a ;; Some (rb ++ ra)).
Proof.
  induction a as [|x a IH]; cbn [app scanStack].
  - destruct (scanStack blk b); cbn; [now rewrite app_nil_r|reflexivity].
  - rewrite IH. destruct (scanStack blk b) as [rb|]; cbn [Res.bind].
    + destruct (scanStack blk a) as [ra|]; cbn [Res.bind]; [|reflexivity].
      destruct (scanTemps blk x); cbn [Res.bind]; [|reflexivity].
      now rewrite app_assoc.
    + reflexivity.
Qed.

Lemma scanTemps_unfold (blk : nat) (op : Operation) :
  scanTemps blk op =
  if isa "memref.load" op then loadedCell op
  else scanStack blk (defsInBlock blk (getOperands op)).
Proof.
  destruct op as [i n vs a t r b]. cbn [scanTemps]. unfold isa.
  cbn [op_name getOperands]. destruct (String.eqb n "memref.load");
    [reflexivity|].
  unfold defsInBlock. induction vs as [|v vs IH]; [reflexivity|].
  cbn [flat_map]. rewrite scanStack_app, <- IH.
  destruct ((fix go (l : list Value) : option (list Operation) := _) vs)
    as [rest|]; cbn [Res.bind]; [|reflexivity].
  destruct v as [x ty|d k]; cbn [getDefiningOp scanStack Res.bind].
  - reflexivity.
  - destruct (Nat.eqb (getBlock d) blk); cbn [scanStack Res.bind];
      [|reflexivity].
    destruct (scanTemps blk d); reflexivity.
Qed.

Lemma populate_loop_scan (blk : nat) (fuel : nat) :
  forall wl res,
  worklistSize wl <= fuel -> empty wl = false ->
  populate_loop fuel blk wl res =
  (r <- scanStack blk wl ;; Some (res ++ r)).
Proof.
  induction fuel as [|fuel IH]; intros wl res Hsz Hne.
  - apply worklistSize_nonempty in Hne. lia.
  - cbn [populate_loop].
    destruct wl as [|op wl _] using rev_ind; [discriminate|].
    rewrite back_app_single. cbn [Res.bind]. rewrite removelast_last.
    rewrite scanStack_app. cbn [scanStack Res.bind].
    rewrite worklistSize_app in Hsz. unfold worklistSize at 2 in Hsz.
    cbn in Hsz.
    pose proof (op_size_operands op blk) as Ho.
    rewrite (scanTemps_unfold blk op).
    assert (E : forall r0,
              (if empty wl then Some (res ++ r0)
               else populate_loop fuel blk wl (res ++ r0)) =
              (rest <- scanStack blk wl ;; Some (res ++ r0 ++ rest))).
    { intros r0. destruct (empty wl) eqn:Ee.
      - destruct wl; [|discriminate]. cbn. now rewrite app_nil_r.
      - rewrite IH by (assumption || lia).
        destruct (scanStack blk wl); cbn [Res.bind]; [|reflexivity].
        now rewrite app_assoc. }
    pose proof (E []) as E0. rewrite app_nil_r in E0. cbn [app] in E0.
    destruct (isa "memref.load" op) eqn:Hl.
    + unfold loadedCell.
      destruct (LoadOp.getMemRef op) as [m|]; cbn [Res.bind]; [|reflexivity].
      destruct (getDefiningOp m) as [d|].
      * destruct (isa "memref.alloca" d && isScalarIntegral _);
          cbn [Res.bind fst snd].
        -- rewrite E. destruct (scanStack blk wl); reflexivity.
        -- rewrite E0. destruct (scanStack blk wl); reflexivity.
      * cbn [Res.bind fst snd]. rewrite E0.
        destruct (scanStack blk wl); reflexivity.
    + cbn [Res.bind fst snd].
      destruct (empty (wl ++ defsInBlock blk (getOperands op))) eqn:Ee.
      * destruct wl; [|discriminate]. cbn [app] in Ee.
        destruct (defsInBlock blk (getOperands op)); [|discriminate].
        cbn. now rewrite app_nil_r.
      * rewrite IH by (assumption || (rewrite worklistSize_app; lia)).
        rewrite scanStack_app.
        destruct (scanStack blk (defsInBlock blk (getOperands op)));
          cbn [Res.bind]; [|reflexivity].
        destruct (scanStack blk wl); reflexivity.
Qed.

Lemma loadedCell_cells (op : Operation) (temps : list Operation) :
  loadedCell op = Some temps -> Forall scalarCell temps.
Proof.
  unfold loadedCell. intros H. bind_inv H.
  destruct (getDefiningOp v) as [d|]; [|inv H; constructor].
  destruct (isa "memref.alloca" d && isScalarIntegral _) eqn:Ea;
    inv H; constructor; [|constructor].
  apply andb_prop in Ea. exact Ea.
Qed.

Lemma scanTemps_cells (blk : nat) :
  forall op temps, scanTemps blk op = Some temps -> Forall scalarCell temps.
Proof.
  fix IH 1. intros [i n vs a t rs b] temps H. cbn [scanTemps] in H.
  destruct (String.eqb n "memref.load");
    [now apply loadedCell_cells in H|].
  revert temps H. induction vs as [|v vs IHvs]; intros temps H.
  - inv H. constructor.
  - bind_inv H. bind_inv H. inv H. apply Forall_app. split.
    + now apply IHvs.
    + destruct v as [x ty|d k]; [inv E0; constructor|].
      destruct (Nat.eqb (getBlock d) blk); [|inv E0; constructor].
      now apply IH in E0.
Qed.

(** X3. The work-list loop of [populateComparisonTemps] computes the
    depth-first scan of the expression tree of the comparison inside the
    while block, the last operand first, which does not look through a
    memref.load; every candidate that it returns is a memref.alloca of a
    scalar of integer type. *)
Theorem populateComparisonTemps_scan (cmpOp : Operation)
  (whileBlock : Block) :
  populateComparisonTemps cmpOp whileBlock =
    scanTemps (blk_id whileBlock) cmpOp /\
  forall temps,
    populateComparisonTemps cmpOp whileBlock = Some temps ->
    Forall scalarCell temps.
Proof.
  assert (E : populateComparisonTemps cmpOp whileBlock =
              scanTemps (blk_id whileBlock) cmpOp).
  { unfold populateComparisonTemps.
    rewrite populate_loop_scan; [|unfold worklistSize; cbn; lia|reflexivity].
    cbn [scanStack Res.bind app].
    destruct (scanTemps (blk_id whileBlock) cmpOp); reflexivity. }
  split; [exact E|]. intros temps H. rewrite E in H.
  eapply scanTemps_cells. exact H.
Qed.

(** ** The loop reversal engine *)

(** X9. [cloneRootSubexpression] always returns: for a root defined by an
    operation of the block it creates one operation per node of the
    expression tree inside the block, the last one a copy of the definition
    of the root with the operands of the original (not of the copies made
    before it), and returns the first result of that copy; any other root is
    returned as it is and nothing is created. *)
Theorem cloneRootSubexpression_result (ins block : nat) :
  forall (root : Value) (n : nat),
  exists ops v,
    cloneRootSubexpression ins block root n =
      Some ((ops, v), n + clonesOf block root) /\
    List.length ops = clonesOf block root /\
    match getDefiningOp root with
    | Some op =>
        if Nat.eqb (getBlock op) block then
          exists c,
            v = OpResult c 0 /\ back ops = Some c /\
            op_id c = n + clonesOf block root - 1 /\
            op_name c = op_name op /\ getOperands c = getOperands op /\
            getAttrs c = getAttrs op /\ getBlock c = ins
        else ops = [] /\ v = root
    | None => ops = [] /\ v = root
    end.
Proof.
  fix IH 1. intros [a ty | [i nm vs ats tys rs owner] idx] n.
  - exists [], (BlockArg a ty). cbn. rewrite Nat.add_0_r. auto.
  - cbn [cloneRootSubexpression clonesOf getDefiningOp getBlock].
    destruct (Nat.eqb owner block) eqn:Eo.
    2:{ eexists [], _. unfold Bld.ret. rewrite Nat.add_0_r. auto. }
    set (go := fix go (l : list Value) : Builder (list Operation) :=
                 match l with
                 | [] => Bld.ret []
                 | v :: l' =>
                     r <~ cloneRootSubexpression ins block v ;;
                     rest <~ go l' ;; Bld.ret (fst r ++ rest)
                 end).
    set (cnt := fix go (l : list Value) : nat :=
                  match l with
                  | [] => 0
                  | v :: l' => clonesOf block v + go l'
                  end).
    assert (Hgo : forall l m, (forall v, In v l -> True) ->
              exists subs, go l m = Some (subs, m + cnt l) /\
                           List.length subs = cnt l).
    { induction l as [|v l IHl]; intros m _.
      - exists []. cbn. unfold Bld.ret. now rewrite Nat.add_0_r.
      - destruct (IH v m) as (ops1 & v1 & E1 & L1 & _).
        destruct (IHl (m + clonesOf block v) (fun _ _ => I))
          as (subs & E2 & L2).
        exists (ops1 ++ subs). cbn [go cnt]. unfold Bld.bind.
        rewrite E1. cbn [fst]. fold go. rewrite E2. unfold Bld.ret.
        rewrite length_app, L1, L2. split; [|reflexivity].
        do 2 f_equal. lia. }
    destruct (Hgo vs n (fun _ _ => I)) as (subs & E & L).
    unfold Bld.bind. rewrite E. unfold Bld.clone, Bld.create, Bld.ret.
    cbn [op_name getOperands getAttrs getResultTypes getRegions].
    eexists _, _. split; [do 2 f_equal; lia|].
    split; [rewrite length_app, L; cbn; lia|].
    eexists. split; [reflexivity|]. split; [apply back_app_single|].
    cbn. repeat split. lia.
Qed.

Lemma buildStepRegion_value_single (loop : Operation) (p : LoopParts)
  (ty : Ty) (n : nat) (s : Region) (n' : nat) (sb : Block) :
  inductionIsValue p = true ->
  LoopOp.getStepRegion loop = [sb] ->
  buildStepRegion loop p ty n = Some (s, n') ->
  exists bumpOp oneOp decOp,
    s = [mkBlock (blk_id sb) (blk_args sb ++ [(n, ty)])
           (removelast (blk_ops sb) ++
            [bumpOp; oneOp; decOp;
             mkOp (4 + n) "cc.continue"
               [OpResult bumpOp 0; OpResult decOp 0] [] [] [] (blk_id sb)])]
    /\ n' = 5 + n.
Proof.
  intros Hv Hr H. unfold buildStepRegion in H. rewrite Hv, Hr in H.
  cbn [negb] in H. bld_bind H stepped n1 Hst. inv Hst.
  bld_lift H f Hf. bld_bind H a n3 Ha. inv Ha.
  cbn [updFront] in H. bld_lift H entry He. inv He.
  bld_lift H lastBlock Hl. inv Hl. bld_lift H contOp Hc.
  bld_check H Hi. bld_bind H bump n4 Hb.
  bld_lift Hb next Hn. bld_lift Hb sOp Hs. bld_bind Hb newBump n5 Hnb.
  assert (exists bumpOp, newBump = OpResult bumpOp 0 /\ n5 = S (S a)).
  { destruct (stepIsAnAddOp p).
    - bld_lift Hnb o0 Ho0. bld_lift Hnb o1 Ho1.
      destruct (commuteTheAddOp p); inv Hnb; eauto.
    - bld_bind Hnb o n6 Ho. inv Ho. inv Hnb. eauto. }
  destruct H0 as (bumpOp & -> & ->).
  inv Hb. rewrite getArguments_addArgument, back_app_single in H.
  cbn in H. inv H. exists bumpOp. eexists _, _. split; [|reflexivity].
  destruct sb. reflexivity.
Qed.

Lemma verify_inv (loop : Operation) (wb bb sb : Block) :
  LoopOpVerifier.verify loop = Some true ->
  LoopOp.getWhileRegion loop = [wb] ->
  LoopOp.getBodyRegion loop = [bb] ->
  LoopOp.getStepRegion loop = [sb] ->
  let k := List.length (LoopOp.getInitArgs loop) in
  List.length (getResults loop) = k /\
  List.length (blk_args wb) = k /\
  (exists condOp,
     back (blk_ops wb) = Some condOp /\
     isa ConditionOp.name condOp = true /\
     List.length (ConditionOp.getResults condOp) = k) /\
  List.length (blk_args bb) = k /\
  List.length (blk_args sb) = k.
Proof.
  intros Hv Hw Hb Hs k. unfold LoopOpVerifier.verify in Hv.
  rewrite Hw, Hb, Hs in Hv. fold k in Hv.
  cbn [front hd_error Res.bind empty negb] in Hv.
  unfold getArguments in Hv. rewrite !length_map in Hv.
  destruct (Nat.eqb (List.length (getResults loop)) k) eqn:E0;
    [|discriminate].
  cbn [negb] in Hv.
  destruct (Nat.eqb (List.length (blk_args wb)) k) eqn:E1; [|discriminate].
  cbn [negb] in Hv. unfold getTerminator in Hv.
  destruct (back (blk_ops wb)) as [condOp|]; [|discriminate].
  cbn [Res.bind] in Hv.
  destruct (isa ConditionOp.name condOp) eqn:Ei; [|discriminate].
  cbn [negb] in Hv.
  destruct (Nat.eqb (List.length (ConditionOp.getResults condOp)) k) eqn:E2;
    [|discriminate].
  cbn [negb] in Hv.
  destruct (Nat.eqb (List.length (blk_args bb)) k) eqn:E3; [|discriminate].
  cbn [negb] in Hv.
  destruct (Nat.eqb (List.length (blk_args sb)) k) eqn:E4; [|discriminate].
  apply Nat.eqb_eq in E0, E1, E2, E3, E4.
  repeat split; try assumption. exists condOp. auto.
Qed.

Lemma eqb_succ_two (k : nat) : Nat.eqb (k + 1) 2 = Nat.eqb k 1.
Proof. destruct k as [|[|k']]; cbn; try reflexivity. now rewrite Nat.add_comm. Qed.

(** X10. The loop that [cloneReversedLoop] builds from a verified counted
    loop with one block per region passes [LoopOp::verify] when the
    induction is in memory; when the induction is a value it passes exactly
    when the original loop carries one value, since the new loop is created
    with two initial arguments whatever the number of block arguments. *)
Theorem cloneReversedLoop_verifies
  (ins : nat) (loop : Operation) (n : nat) (emitted : list Operation)
  (newLoop : Operation) (n' : nat) (whileBlock stepBlock : Block) :
  isaCountedLoop loop = Some true ->
  LoopOpVerifier.verify loop = Some true ->
  LoopOp.getWhileRegion loop = [whileBlock] ->
  LoopOp.getStepRegion loop = [stepBlock] ->
  cloneReversedLoop ins loop n = Some ((emitted, newLoop), n') ->
  LoopOpVerifier.verify newLoop =
    Some (match hasMonotonicPHIControl loop with
          | Some true => Nat.eqb (List.length (LoopOp.getInitArgs loop)) 1
          | _ => true
          end).
Proof.
  intros Hcounted Hver Hwr Hsr H.
  apply cloneReversedLoop_inv in H.
  destruct H as (pre & p & n1 & arith & t & n2 & st & n3 & w & n4 & b & n5 &
                 s & n6 & Hex & Har & Hle & Hw & Hb & Hs & -> & ->).
  destruct (extractLoopParts_shape _ _ _ Hex) as (Hphi & _).
  destruct (isaCountedLoop_true_inv _ Hcounted)
    as (_ & _ & _ & Hind & bb & term & Hbr & _ & _).
  destruct (verify_inv _ Hver Hwr Hbr Hsr)
    as (Kr & Kw & (condOp & Hcond & Hic & Kc) & Kb & Ks).
  destruct (buildWhileRegion_single _ _ _ _ Hwr Hw)
    as (condOp' & Hcond' & _ & -> & ->).
  rewrite Hcond in Hcond'. inv Hcond'.
  destruct (buildBodyRegion_single _ _ _ Hbr Hb) as [-> ->].
  rewrite Hphi.
  set (k := List.length (LoopOp.getInitArgs loop)) in *.
  destruct (inductionIsValue p) eqn:Hv.
  - destruct (buildStepRegion_value_single _ _ _ _ Hv Hsr Hs)
      as (bumpOp & oneOp & decOp & -> & ->).
    unfold LoopOpVerifier.verify.
    cbn [LoopOp.getInitArgs getOperands app List.length getResults
         getNumResults getResultTypes map length_map seq Nat.eqb negb
         LoopOp.getWhileRegion LoopOp.getBodyRegion LoopOp.getStepRegion
         getRegions nth snd front hd_error Res.bind empty].
    unfold getArguments, reversedWhileBlock at 1. cbn [blk_args].
    rewrite !length_map, !length_app, Kw. cbn [List.length].
    rewrite eqb_succ_two.
    destruct (Nat.eqb k 1) eqn:Ek; [|reflexivity].
    cbn [negb]. unfold getTerminator, reversedWhileBlock at 1.
    cbn [blk_ops]. rewrite back_app_two. cbn [Res.bind].
    change (isa ConditionOp.name (mkOp _ ConditionOp.name _ _ _ _ _))
      with true. cbn [negb].
    unfold ConditionOp.getResults at 1. cbn [getOperands tl].
    rewrite length_app, Kc. cbn [List.length].
    apply Nat.eqb_eq in Ek. rewrite Ek. cbn [Nat.add Nat.eqb negb].
    unfold reversedBodyBlock at 1. cbn [blk_args].
    rewrite length_app, Kb, Ek. cbn [List.length Nat.add Nat.eqb negb].
    rewrite Ks, Ek. cbn [Nat.add Nat.eqb negb].
    change (removelast (blk_ops stepBlock) ++ [bumpOp; oneOp; decOp; ?x])
      with (removelast (blk_ops stepBlock) ++ [bumpOp; oneOp] ++ [decOp; x]).
    rewrite app_assoc, back_app_two. reflexivity.
  - destruct (buildStepRegion_memory_single _ _ _ _ Hv Hsr Hs)
      as (sb' & Hid & Hargs & -> & ->).
    assert (Hlcv : hasMonotonicLCV loop = Some true).
    { unfold hasMonotonicControlInduction in Hind.
      destruct (hasMonotonicLCV loop) as [[|]|]; cbn in Hind;
        congruence. }
    destruct (verify_memory_loop _ Hver Hlcv Hwr Hbr Hsr)
      as (Hi & Hwa & Hba & Hsa & condOp & Hcond2 & Hres).
    rewrite Hcond in Hcond2. inv Hcond2. rewrite Hsa in Hargs.
    unfold LoopOpVerifier.verify.
    cbn [LoopOp.getInitArgs getOperands app List.length getResults
         getNumResults getResultTypes map length_map seq Nat.eqb negb
         LoopOp.getWhileRegion LoopOp.getBodyRegion LoopOp.getStepRegion
         getRegions nth snd front hd_error Res.bind empty].
    unfold getArguments, getTerminator, reversedWhileBlock,
      reversedBodyBlock, reversedStepBlock.
    cbn [blk_args blk_ops]. rewrite Hwa, Hba, Hargs, Hres, back_app_two.
    unfold ConditionOp.getResults.
    cbn [Res.bind getOperands tl]. rewrite back_app_three.
    reflexivity.
Qed.

(** ** The reversal of a block *)

Section Twice.
Variable hasQuantum : Operation -> bool.
Variable hasTraitHermitian : Operation -> bool.
Variable isaOperatorInterface : Operation -> bool.

Local Notation selfAdjointGate' :=
  (selfAdjointGate hasTraitHermitian isaOperatorInterface).
Local Notation reverse :=
  (reverseTheOpsInTheBlock hasQuantum hasTraitHermitian isaOperatorInterface).
Local Notation classical := (fun op => negb (hasQuantum op)).

Lemma reverse_selfAdjoint_block (fuel : nat) (block : Block)
  (pre : list Operation) (term : Operation) (n : nat) :
  blk_ops block = pre ++ [term] ->
  hasQuantum term = false ->
  NoDup (map op_id (blk_ops block)) ->
  Forall (fun op => getBlock op = blk_id block) pre ->
  Forall selfAdjointGate' (filter hasQuantum pre) ->
  reverse (S fuel) block term (getOpsToInvert hasQuantum block) n =
  Some (mkBlock (blk_id block) (blk_args block)
          (filter classical pre ++ rev (filter hasQuantum pre) ++ [term]), n).
Proof.
  destruct block as [bid args ops]. intros Hops Hterm Hnd Hb Hg.
  cbn [blk_ops blk_id blk_args] in *. subst ops.
  cbn [reverseTheOpsInTheBlock]. unfold getOpsToInvert. cbn [blk_ops].
  rewrite filter_app. cbn [filter]. rewrite Hterm, app_nil_r.
  rewrite map_app in Hnd. cbn [map] in Hnd.
  assert (Hpre : NoDup (map op_id pre))
    by (eapply NoDup_app_remove_r; exact Hnd).
  assert (Hnt : Forall (fun x => op_id x <> op_id term) pre).
  { apply Forall_forall. intros x Hx E.
    apply NoDup_remove_2 in Hnd. rewrite app_nil_r in Hnd.
    apply Hnd. rewrite <- E. now apply in_map. }
  replace (pre ++ [term]) with (pre ++ [] ++ [term]) by reflexivity.
  rewrite reverseLoop_selfAdjoint.
  + cbn [app]. do 4 f_equal. apply filter_ext_in. intros x Hx.
    now rewrite existsb_op_eqb_filter.
  + now apply Forall_rev.
  + apply Forall_rev. apply Forall_forall. intros x Hx.
    apply filter_In in Hx. rewrite Forall_forall in Hb. now apply Hb.
  + rewrite map_rev. apply NoDup_rev. now apply NoDup_map_filter.
  + cbn [app]. apply Forall_app. split; [assumption|].
    apply Forall_rev. apply Forall_forall. intros x Hx.
    apply filter_In in Hx. rewrite Forall_forall in Hnt. now apply Hnt.
  + constructor.
Qed.

Lemma filter_classical_quantum (l : list Operation) :
  filter hasQuantum (filter classical l) = [].
Proof.
  induction l as [|x l IH]; [reflexivity|]. cbn [filter].
  destruct (hasQuantum x) eqn:E; cbn [negb filter]; [exact IH|].
  now rewrite E.
Qed.

Lemma filter_idem {A : Type} (f : A -> bool) (l : list A) :
  filter f (filter f l) = filter f l.
Proof.
  induction l as [|x l IH]; [reflexivity|]. cbn [filter].
  destruct (f x) eqn:E; cbn [filter]; [rewrite E; now f_equal|exact IH].
Qed.

Lemma filter_quantum_classical (l : list Operation) :
  filter classical (filter hasQuantum l) = [].
Proof.
  induction l as [|x l IH]; [reflexivity|]. cbn [filter].
  destruct (hasQuantum x) eqn:E; cbn [negb filter]; [|exact IH].
  now rewrite E.
Qed.

Lemma NoDup_partition (l : list Operation) :
  NoDup (map op_id l) ->
  NoDup (map op_id (filter classical l ++ rev (filter hasQuantum l))).
Proof.
  intros H. rewrite map_app, map_rev. apply NoDup_app.
  - now apply NoDup_map_filter.
  - apply NoDup_rev. now apply NoDup_map_filter.
  - intros a Ha Hr. apply in_rev in Hr.
    apply in_map_iff in Ha. destruct Ha as (x & Ex & Hx).
    apply in_map_iff in Hr. destruct Hr as (y & Ey & Hy).
    apply filter_In in Hx. destruct Hx as [Hx Hcx].
    apply filter_In in Hy. destruct Hy as [Hy Hqy].
    assert (x = y) by (eapply same_id_same_op; eauto; congruence).
    subst y. rewrite Hqy in Hcx. discriminate.
Qed.

(** X11. On a block of self-adjoint gates and classical operations,
    [reverseTheOpsInTheBlock] applied twice restores the order of the
    quantum operations; the result is the original block with the classical
    operations moved in front of the quantum ones. *)
Theorem reverseTheOpsInTheBlock_twice (fuel fuel' : nat) (block : Block)
  (pre : list Operation) (term : Operation) (n : nat) :
  blk_ops block = pre ++ [term] ->
  hasQuantum term = false ->
  NoDup (map op_id (blk_ops block)) ->
  Forall (fun op => getBlock op = blk_id block) pre ->
  Forall selfAdjointGate' (filter hasQuantum pre) ->
  exists once,
    reverse (S fuel) block term (getOpsToInvert hasQuantum block) n =
      Some (once, n) /\
    reverse (S fuel') once term (getOpsToInvert hasQuantum once) n =
      Some (mkBlock (blk_id block) (blk_args block)
              (filter classical pre ++ filter hasQuantum pre ++ [term]), n).
Proof.
  intros Hops Hterm Hnd Hb Hg. eexists. split.
  - exact (@reverse_selfAdjoint_block fuel block pre term n Hops Hterm Hnd
             Hb Hg).
  - set (pre1 := filter classical pre ++ rev (filter hasQuantum pre)).
    assert (Hq1 : filter hasQuantum pre1 = rev (filter hasQuantum pre)).
    { unfold pre1. rewrite filter_app, filter_classical_quantum.
      cbn [app]. now rewrite filter_rev, filter_idem. }
    assert (Hc1 : filter classical pre1 = filter classical pre).
    { unfold pre1. rewrite filter_app, filter_idem, filter_rev.
      rewrite filter_quantum_classical. apply app_nil_r. }
    rewrite (@reverse_selfAdjoint_block fuel' _ pre1 term n).
    + cbn [blk_id blk_args]. now rewrite Hq1, Hc1, rev_involutive.
    + cbn [blk_ops]. unfold pre1. now rewrite <- app_assoc.
    + assumption.
    + cbn [blk_ops]. rewrite app_assoc. fold pre1.
      rewrite Hops, map_app in Hnd. rewrite map_app. cbn [map] in *.
      apply NoDup_remove in Hnd. rewrite app_nil_r in Hnd.
      destruct Hnd as [Hnd Hnt].
      apply NoDup_app; [now apply NoDup_partition|repeat constructor; auto|].
      intros a Ha [<-|[]]. apply Hnt.
      unfold pre1 in Ha. rewrite map_app, map_rev in Ha.
      apply in_app_or in Ha. destruct Ha as [Ha|Ha];
        [|apply in_rev in Ha];
        apply in_map_iff in Ha; destruct Ha as (x & <- & Hx);
        apply filter_In in Hx; apply in_map; tauto.
    + cbn [blk_id]. unfold pre1. apply Forall_app. split;
        [|apply Forall_rev]; apply Forall_forall; intros x Hx;
        apply filter_In in Hx; rewrite Forall_forall in Hb; now apply Hb.
    + rewrite Hq1. now apply Forall_rev.
Qed.
End Twice.

(** ** The synthesis of the variants *)

Lemma grows_refl (m : ModuleOp) (st : PassState) : grows m st st.
Proof.
  exists [], []. rewrite !app_nil_r. cbn. rewrite orb_false_r.
  repeat split; constructor.
Qed.

Lemma grows_trans (m : ModuleOp) (a b c : PassState) :
  grows m a b -> grows m b c -> grows m a c.
Proof.
  intros (n1 & e1 & M1 & F1 & D1 & E1 & P1) (n2 & e2 & M2 & F2 & D2 & E2 & P2).
  exists (n1 ++ n2), (e1 ++ e2).
  rewrite M2, M1, D2, D1, P2, P1, !app_assoc.
  repeat split; try (apply Forall_app; split; assumption).
  destruct (passFailed a), e1, e2; reflexivity.
Qed.

Section Step1.
Variable hasCallOp : Operation -> bool.
Variable hasMeasureOp : Operation -> bool.
Variable hasCharacteristic : (Operation -> bool) -> Operation -> bool.
Variable hasQuantum : Operation -> bool.
Variable hasTraitQuantumGate : Operation -> bool.
Variable hasTraitHermitian : Operation -> bool.
Variable isaOperatorInterface : Operation -> bool.

Lemma runBuilder_inv {A : Type} (m : Builder A) (st : PassState) (a : A)
  (st' : PassState) :
  runBuilder m st = Some (a, st') ->
  exists n, m (nextId st) = Some (a, n) /\ st' = withNextId st n.
Proof.
  unfold runBuilder. destruct (m (nextId st)) as [[x n]|]; [|discriminate].
  intros H. inv H. eauto.
Qed.

Lemma createControlVariantOf_new (funcOp : Operation) (st : PassState)
  (c : Operation) (st' : PassState) :
  createControlVariantOf hasTraitQuantumGate funcOp st = Some (c, st') ->
  module st' = module st ++ [c] /\
  diagnostics st' = diagnostics st /\ passFailed st' = passFailed st /\
  isa FuncOp.name c = true /\
  getAttr "sym_visibility" (getAttrs c) = Some (ASym "private") /\
  FuncOp.getName c = getCtrlVariantFunctionName (FuncOp.getName funcOp).
Proof.
  unfold createControlVariantOf. intros H. bind_inv H.
  destruct p as [f st1]. cbn [fst snd Res.bind] in H. inv H.
  apply runBuilder_inv in E. destruct E as (n & E & ->).
  cbn [module withModule withNextId diagnostics passFailed].
  repeat (split; [reflexivity|]).
  bld_bind E newFunc n1 Hc. inv Hc. bld_lift E entry He.
  bld_bind E a n2 Ha. inv Ha. cbn zeta in E.
  rewrite walkAddControl_unfold in E. bld_bind E rs' n3 Hrs. cbn zeta in E.
  destruct (hasTraitQuantumGate _).
  - apply addControlOperand_spec in E.
    destruct E as (_ & Hn & _ & a0 & a1 & a2 & rest & _ & _ & _ & _ & Hk).
    unfold isa, FuncOp.getName. rewrite Hn, !Hk by discriminate.
    repeat split.
  - inv E. repeat split.
Qed.

Local Notation createAdjointVariantOf' :=
  (createAdjointVariantOf hasCallOp hasMeasureOp hasCharacteristic hasQuantum
     hasTraitHermitian isaOperatorInterface).

Lemma failure_grows (m : ModuleOp) (msg : string) (st : PassState) :
  In msg adjointErrors ->
  grows m st (signalPassFailure (emitError msg st)).
Proof.
  intros Hin. exists [], [msg].
  split; [cbn; now rewrite app_nil_r|]. split; [constructor|].
  split; [reflexivity|]. split; [constructor; [exact Hin|constructor]|].
  cbn. now rewrite orb_true_r.
Qed.

(** The two outcomes of [createAdjointVariantOf]. *)
Lemma createAdjointVariantOf_outcome (funcOp : Operation) (funcName : string)
  (st : PassState) (r : option Operation) (st' : PassState) :
  createAdjointVariantOf' funcOp funcName st = Some (r, st') ->
  (r = None /\ module st' = module st /\
   exists msg, In msg adjointErrors /\
     st' = signalPassFailure (emitError msg st)) \/
  (exists newFunc,
     r = Some newFunc /\ module st' = module st ++ [newFunc] /\
     diagnostics st' = diagnostics st /\ passFailed st' = passFailed st /\
     op_name newFunc = FuncOp.name /\
     getAttrs newFunc =
       [("sym_name", ASym funcName);
        ("function_type",
         AFunctionType (FuncOp.getInputs funcOp) (FuncOp.getResultTys funcOp));
        ("sym_visibility", ASym "private")]).
Proof.
  unfold createAdjointVariantOf. intros H. bind_inv H. destruct b.
  { inv H. left. repeat split. eexists. split; [|reflexivity]. cbn. auto. }
  destruct (hasCallOp funcOp).
  { inv H. left. repeat split. eexists. split; [|reflexivity]. cbn. auto. }
  destruct (hasCharacteristic isaCallableExpression funcOp).
  { inv H. left. repeat split. eexists. split; [|reflexivity]. cbn. auto. }
  destruct (hasMeasureOp funcOp).
  { inv H. left. repeat split. eexists. split; [|reflexivity]. cbn. auto 6. }
  bind_inv H. destruct p as [f st1]. cbn [fst snd] in H. inv H.
  apply runBuilder_inv in E0. destruct E0 as (n & E0 & ->).
  right. exists f. cbn [module withModule withNextId diagnostics passFailed].
  repeat (split; [reflexivity|]).
  bld_bind E0 newFunc n1 Hc. inv Hc. bld_lift E0 entry He.
  bld_lift E0 term Ht. bld_bind E0 entry' n2 Hr. inv E0.
  split; reflexivity.
Qed.

Lemma createAdjointVariantOf_grows (m : ModuleOp) (g funcOp : Operation)
  (funcName : string) (st : PassState) (r : option Operation)
  (st' : PassState) :
  In g m ->
  funcName = getAdjVariantFunctionName (FuncOp.getName g) \/
  funcName = getAdjCtrlVariantFunctionName (FuncOp.getName g) ->
  createAdjointVariantOf' funcOp funcName st = Some (r, st') ->
  grows m st st'.
Proof.
  intros Hg Hname H. apply createAdjointVariantOf_outcome in H.
  destruct H as [(-> & Hm & msg & Hin & ->) |
                 (f & -> & Hm & Hd & Hp & Hn & Ha)].
  - now apply failure_grows.
  - exists [f], []. rewrite Hm, Hd, Hp, app_nil_r. cbn. rewrite orb_false_r.
    repeat split; try constructor; [|constructor].
    unfold variantOf, isa, FuncOp.getName. rewrite Hn, Ha. cbn.
    repeat split. exists g. split; [assumption|]. tauto.
Qed.

Lemma createControlVariantOf_grows (m : ModuleOp) (g : Operation)
  (st : PassState) (c : Operation) (st' : PassState) :
  In g m ->
  createControlVariantOf hasTraitQuantumGate g st = Some (c, st') ->
  grows m st st'.
Proof.
  intros Hg H. apply createControlVariantOf_new in H.
  destruct H as (Hm & Hd & Hp & Hi & Hv & Hn).
  exists [c], []. rewrite Hm, Hd, Hp, app_nil_r. cbn. rewrite orb_false_r.
  repeat split; try constructor; [|constructor].
  repeat split; try assumption. exists g. tauto.
Qed.

Lemma createAdjointControlVariantOf_grows (m : ModuleOp) (g : Operation)
  (st : PassState) (r : option Operation) (st' : PassState) :
  In g m ->
  createAdjointControlVariantOf hasCallOp hasMeasureOp hasCharacteristic
    hasQuantum hasTraitQuantumGate hasTraitHermitian isaOperatorInterface
    g st = Some (r, st') ->
  grows m st st'.
Proof.
  intros Hg H. unfold createAdjointControlVariantOf in H. bind_inv H.
  destruct p as [c st1]. cbn [fst snd] in H.
  apply grows_trans with st1.
  - destruct (lookupSymbol (module st) _).
    + inv E. apply grows_refl.
    + eapply createControlVariantOf_grows; eassumption.
  - eapply createAdjointVariantOf_grows; [exact Hg| |exact H]. now right.
Qed.

Lemma specialize_grows (m : ModuleOp) (info : ApplyOpAnalysisInfo)
  (g : Operation) (st st' : PassState) :
  In g m ->
  specialize hasCallOp hasMeasureOp hasCharacteristic hasQuantum
    hasTraitQuantumGate hasTraitHermitian isaOperatorInterface info g st
  = Some st' ->
  grows m st st'.
Proof.
  intros Hg H. unfold specialize in H.
  destruct (infoFind (Some g) info) as [variant|];
    [|inv H; apply grows_refl].
  bind_inv H. bind_inv H. rename p into st1. bind_inv H. rename p into st2.
  apply grows_trans with st1; [|apply grows_trans with st2].
  - destruct (needsControlVariant variant); [|inv E0; apply grows_refl].
    bind_inv E0. inv E0. destruct p.
    eapply createControlVariantOf_grows; eassumption.
  - destruct (needsAdjointVariant variant); [|inv E1; apply grows_refl].
    bind_inv E1. inv E1. destruct p.
    eapply createAdjointVariantOf_grows; [exact Hg| |eassumption]. now left.
  - destruct (needsAdjointControlVariant variant);
      [|inv H; apply grows_refl].
    bind_inv H. inv H. destruct p.
    eapply createAdjointControlVariantOf_grows; eassumption.
Qed.

Lemma step1_globals_grows (m : ModuleOp) (info : ApplyOpAnalysisInfo)
  (globals : list Operation) :
  (forall g, In g globals -> In g m) ->
  forall st st',
  step1_globals hasCallOp hasMeasureOp hasCharacteristic hasQuantum
    hasTraitQuantumGate hasTraitHermitian isaOperatorInterface info globals st
  = Some st' ->
  grows m st st'.
Proof.
  induction globals as [|g l IH]; intros Hin st st' H.
  - inv H. apply grows_refl.
  - cbn [step1_globals] in H. bind_inv H.
    apply grows_trans with p.
    + eapply specialize_grows; [|exact E]. apply Hin. now left.
    + apply IH; [|exact H]. intros x Hx. apply Hin. now right.
Qed.

(** X4. Step 1 only adds variants: every function of the module is still in
    the module after it, every other function of the module after it is a
    private func.func named after a global of the original module with one
    of the three suffixes, the diagnostics are the old ones followed by
    errors of [createAdjointVariantOf], and the pass is marked as failed
    exactly when it was before or an error was reported. *)
Theorem step1_adds_variants (info : ApplyOpAnalysisInfo)
  (st st' : PassState) :
  step1 hasCallOp hasMeasureOp hasCharacteristic hasQuantum
    hasTraitQuantumGate hasTraitHermitian isaOperatorInterface info st
  = Some st' ->
  (forall f, In f (module st) -> In f (module st')) /\
  (forall f, In f (module st') ->
             In f (module st) \/ variantOf (module st) f) /\
  exists errs,
    diagnostics st' = diagnostics st ++ errs /\
    Forall (fun e => In e adjointErrors) errs /\
    passFailed st' = passFailed st || negb (empty errs).
Proof.
  unfold step1. intros H.
  apply (@step1_globals_grows (module st)) in H; [|auto].
  destruct H as (new & errs & Hm & Hv & Hd & He & Hp).
  split; [|split].
  - intros f Hf. rewrite Hm. apply in_or_app. now left.
  - intros f Hf. rewrite Hm in Hf. apply in_app_or in Hf.
    destruct Hf as [Hf|Hf]; [now left|right].
    rewrite Forall_forall in Hv. now apply Hv.
  - exists errs. auto.
Qed.

(** X8. When [createAdjointControlVariantOf] fails, the pass is marked as
    failed and one error is reported, and the control variant that it
    created on the way stays in the module: the module is unchanged only if
    the control variant was there before. *)
Theorem createAdjointControlVariantOf_failure_keeps_ctrl (g : Operation)
  (st st' : PassState) :
  createAdjointControlVariantOf hasCallOp hasMeasureOp hasCharacteristic
    hasQuantum hasTraitQuantumGate hasTraitHermitian isaOperatorInterface
    g st = Some (None, st') ->
  passFailed st' = true /\
  (exists msg, In msg adjointErrors /\
               diagnostics st' = diagnostics st ++ [msg]) /\
  match lookupSymbol (module st)
          (getCtrlVariantFunctionName (FuncOp.getName g)) with
  | Some _ => module st' = module st
  | None =>
      exists c,
        module st' = module st ++ [c] /\
        isa FuncOp.name c = true /\
        FuncOp.getName c = getCtrlVariantFunctionName (FuncOp.getName g)
  end.
Proof.
  intros H. unfold createAdjointControlVariantOf in H. bind_inv H.
  destruct p as [c st1]. cbn [fst snd] in H.
  apply createAdjointVariantOf_outcome in H.
  destruct H as [(_ & Hm & msg & Hin & ->) | (f & Hf & _)];
    [|discriminate].
  cbn [passFailed signalPassFailure emitError diagnostics module] in *.
  split; [reflexivity|].
  destruct (lookupSymbol (module st) _).
  - inv E. split; [eauto|reflexivity].
  - apply createControlVariantOf_new in E.
    destruct E as (Hm1 & Hd & _ & Hi & _ & Hn).
    rewrite Hd. split; [eauto|]. exists c. auto.
Qed.
End Step1.


Lemma bld_bind_none {A B : Type} (m : Builder A) (k : A -> Builder B)
  (n : nat) :
  (forall a n', k a n' = None) -> Bld.bind m k n = None.
Proof.
  intros H. unfold Bld.bind. destruct (m n) as [[a n']|]; [apply H|reflexivity].
Qed.

Section ScfFor.
Variable hasCallOp : Operation -> bool.
Variable hasMeasureOp : Operation -> bool.
Variable hasCharacteristic : (Operation -> bool) -> Operation -> bool.
Variable hasQuantum : Operation -> bool.
Variable hasTraitQuantumGate : Operation -> bool.
Variable hasTraitHermitian : Operation -> bool.
Variable isaOperatorInterface : Operation -> bool.

Local Notation reverseLoop' :=
  (reverseLoop hasQuantum hasTraitHermitian isaOperatorInterface).

Lemma reverseLoop_scf_for
  (recurse : Block -> Operation -> list Operation -> Builder Block)
  (term : Operation) (l : list Operation) :
  Exists (fun op => isa "scf.for" op = true) l ->
  forall b n, reverseLoop' recurse term l b n = None.
Proof.
  induction l as [|op l IH]; intros Hex b n.
  - inversion Hex.
  - cbn [reverseLoop].
    destruct (isa "scf.for" op) eqn:Efor.
    + assert (Eif : isa "cc.if" op = false).
      { unfold isa in *. apply String.eqb_eq in Efor. now rewrite Efor. }
      rewrite Eif. reflexivity.
    + assert (Hl : Exists (fun op => isa "scf.for" op = true) l).
      { inversion Hex; subst; [congruence|assumption]. }
      specialize (IH Hl).
      destruct (isa "cc.if" op).
      { apply bld_bind_none. intros a n1. apply bld_bind_none.
        intros a2 n2. apply IH. }
      destruct (isa LoopOp.name op).
      { apply bld_bind_none. intros a n1. apply bld_bind_none.
        intros a2 n2. apply IH. }
      destruct (isa "cc.scope" op).
      { apply bld_bind_none. intros a n1. apply IH. }
      apply bld_bind_none. intros a n1. apply IH.
Qed.

Lemma reverseTheOpsInTheBlock_scf_for (fuel : nat) (block : Block)
  (term op : Operation) (n : nat) :
  In op (blk_ops block) -> hasQuantum op = true ->
  isa "scf.for" op = true ->
  reverseTheOpsInTheBlock hasQuantum hasTraitHermitian isaOperatorInterface
    fuel block term (getOpsToInvert hasQuantum block) n = None.
Proof.
  intros Hin Hq Hfor. destruct fuel as [|fuel]; [reflexivity|].
  cbn [reverseTheOpsInTheBlock]. apply reverseLoop_scf_for.
  apply Exists_exists. exists op. split; [|assumption].
  apply in_rev. rewrite rev_involutive. unfold getOpsToInvert.
  apply filter_In. auto.
Qed.

Local Notation createAdjointVariantOf' :=
  (createAdjointVariantOf hasCallOp hasMeasureOp hasCharacteristic hasQuantum
     hasTraitHermitian isaOperatorInterface).
Local Notation passesChecks' :=
  (passesChecks hasCallOp hasMeasureOp hasCharacteristic).

Lemma createAdjointVariantOf_checked (funcOp : Operation)
  (funcName : string) (st : PassState) :
  passesChecks' funcOp ->
  createAdjointVariantOf' funcOp funcName st =
  (r <- runBuilder
          (newFunc <~ createFunction funcName (FuncOp.getResultTys funcOp)
                        (FuncOp.getInputs funcOp) ;;
           entry <~ Bld.lift (front (FuncOp.getBody funcOp)) ;;
           term <~ Bld.lift (getTerminator entry) ;;
           entry' <~ reverseTheOpsInTheBlock hasQuantum hasTraitHermitian
                       isaOperatorInterface
                       (S (List.length (walkRegion (FuncOp.getBody funcOp))))
                       entry term (getOpsToInvert hasQuantum entry) ;;
           Bld.ret (FuncOp.setBody newFunc
                      (updFront (fun _ => entry') (FuncOp.getBody funcOp))))
          st ;;
   Some (Some (fst r), withModule (snd r) (module (snd r) ++ [fst r]))).
Proof.
  intros (Hu & Hc & Hl & Hm). unfold createAdjointVariantOf.
  rewrite Hu. cbn [Res.bind]. now rewrite Hc, Hl, Hm.
Qed.

(** X7. [createAdjointVariantOf] on a kernel that passes the four checks
    and has a quantum scf.for among the operations of its entry block does
    not return: the reversal reaches the TODO of [reverseTheOpsInTheBlock],
    which aborts the compilation. *)
Theorem createAdjointVariantOf_scf_for (funcOp : Operation)
  (funcName : string) (st : PassState) (entry : Block) (rest : Region)
  (op : Operation) :
  passesChecks' funcOp ->
  FuncOp.getBody funcOp = entry :: rest ->
  In op (blk_ops entry) -> hasQuantum op = true ->
  isa "scf.for" op = true ->
  createAdjointVariantOf' funcOp funcName st = None.
Proof.
  intros Hchk Hbody Hin Hq Hfor.
  rewrite createAdjointVariantOf_checked by assumption.
  unfold runBuilder. rewrite Hbody.
  unfold Bld.bind at 1, createFunction, Bld.create. cbn [front hd_error].
  unfold Bld.bind at 1, Bld.lift at 1.
  unfold Bld.bind at 1.
  destruct (Bld.lift (getTerminator entry) _) as [[term n1]|];
    [|reflexivity].
  unfold Bld.bind.
  now rewrite (@reverseTheOpsInTheBlock_scf_for _ entry term op n1 Hin Hq
                 Hfor).
Qed.

(** X6. On a function without a body, [createControlVariantOf] and, when
    the three checks on the operations pass, [createAdjointVariantOf] take
    the front of an empty region: neither returns a function nor reports an
    error. *)
Theorem synthesis_of_declaration (funcOp : Operation) (funcName : string)
  (st : PassState) :
  FuncOp.getBody funcOp = [] ->
  createControlVariantOf hasTraitQuantumGate funcOp st = None /\
  (hasCallOp funcOp = false ->
   hasCharacteristic isaCallableExpression funcOp = false ->
   hasMeasureOp funcOp = false ->
   createAdjointVariantOf' funcOp funcName st = None).
Proof.
  intros Hbody. split.
  - unfold createControlVariantOf, runBuilder. rewrite Hbody. reflexivity.
  - intros Hc Hl Hm. rewrite createAdjointVariantOf_checked.
    + unfold runBuilder. rewrite Hbody. reflexivity.
    + unfold passesChecks. rewrite Hbody. auto.
Qed.
End ScfFor.

(** ** Step 2 and the whole pass *)

Lemma redirectUses_nil (ops : list Operation) : redirectUses [] ops = ops.
Proof. reflexivity. Qed.

Lemma convertOps_legal (ops : list Operation) :
  Forall legalOp ops ->
  Forall (fun o => isIllegal o = false) (walkOps ops) ->
  forall n, convertOps ops n = Some ((ops, []), n).
Proof.
  unfold walkOps. induction ops as [|o ops IH]; intros HP Hl n;
    [reflexivity|].
  apply Forall_cons_iff in HP. destruct HP as [HPo HP].
  cbn [flat_map] in Hl. apply Forall_app in Hl. destruct Hl as [Hlo Hls].
  cbn [convertOps]. unfold Bld.bind. rewrite (HPo Hlo n), (IH HP Hls n).
  reflexivity.
Qed.

Lemma convertBlocks_legal (r : Region) :
  Forall (fun blk => Forall legalOp (blk_ops blk)) r ->
  Forall (fun o => isIllegal o = false) (walkRegion r) ->
  forall n, convertBlocks r n = Some (r, n).
Proof.
  unfold walkRegion, walkBlock.
  induction r as [|[bi args ops] r IH]; intros HP Hl n; [reflexivity|].
  apply Forall_cons_iff in HP. destruct HP as [HPb HP].
  cbn [flat_map blk_ops] in Hl. apply Forall_app in Hl.
  destruct Hl as [Hlb Hlr]. cbn [blk_ops] in HPb.
  cbn [convertBlocks]. unfold Bld.bind.
  rewrite (convertOps_legal HPb Hlb n). fold convertBlocks.
  rewrite (IH HP Hlr n). reflexivity.
Qed.

Lemma convertRegions_legal (rs : list Region) :
  Forall (Forall (fun blk => Forall legalOp (blk_ops blk))) rs ->
  Forall (fun o => isIllegal o = false) (walkRegions rs) ->
  forall n, convertRegions rs n = Some (rs, n).
Proof.
  unfold walkRegions.
  induction rs as [|r rs IH]; intros HP Hl n; [reflexivity|].
  apply Forall_cons_iff in HP. destruct HP as [HPr HP].
  cbn [flat_map] in Hl. apply Forall_app in Hl. destruct Hl as [Hlr Hls].
  cbn [convertRegions]. unfold Bld.bind.
  rewrite (convertBlocks_legal HPr Hlr n). fold convertRegions.
  rewrite (IH HP Hls n). reflexivity.
Qed.

Lemma convertOp_legal : forall op, legalOp op.
Proof.
  induction op as [i nm vs a t rs b IH] using Operation_nested_ind.
  intros Hl n. rewrite walk_unfold in Hl. cbn [getRegions] in Hl.
  apply Forall_app in Hl. destruct Hl as [Hlr Hlo].
  apply Forall_cons_iff in Hlo. destruct Hlo as [Hlo _].
  rewrite convertOp_unfold. cbn [getRegions]. unfold Bld.bind.
  rewrite (convertRegions_legal IH Hlr n). cbn zeta. rewrite Hlo.
  reflexivity.
Qed.

Lemma existsb_isIllegal (l : list Operation) :
  Forall (fun o => isIllegal o = false) l -> existsb isIllegal l = false.
Proof.
  induction 1 as [|o l Ho _ IH]; [reflexivity|]. cbn [existsb].
  now rewrite Ho, IH.
Qed.

Lemma step2_legal (st : PassState) :
  Forall (fun o => isIllegal o = false) (walkOps (module st)) ->
  step2 st = Some st.
Proof.
  intros Hl. unfold step2, runBuilder.
  rewrite convertOps_legal; [|apply Forall_forall; intros o _;
                              apply convertOp_legal|assumption].
  cbn [Res.bind fst snd]. rewrite redirectUses_nil.
  rewrite (existsb_isIllegal Hl). now destruct st.
Qed.

(** X12. Step 2 is idempotent on a module whose apply sites hold no
    region: it succeeds, and applied to its own result it changes nothing,
    fresh counter included. *)
Theorem step2_idempotent (st : PassState) :
  Forall (fun o => isIllegal o = true -> getRegions o = [])
         (walkOps (module st)) ->
  exists st', step2 st = Some st' /\ step2 st' = Some st'.
Proof.
  intros Hleaves.
  assert (HP : Forall converted (module st))
    by (apply Forall_forall; intros o _; apply convertOp_shapes).
  destruct (convertOps_shapes HP Hleaves (nextId st))
    as (new & repl & n' & E & S).
  assert (Hs : Forall (fun s => isIllegalShape s = false)
                 (map shapeOf (walkOps (redirectUses repl new)))).
  { rewrite shapes_redirectUses, S. apply Forall_flat_map.
    apply Forall_forall. intros o _. apply expectedShapes_legal. }
  apply Forall_map in Hs.
  assert (Hl : Forall (fun o => isIllegal o = false)
                 (walkOps (redirectUses repl new))).
  { eapply Forall_impl; [|exact Hs]. cbn.
    intros op Hop. now rewrite isIllegalShape_shapeOf in Hop. }
  unfold step2 at 1, runBuilder. rewrite E. cbn [Res.bind fst snd].
  rewrite (existsb_isIllegal Hl).
  eexists. split; [reflexivity|]. apply step2_legal. exact Hl.
Qed.

Section NoApply.
Variable applyToVariant : Operation -> bool.
Variable hasCallOp : Operation -> bool.
Variable hasMeasureOp : Operation -> bool.
Variable hasCharacteristic : (Operation -> bool) -> Operation -> bool.
Variable hasQuantum : Operation -> bool.
Variable hasTraitQuantumGate : Operation -> bool.
Variable hasTraitHermitian : Operation -> bool.
Variable isaOperatorInterface : Operation -> bool.
Variable uninitialized : ApplyVariants.

Lemma step1_globals_nil (globals : list Operation) (st : PassState) :
  step1_globals hasCallOp hasMeasureOp hasCharacteristic hasQuantum
    hasTraitQuantumGate hasTraitHermitian isaOperatorInterface [] globals st
  = Some st.
Proof. induction globals as [|g l IH]; [reflexivity|exact IH]. Qed.

(** X13. On a module without quake.apply the whole pass changes nothing:
    no function is created, nothing is reported, no identity is consumed. *)
Theorem runOnOperation_without_apply (st : PassState) :
  Forall (fun o => isa ApplyOp.name o = false) (walkOps (module st)) ->
  runOnOperation applyToVariant hasCallOp hasMeasureOp hasCharacteristic
    hasQuantum hasTraitQuantumGate hasTraitHermitian isaOperatorInterface
    uninitialized st = Some st.
Proof.
  intros H. unfold runOnOperation, performAnalysis.
  replace (filter (isa ApplyOp.name) (walkOps (module st))) with
    ([] : list Operation).
  2:{ symmetry. induction (walkOps (module st)) as [|o l IH];
        [reflexivity|].
      apply Forall_cons_iff in H. destruct H as [Ho Hl]. cbn [filter].
      rewrite Ho. now apply IH. }
  cbn [fold_left]. unfold step1. rewrite step1_globals_nil. cbn [Res.bind].
  apply step2_legal. eapply Forall_impl; [|exact H]. cbn.
  intros o Ho. unfold isIllegal. now rewrite Ho.
Qed.
End NoApply.

(** ** The arithmetic of the trip count *)

Lemma wrap_repr (w x : Z) :
  (0 <= w)%Z -> exists k, wrap w x = (x + k * 2 ^ w)%Z.
Proof.
  intros Hw. pose proof (pow2_pos Hw) as Hp.
  exists (- (x / 2 ^ w))%Z. unfold wrap.
  pose proof (Z.div_mod x (2 ^ w)). lia.
Qed.

Lemma signed_repr (w x : Z) :
  (0 <= w)%Z -> exists k, signed w x = (x + k * 2 ^ w)%Z.
Proof.
  intros Hw. destruct (wrap_repr x Hw) as (k & E). unfold signed.
  rewrite E. destruct (_ <? _)%Z; [exists k|exists (k - 1)%Z]; lia.
Qed.

Lemma wrap_congr (w x y k : Z) :
  (0 <= w)%Z -> x = (y + k * 2 ^ w)%Z -> wrap w x = wrap w y.
Proof.
  intros Hw ->. unfold wrap. apply Z.mod_add.
  pose proof (pow2_pos Hw). lia.
Qed.

Lemma signed_of_congr (w x z : Z) :
  (0 < w)%Z -> wrap w x = wrap w z ->
  (- 2 ^ (w - 1) <= z < 2 ^ (w - 1))%Z -> signed w x = z.
Proof.
  intros Hw E Hz. pose proof (pow2_double Hw) as Hd.
  pose proof (pow2_pos (w := w - 1)) as Hp.
  unfold signed. rewrite E. unfold wrap.
  destruct (Z.neg_nonneg_cases z) as [Hn|Hn].
  - replace (z mod 2 ^ w)%Z with (z + 2 ^ w)%Z.
    + destruct (Z.ltb_spec (z + 2 ^ w) (2 ^ (w - 1))); lia.
    + apply Z.mod_unique with (q := (-1)%Z); lia.
  - rewrite Z.mod_small by lia.
    destruct (Z.ltb_spec z (2 ^ (w - 1))); lia.
Qed.

Lemma quot_abs_le (a b : Z) : b <> 0%Z -> (Z.abs (Z.quot a b) <= Z.abs a)%Z.
Proof.
  intros Hb. rewrite <- Z.quot_abs by assumption.
  rewrite Z.quot_div_nonneg by lia.
  apply Z.div_le_upper_bound; [lia|]. nia.
Qed.

(** The trip count in closed form. *)
Lemma tripCount_closed_form (w : Z) (env : Value -> option Z)
  (pred : CmpIPredicate.t) (I B S : Expr) (i b s : Z) :
  (0 < w)%Z ->
  evalExpr w env I = Some i -> evalExpr w env B = Some b ->
  evalExpr w env S = Some s ->
  let N := (signed w b - signed w i +
            (if isInclusive pred then signed w s else 0))%Z in
  (- 2 ^ (w - 1) < N < 2 ^ (w - 1))%Z ->
  signed w s <> 0%Z ->
  evalExpr w env (tripCountExpr pred I B S) =
    Some (Z.max 0 (Z.quot N (signed w s))).
Proof.
  intros Hw HI HB HS N HN Hs.
  assert (Hw0 : (0 <= w)%Z) by lia.
  pose proof (pow2_double Hw) as Hd.
  pose proof (pow2_pos (w := w - 1)) as Hp.
  unfold tripCountExpr. cbn [evalExpr].
  assert (Hnum : exists num,
            evalExpr w env
              (if isInclusive pred then EAdd (ESub B I) S else ESub B I)
            = Some num /\ signed w num = N).
  { destruct (signed_repr b Hw0) as (kb & Eb).
    destruct (signed_repr i Hw0) as (ki & Ei).
    destruct (signed_repr s Hw0) as (ks & Es).
    destruct (wrap_repr (b - i) Hw0) as (k1 & E1).
    unfold N. destruct (isInclusive pred); cbn [evalExpr];
      rewrite HB, HI; cbn [Res.bind]; [rewrite HS; cbn [Res.bind]|];
      eexists; (split; [reflexivity|]); apply signed_of_congr;
      try assumption; try lia.
    - destruct (wrap_repr (wrap w (b - i) + s) Hw0) as (k2 & E2).
      apply wrap_congr with (k := (k1 + k2 - kb + ki - ks)%Z);
        [assumption|]. lia.
    - apply wrap_congr with (k := (k1 - kb + ki)%Z); [assumption|]. lia. }
  destruct Hnum as (num & -> & Hnum). cbn [Res.bind]. rewrite HS.
  cbn [Res.bind]. unfold divsi. rewrite Hnum.
  destruct (Z.eqb_spec (signed w s) 0) as [|_]; [contradiction|].
  destruct (Z.eqb_spec N (- 2 ^ (w - 1))) as [|_]; [lia|].
  cbn [andb Res.bind].
  set (Q := Z.quot N (signed w s)).
  assert (HQ : (- 2 ^ (w - 1) < Q < 2 ^ (w - 1))%Z).
  { pose proof (@quot_abs_le N (signed w s) Hs). fold Q in H. lia. }
  assert (HsQ : signed w (wrap w Q) = Q).
  { apply signed_of_congr; [assumption| |lia].
    unfold wrap. apply Z.mod_mod. lia. }
  assert (Hs0 : signed w (wrap w 0) = 0%Z).
  { apply signed_of_congr; [assumption| |lia].
    unfold wrap. apply Z.mod_mod. lia. }
  cbn [evalCmp]. rewrite HsQ, Hs0.
  destruct (Z.ltb_spec 0 Q) as [Hpos|Hneg]; cbn [Z.eqb]; f_equal.
  - rewrite Z.max_r by lia. apply wrap_small. lia.
  - rewrite Z.max_l by lia. apply wrap_small. lia.
Qed.

Lemma newStart_closed_form (w : Z) (env : Value -> option Z)
  (T I S : Expr) (k i s : Z) :
  (0 < w)%Z ->
  evalExpr w env T = Some k -> evalExpr w env I = Some i ->
  evalExpr w env S = Some s ->
  evalExpr w env (newStartExpr T I S) = Some (wrap w (i + (k - 1) * s)).
Proof.
  intros Hw HT HI HS. unfold newStartExpr. cbn [evalExpr].
  rewrite HI, HT, HS. cbn [Res.bind]. f_equal. unfold wrap.
  rewrite Zminus_mod_idemp_r, Zmult_mod_idemp_l, Zplus_mod_idemp_r.
  reflexivity.
Qed.

(** X15. The trip count in closed form.  When the step is not zero and
    [N], the signed distance from the initial value to the bound, plus the
    step if the comparison is inclusive, fits the signed range of the type,
    the emitted arithmetic computes [max 0 (N quot S)] iterations, with the
    quotient rounded toward zero, and the new initial value is the old one
    plus that count minus one times the step. *)
Theorem emitTripArith_closed_form (ins : nat) (loop : Operation)
  (p : LoopParts) (n : nat) (ops : list Operation) (t : TripArith)
  (n' : nat) (w : Z) (env : Value -> option Z) (pred : CmpIPredicate.t)
  (i b s : Z) :
  emitTripArith ins loop p n = Some ((ops, t), n') ->
  getPredicate (cmpOp p) = Some pred ->
  (0 < w)%Z ->
  evalValue w env (initialValue p) = Some i ->
  evalValue w env (newTermVal t) = Some b ->
  evalValue w env (newStepVal t) = Some s ->
  let N := (signed w b - signed w i +
            (if isInclusive pred then signed w s else 0))%Z in
  let trips := Z.max 0 (Z.quot N (signed w s)) in
  (- 2 ^ (w - 1) < N < 2 ^ (w - 1))%Z ->
  signed w s <> 0%Z ->
  evalValue w env (iters t) = Some trips /\
  evalValue w env (newInitVal t) = Some (wrap w (i + (trips - 1) * s)).
Proof.
  intros H Hp Hw Hi Hb Hs N trips HN Hs0.
  destruct (emitTripArith_exprs _ _ _ _ H)
    as (pred' & Hp' & _ & _ & Hit & Hin).
  rewrite Hp in Hp'. inv Hp'.
  assert (E : evalValue w env (iters t) = Some trips).
  { unfold evalValue. rewrite Hit.
    now apply tripCount_closed_form. }
  split; [exact E|]. unfold evalValue. rewrite Hin.
  now apply newStart_closed_form.
Qed.

(** X14. The trip count that the emitted arithmetic computes, when it has
    a value, is a non-negative signed integer; when the step evaluates to
    zero the division has no result, so that neither the trip count nor the
    new initial value has a value. *)
Theorem emitTripArith_trip_count_range (ins : nat) (loop : Operation)
  (p : LoopParts) (n : nat) (ops : list Operation) (t : TripArith)
  (n' : nat) (w : Z) (env : Value -> option Z) :
  emitTripArith ins loop p n = Some ((ops, t), n') ->
  (0 < w)%Z ->
  (forall x, evalValue w env (iters t) = Some x ->
             (0 <= x < 2 ^ (w - 1))%Z) /\
  (evalValue w env (newStepVal t) = Some 0%Z ->
   evalValue w env (iters t) = None /\
   evalValue w env (newInitVal t) = None).
Proof.
  intros H Hw.
  destruct (emitTripArith_exprs _ _ _ _ H)
    as (pred & Hp & _ & _ & Hit & Hin).
  split.
  - intros x Hx. unfold evalValue in Hx. rewrite Hit in Hx.
    eapply tripCount_nonneg; eassumption.
  - intros Hs.
    assert (E : evalValue w env (iters t) = None).
    { unfold evalValue in *. rewrite Hit. unfold tripCountExpr.
      cbn [evalExpr]. rewrite Hs.
      destruct (evalExpr w env (if isInclusive pred then _ else _));
        cbn [Res.bind]; [|reflexivity].
      unfold divsi.
      replace (signed w 0) with 0%Z; [reflexivity|].
      symmetry. apply signed_small; [assumption|].
      pose proof (pow2_pos (w := w - 1)). lia. }
    split; [exact E|]. unfold evalValue in *. rewrite Hin.
    unfold newStartExpr. cbn [evalExpr]. rewrite E.
    destruct (evalExpr w env (exprOf (initialValue p))); reflexivity.
Qed.

(** ** Where the engine is defined *)

Lemma value_eqb_sym (a b : Value) : value_eqb a b = value_eqb b a.
Proof.
  destruct a as [x tx|d i], b as [y ty|e j]; cbn; try reflexivity.
  - apply Nat.eqb_sym.
  - unfold op_eqb. now rewrite (Nat.eqb_sym (op_id d)), (Nat.eqb_sym i).
Qed.

Lemma cloneRootSubexpression_defined (ins block : nat) :
  forall (root : Value) (n : nat),
  exists r n', cloneRootSubexpression ins block root n = Some (r, n').
Proof.
  fix IH 1. intros [a ty | [i nm vs ats tys rs owner] idx] n.
  - eexists _, _. reflexivity.
  - cbn [cloneRootSubexpression].
    destruct (Nat.eqb owner block); [|eexists _, _; reflexivity].
    set (go := fix go (l : list Value) : Builder (list Operation) :=
                 match l with
                 | [] => Bld.ret []
                 | v :: l' =>
                     r <~ cloneRootSubexpression ins block v ;;
                     rest <~ go l' ;; Bld.ret (fst r ++ rest)
                 end).
    assert (Hgo : forall l m, exists subs m', go l m = Some (subs, m')).
    { induction l as [|v l IHl]; intros m.
      - eexists _, _. reflexivity.
      - destruct (IH v m) as (r & m1 & E1).
        destruct (IHl m1) as (subs & m2 & E2).
        eexists _, _. cbn [go]. unfold Bld.bind. rewrite E1. fold go.
        rewrite E2. reflexivity. }
    destruct (Hgo vs n) as (subs & m & E).
    unfold Bld.bind. rewrite E. eexists _, _. reflexivity.
Qed.

Lemma hasMonotonicPHIControl_true_all (loop : Operation) (wb sb : Block) :
  hasMonotonicPHIControl loop = Some true ->
  LoopOp.getWhileRegion loop = [wb] ->
  LoopOp.getStepRegion loop = [sb] ->
  exists init condOp a0 cond cmp contOp next sOp s0,
    nth_error (LoopOp.getInitArgs loop) 0 = Some init /\
    back (blk_ops wb) = Some condOp /\
    isa ConditionOp.name condOp = true /\
    nth_error (getArguments wb) 0 = Some a0 /\
    ConditionOp.getCondition condOp = Some cond /\
    getDefiningOp cond = Some cmp /\
    findValue a0 (getOperands cmp) = true /\
    back (blk_ops sb) = Some contOp /\
    isa "cc.continue" contOp = true /\
    getOperand contOp 0 = Some next /\
    getDefiningOp next = Some sOp /\
    isAddOrSub sOp = true /\
    nth_error (getArguments sb) 0 = Some s0 /\
    findValue s0 (getOperands sOp) = true.
Proof.
  unfold hasMonotonicPHIControl. intros H Hw Hs. rewrite Hw, Hs in H.
  destruct (empty (LoopOp.getInitArgs loop)) eqn:Ei; [discriminate|].
  destruct (empty (getResults loop)); [discriminate|]. cbn [orb] in H.
  cbn [back rev app Res.bind] in H.
  bind_inv H. rename o into condOp.
  destruct (isa ConditionOp.name condOp) eqn:Eic; [|discriminate].
  cbn [negb] in H. bind_inv H. rename v into a0. bind_inv H.
  destruct (value_eqb a0 v); [|discriminate]. cbn [negb] in H.
  bind_inv H. rename v0 into cond. bind_inv H. rename o into cmp.
  destruct (findValue a0 (getOperands cmp)) eqn:Ef; [|discriminate].
  cbn [negb] in H. bind_inv H. bind_inv H.
  destruct (isa "cc.continue" o); [|discriminate]. cbn [negb] in H.
  bind_inv H. bind_inv H. destruct (value_eqb v0 v1); [|discriminate].
  cbn [negb] in H. bind_inv H. rename o0 into contOp.
  destruct (isa "cc.continue" contOp) eqn:Eco; [|discriminate].
  cbn [negb] in H. bind_inv H. rename v2 into next. bind_inv H.
  rename o0 into sOp.
  destruct (isAddOrSub sOp) eqn:Eas; [|discriminate]. cbn [negb] in H.
  bind_inv H. rename v2 into s0.
  destruct (findValue s0 (getOperands sOp)) eqn:Efs; [|discriminate].
  destruct (LoopOp.getInitArgs loop) as [|init l] eqn:Eia; [discriminate|].
  exists init, condOp, a0, cond, cmp, contOp, next, sOp, s0.
  repeat split; assumption.
Qed.

Lemma two_operands (o : Operation) :
  List.length (getOperands o) = 2 ->
  exists x y, getOperands o = [x; y].
Proof.
  destruct (getOperands o) as [|x [|y [|z l]]]; try discriminate. eauto.
Qed.

Lemma extractLoopParts_defined_value (ins : nat) (loop : Operation)
  (n : nat) (wb sb : Block) (cmp sOp : Operation) :
  hasMonotonicPHIControl loop = Some true ->
  LoopOp.getWhileRegion loop = [wb] ->
  LoopOp.getStepRegion loop = [sb] ->
  testedOp loop = Some cmp -> mutateOp loop = Some sOp ->
  List.length (getOperands cmp) = 2 ->
  List.length (getOperands sOp) = 2 ->
  isa "arith.cmpi" cmp = true ->
  exists p,
    extractLoopParts ins loop n = Some (([], p), n) /\
    inductionIsValue p = true /\ cmpOp p = cmp /\ stepOp p = sOp.
Proof.
  intros Hphi Hw Hs Ht Hm Hc2 Hs2 Hcmpi.
  destruct (hasMonotonicPHIControl_true_all _ Hphi Hw Hs)
    as (init & condOp & a0 & cond & cmp' & contOp & next & sOp' & s0 &
        Hinit & Hcond & Hic & Ha0 & Hgc & Hd & Hf & Hco & Hico & Hn & Hds &
        Has & Hs0 & Hfs).
  unfold testedOp in Ht. rewrite Hw in Ht. cbn [back rev app Res.bind] in Ht.
  rewrite Hcond in Ht. cbn [Res.bind] in Ht. rewrite Hgc in Ht.
  cbn [Res.bind] in Ht. rewrite Hd in Ht. inv Ht.
  unfold mutateOp in Hm. rewrite Hs in Hm. cbn [back rev app Res.bind] in Hm.
  rewrite Hco in Hm. cbn [Res.bind] in Hm. rewrite Hn in Hm.
  cbn [Res.bind] in Hm. rewrite Hds in Hm. inv Hm.
  destruct (two_operands _ Hc2) as (cx & cy & Hcops).
  destruct (two_operands _ Hs2) as (sx & sy & Hsops).
  unfold findValue in Hf, Hfs. rewrite Hcops in Hf. rewrite Hsops in Hfs.
  cbn [existsb] in Hf, Hfs. rewrite orb_false_r in Hf, Hfs.
  rewrite (value_eqb_sym a0 cx), (value_eqb_sym a0 cy) in Hf.
  rewrite (value_eqb_sym s0 sx), (value_eqb_sym s0 sy) in Hfs.
  unfold extractLoopParts, Bld.bind, Bld.lift, Bld.check, Bld.ret,
    getLhs, getRhs.
  unfold getOperand in *.
  rewrite Hphi, Hw, Hs. cbn [back rev app front hd_error negb].
  rewrite Hcond, Hic, Hgc, Hd, Hcmpi, Hinit. cbn [fst snd Res.bind].
  rewrite Ha0, Hcops. cbn [Res.bind nth_error].
  assert (Hterm : exists terminal,
            (if value_eqb cx a0 then Some cy
             else if value_eqb cy a0 then Some cx else None) = Some terminal).
  { destruct (value_eqb cx a0); [eauto|].
    destruct (value_eqb cy a0); [eauto|discriminate]. }
  destruct Hterm as (terminal & ->).
  cbn [nth_error] in Hn, Hs0.
  rewrite Hco. cbn [Res.bind]. rewrite Hico. cbn [negb]. rewrite Hn.
  cbn [Res.bind]. rewrite Hds. cbn [Res.bind]. rewrite Hs0.
  cbn [Res.bind]. rewrite Hsops. cbn [Res.bind].
  unfold isAddOrSub in Has.
  destruct (isa "arith.addi" sOp) eqn:Eadd.
  - destruct (value_eqb sx s0); [eexists; repeat split|].
    destruct (value_eqb sy s0); [eexists; repeat split|discriminate].
  - cbn [orb] in Has. rewrite Has. eexists. repeat split.
Qed.

Lemma emitTripArith_defined (ins : nat) (loop : Operation) (p : LoopParts)
  (n : nat) (wb sb : Block) (pred : CmpIPredicate.t) :
  LoopOp.getWhileRegion loop = [wb] ->
  LoopOp.getStepRegion loop = [sb] ->
  getPredicate (cmpOp p) = Some pred ->
  exists r n', emitTripArith ins loop p n = Some (r, n').
Proof.
  intros Hw Hs Hp. unfold emitTripArith. rewrite Hw, Hs.
  cbn [back rev app]. unfold Bld.bind at 1, Bld.lift at 1.
  unfold Bld.bind at 1, Bld.lift at 1.
  destruct (cloneRootSubexpression_defined ins (blk_id wb) (terminalValue p)
              n) as (term & n1 & E1).
  unfold Bld.bind at 1. rewrite E1.
  destruct (cloneRootSubexpression_defined ins (blk_id sb) (stepValue p) n1)
    as (step & n2 & E2).
  unfold Bld.bind at 1. rewrite E2. rewrite Hp.
  unfold Bld.bind, Bld.lift, Bld.ret, createIntConstant, createBinary,
    createCmpI, createSelect, Bld.create.
  destruct (stepIsAnAddOp p), (isInclusive pred); cbn [negb];
    eexists _, _; reflexivity.
Qed.

Lemma buildWhileRegion_defined (ins : nat) (loop : Operation) (ty : Ty)
  (n : nat) (wb : Block) (condOp : Operation) :
  LoopOp.getWhileRegion loop = [wb] ->
  back (blk_ops wb) = Some condOp ->
  isa ConditionOp.name condOp = true ->
  exists r n', buildWhileRegion ins loop ty n = Some (r, n').
Proof.
  intros Hw Hc Hi. unfold buildWhileRegion. rewrite Hw.
  unfold Bld.bind, Bld.lift, Bld.check, Bld.freshArg.
  cbn [front hd_error updFront back rev app addArgument blk_ops].
  rewrite Hc, Hi, getArguments_addArgument, back_app_single.
  eexists _, _. reflexivity.
Qed.

Lemma buildBodyRegion_defined (loop : Operation) (ty : Ty) (n : nat)
  (bb : Block) (term : Operation) :
  LoopOp.getBodyRegion loop = [bb] ->
  back (blk_ops bb) = Some term ->
  exists r n', buildBodyRegion loop ty n = Some (r, n').
Proof.
  intros Hb Ht. unfold buildBodyRegion. rewrite Hb.
  unfold Bld.bind, Bld.lift, Bld.freshArg.
  cbn [front hd_error updFront back rev app addArgument blk_ops].
  rewrite Ht. eexists _, _. reflexivity.
Qed.

Lemma buildStepRegion_defined_value (loop : Operation) (p : LoopParts)
  (ty : Ty) (n : nat) (sb : Block) (contOp : Operation) (next : Value) :
  inductionIsValue p = true ->
  LoopOp.getStepRegion loop = [sb] ->
  back (blk_ops sb) = Some contOp ->
  isa "cc.continue" contOp = true ->
  getOperand contOp 0 = Some next ->
  getDefiningOp next = Some (stepOp p) ->
  List.length (getOperands (stepOp p)) = 2 ->
  exists r n', buildStepRegion loop p ty n = Some (r, n').
Proof.
  intros Hv Hs Hc Hi Hn Hd H2. unfold buildStepRegion. rewrite Hv, Hs.
  destruct (two_operands _ H2) as (x & y & Hops).
  unfold Bld.bind, Bld.lift, Bld.check, Bld.freshArg, Bld.ret.
  cbn [negb front hd_error updFront back rev app addArgument blk_ops].
  rewrite Hc, Hi, Hn, Hd. unfold getOperand. rewrite Hops.
  cbn [nth_error]. rewrite getArguments_addArgument, back_app_single.
  destruct (stepIsAnAddOp p); [destruct (commuteTheAddOp p)|];
    eexists _, _; reflexivity.
Qed.

Lemma extractLoopParts_testedOp (ins : nat) (loop : Operation) (n : nat)
  (pre : list Operation) (p : LoopParts) (n' : nat) :
  extractLoopParts ins loop n = Some ((pre, p), n') ->
  testedOp loop = Some (cmpOp p).
Proof.
  unfold extractLoopParts, testedOp. intros H.
  bld_lift H isValue Hv. bld_lift H whileBack Hw. bld_lift H condOp Hc.
  bld_check H Hic. bld_lift H cond Hcond. bld_lift H cmp Hcmp.
  bld_check H Hicmp. bld_lift H stepBack Hs. bld_lift H pair0 Hp0.
  bld_bind H init n1 Hinit. bld_lift H terminal Hterm.
  bld_lift H trip0 Ht0. inv H. cbn [cmpOp].
  rewrite Hw. cbn [Res.bind]. rewrite Hc. cbn [Res.bind]. rewrite Hcond.
  exact Hcmp.
Qed.

(** X19. On a loop that the recognizer accepts with the induction as a
    value, with one block in the while and in the step region and two
    operands on the operation that defines the tested value and on the one
    that defines the next value, [cloneReversedLoop] returns a loop exactly
    when the tested value is defined by an arith.cmpi (with its predicate):
    the recognizer does not look at the kind of that operation, and the cast
    of the engine aborts on any other. *)
Theorem cloneReversedLoop_defined_value (ins : nat) (loop : Operation)
  (n : nat) (wb sb : Block) (cmp sOp : Operation) :
  isaCountedLoop loop = Some true ->
  hasMonotonicPHIControl loop = Some true ->
  LoopOp.getWhileRegion loop = [wb] ->
  LoopOp.getStepRegion loop = [sb] ->
  testedOp loop = Some cmp -> mutateOp loop = Some sOp ->
  List.length (getOperands cmp) = 2 ->
  List.length (getOperands sOp) = 2 ->
  (exists r, cloneReversedLoop ins loop n = Some r) <->
  isa "arith.cmpi" cmp = true /\ exists pred, getPredicate cmp = Some pred.
Proof.
  intros Hcounted Hphi Hw Hs Ht Hm Hc2 Hs2. split.
  - intros ([[emitted newLoop] n'] & H).
    apply cloneReversedLoop_inv in H.
    destruct H as (pre & p & n1 & arith & t & n2 & st & n3 & w & n4 & b &
                   n5 & s & n6 & Hex & Har & _).
    pose proof (extractLoopParts_testedOp _ _ _ Hex) as Hc.
    rewrite Ht in Hc. inv Hc.
    destruct (extractLoopParts_shape _ _ _ Hex) as (_ & Hi & _).
    destruct (emitTripArith_exprs _ _ _ _ Har) as (pred & Hp & _).
    eauto.
  - intros (Hcmpi & pred & Hp).
    destruct (@extractLoopParts_defined_value ins loop n wb sb cmp sOp
                Hphi Hw Hs Ht Hm Hc2 Hs2 Hcmpi)
      as (p & Hex & Hv & Hcp & Hsp).
    subst cmp sOp.
    destruct (@emitTripArith_defined ins loop p n wb sb pred Hw Hs Hp)
      as ([arith t] & n2 & Har).
    destruct (hasMonotonicPHIControl_true_all _ Hphi Hw Hs)
      as (init & condOp & a0 & cond & cmp' & contOp & next & sOp' & s0 &
          Hinit & Hcond & Hic & Ha0 & Hgc & Hd & Hf & Hco & Hico & Hn &
          Hds & Has & Hs0 & Hfs).
    assert (sOp' = stepOp p).
    { unfold mutateOp in Hm. rewrite Hs in Hm.
      cbn [back rev app Res.bind] in Hm. rewrite Hco in Hm.
      cbn [Res.bind] in Hm. rewrite Hn in Hm. cbn [Res.bind] in Hm.
      rewrite Hds in Hm. now inv Hm. }
    subst sOp'.
    destruct (isaCountedLoop_true_inv _ Hcounted)
      as (_ & _ & _ & _ & bb & term & Hbr & Hterm & _).
    destruct (@buildWhileRegion_defined ins loop (getType (iters t)) n2 wb
                condOp Hw Hcond Hic) as (w & n4 & Hbw).
    destruct (@buildBodyRegion_defined loop (getType (iters t)) n4 bb term
                Hbr Hterm) as (b & n5 & Hbb).
    destruct (@buildStepRegion_defined_value loop p (getType (iters t)) n5
                sb contOp next Hv Hs Hco Hico Hn Hds Hs2)
      as (s & n6 & Hbs).
    unfold cloneReversedLoop, Bld.bind. rewrite Hex. cbn [fst snd].
    rewrite Har. cbn [fst snd]. rewrite Hv. unfold Bld.ret at 1.
    rewrite Hbw, Hbb, Hbs. eexists. reflexivity.
Qed.

(** ** The step region of a loop *)

Lemma back_updBack {A : Type} (f : A -> A) (l : list A) :
  back (updBack f l) =
  match back l with Some x => Some (f x) | None => None end.
Proof.
  unfold back, updBack. rewrite rev_involutive.
  destruct (rev l); reflexivity.
Qed.

Lemma buildStepRegion_terminated (loop : Operation) (p : LoopParts)
  (ty : Ty) (n : nat) (s : Region) (n' : nat) :
  buildStepRegion loop p ty n = Some (s, n') ->
  exists b c,
    back s = Some b /\ back (blk_ops b) = Some c /\
    isa "cc.continue" c = true.
Proof.
  unfold buildStepRegion. intros H.
  bld_bind H stepped n1 Hst. bld_lift H f Hf. bld_bind H a n2 Ha.
  bld_lift H entry He. bld_lift H lastBlock Hl. bld_lift H contOp Hc.
  bld_check H Hi. bld_bind H bump n3 Hb.
  bld_bind H one n4 Hone. bld_lift H trip Ht. bld_bind H dec n5 Hdec.
  bld_bind H newCont n6 Hn. inv Hn. inv H.
  eexists _, _. rewrite back_updBack, Hl. split; [reflexivity|].
  unfold replaceTerminator. cbn [blk_ops].
  rewrite !app_assoc, back_app_single. split; reflexivity.
Qed.

Section StepTerminator.
Variable isTerminator : Operation -> bool.
Hypothesis continue_isTerminator :
  forall c, isa "cc.continue" c = true -> isTerminator c = true.

Lemma ensureStepTerminator_terminated (r : Region) (b : Block)
  (c : Operation) (n : nat) :
  back r = Some b -> back (blk_ops b) = Some c -> isTerminator c = true ->
  ensureStepTerminator isTerminator r n = Some (r, n).
Proof.
  intros Hb Hc Ht. unfold ensureStepTerminator, Bld.bind, Bld.lift.
  rewrite Hb. destruct (blk_ops b) as [|o l] eqn:E; [discriminate|].
  cbn [empty]. rewrite Hc, Ht. reflexivity.
Qed.

(** X16. After [ensureStepTerminator] the block at the back of the step
    region ends in a terminator, the region has as many blocks as before,
    and a second call changes nothing and creates nothing. *)
Theorem ensureStepTerminator_idempotent (r : Region) (n : nat) (r' : Region)
  (n' : nat) :
  ensureStepTerminator isTerminator r n = Some (r', n') ->
  (exists b c,
     back r' = Some b /\ back (blk_ops b) = Some c /\
     isTerminator c = true) /\
  List.length r' = List.length r /\
  ensureStepTerminator isTerminator r' n' = Some (r', n').
Proof.
  intros H.
  assert (G : exists b c,
            back r' = Some b /\ back (blk_ops b) = Some c /\
            isTerminator c = true /\ List.length r' = List.length r).
  { unfold ensureStepTerminator in H. bld_lift H block Hb.
    assert (Hadd : forall m r1 m1,
              (c <~ Bld.create (blk_id block) "cc.continue" [] [] [] [] ;;
               Bld.ret (updBack (fun b => withBlockOps b (blk_ops b ++ [c]))
                          r)) m = Some (r1, m1) ->
              exists b c,
                back r1 = Some b /\ back (blk_ops b) = Some c /\
                isTerminator c = true /\ List.length r1 = List.length r).
    { intros m r1 m1 E. bld_bind E c m2 Hc. inv Hc. inv E.
      eexists _, _. rewrite back_updBack, Hb. split; [reflexivity|].
      destruct block. cbn [withBlockOps blk_ops].
      rewrite back_app_single. split; [reflexivity|].
      split; [now apply continue_isTerminator|].
      unfold updBack. rewrite length_rev.
      rewrite <- (length_rev r). now destruct (rev r). }
    destruct (empty (blk_ops block)); [now apply Hadd in H|].
    bld_lift H term Ht. destruct (isTerminator term) eqn:Et; cbn [negb] in H.
    - inv H. exists block, term. auto.
    - now apply Hadd in H. }
  destruct G as (b & c & Hb & Hc & Ht & Hl).
  split; [eauto|]. split; [assumption|].
  eapply ensureStepTerminator_terminated; eassumption.
Qed.

(** X17. The step region that [cloneReversedLoop] hands to
    [LoopOp::build] ends in the cc.continue that the engine created:
    [ensureStepTerminator] leaves it as it is and creates nothing. *)
Theorem cloneReversedLoop_step_terminated (ins : nat) (loop : Operation)
  (n : nat) (emitted : list Operation) (newLoop : Operation) (n' : nat) :
  cloneReversedLoop ins loop n = Some ((emitted, newLoop), n') ->
  forall m,
    ensureStepTerminator isTerminator (LoopOp.getStepRegion newLoop) m =
    Some (LoopOp.getStepRegion newLoop, m).
Proof.
  intros H m. apply cloneReversedLoop_inv in H.
  destruct H as (pre & p & n1 & arith & t & n2 & st & n3 & w & n4 & b & n5 &
                 s & n6 & Hex & Har & Hle & Hw & Hb & Hs & -> & ->).
  destruct (buildStepRegion_terminated _ _ _ _ Hs) as (sb & c & H1 & H2 & H3).
  eapply ensureStepTerminator_terminated; [exact H1|exact H2|].
  now apply continue_isTerminator.
Qed.
End StepTerminator.

(** ** The diagnostics of the pass *)

Section WholePass.
Variable applyToVariant : Operation -> bool.
Variable hasCallOp : Operation -> bool.
Variable hasMeasureOp : Operation -> bool.
Variable hasCharacteristic : (Operation -> bool) -> Operation -> bool.
Variable hasQuantum : Operation -> bool.
Variable hasTraitQuantumGate : Operation -> bool.
Variable hasTraitHermitian : Operation -> bool.
Variable isaOperatorInterface : Operation -> bool.
Variable uninitialized : ApplyVariants.

(** X18. Whatever the module, the diagnostics that the pass adds are errors
    of [createAdjointVariantOf], from step 1, followed by at most one
    "could not rewrite all apply ops." from step 2, and the pass is marked
    as failed exactly when it was before or it reported one of them. *)
Theorem runOnOperation_reports (st st' : PassState) :
  runOnOperation applyToVariant hasCallOp hasMeasureOp hasCharacteristic
    hasQuantum hasTraitQuantumGate hasTraitHermitian isaOperatorInterface
    uninitialized st = Some st' ->
  exists errs conv,
    diagnostics st' = diagnostics st ++ errs ++ conv /\
    Forall (fun e => In e adjointErrors) errs /\
    (conv = [] \/ conv = ["could not rewrite all apply ops."]) /\
    passFailed st' = passFailed st || negb (empty (errs ++ conv)).
Proof.
  unfold runOnOperation. intros H. bind_inv H. rename p into st1.
  unfold step1 in E.
  apply (@step1_globals_grows hasCallOp hasMeasureOp hasCharacteristic
           hasQuantum hasTraitQuantumGate hasTraitHermitian
           isaOperatorInterface (module st)) in E; [|auto].
  destruct E as (new & errs & _ & _ & Hd & He & Hp).
  exists errs. unfold step2 in H. bind_inv H.
  destruct p as [r st2]. apply runBuilder_inv in E. destruct E as (n & _ & ->).
  cbn [snd fst] in H.
  destruct (existsb isIllegal _); inv H;
    cbn [diagnostics passFailed withModule withNextId signalPassFailure
         emitError].
  - exists ["could not rewrite all apply ops."]. rewrite Hd, app_assoc.
    repeat split; auto. destruct errs; cbn; now rewrite orb_true_r.
  - exists []. rewrite Hd, !app_nil_r. auto.
Qed.
End WholePass.

(** ** The properties on the sample kernels *)

Lemma cloneReversedLoop_verifies_witness :
  exists emitted newLoop n',
    cloneReversedLoop 0 Cases.accumLoop 1000 =
      Some ((emitted, newLoop), n') /\
    LoopOpVerifier.verify Cases.accumLoop = Some true /\
    LoopOpVerifier.verify newLoop = Some false.
Proof.
  eexists _, _, _. split; [vm_compute; reflexivity|].
  split; [reflexivity|].
  erewrite (@cloneReversedLoop_verifies 0 Cases.accumLoop 1000);
    [reflexivity | reflexivity | reflexivity | reflexivity | reflexivity
    | vm_compute; reflexivity].
Defined.

Lemma reverseTheOpsInTheBlock_twice_witness :
  exists once,
    reverseTheOpsInTheBlock Samples.isGate Samples.isHermitian Samples.isGate
      1 Cases.mixedBlock (Samples.terminator "func.return" 63 6 [])
      (getOpsToInvert Samples.isGate Cases.mixedBlock) 1000 =
      Some (once, 1000) /\
    reverseTheOpsInTheBlock Samples.isGate Samples.isHermitian Samples.isGate
      1 once (Samples.terminator "func.return" 63 6 [])
      (getOpsToInvert Samples.isGate once) 1000 =
      Some (mkBlock 6 [(600, Samples.qvec)]
              [Samples.constant 64 6 7;
               Samples.gate "quake.h" 61 6 [] [Samples.kq];
               Samples.gate "quake.x" 62 6 [] [Samples.kq];
               Samples.terminator "func.return" 63 6 []], 1000).
Proof.
  apply (@reverseTheOpsInTheBlock_twice Samples.isGate Samples.isHermitian
           Samples.isGate 0 0 Cases.mixedBlock
           [Samples.gate "quake.h" 61 6 [] [Samples.kq];
            Samples.constant 64 6 7;
            Samples.gate "quake.x" 62 6 [] [Samples.kq]]
           (Samples.terminator "func.return" 63 6 []) 1000).
  - reflexivity.
  - reflexivity.
  - cbn. repeat constructor; cbn; intuition discriminate.
  - repeat constructor.
  - cbn. repeat constructor; cbn; eauto.
Defined.

Lemma createAdjointVariantOf_scf_for_witness :
  createAdjointVariantOf Samples.hasCallOp Samples.hasMeasureOp
    Samples.hasCharacteristic Cases.hasQuantum Samples.isHermitian
    Samples.isGate Cases.kernelFor "kf.adj" Cases.callers = None.
Proof.
  eapply (@createAdjointVariantOf_scf_for Samples.hasCallOp
            Samples.hasMeasureOp Samples.hasCharacteristic Cases.hasQuantum
            Samples.isHermitian Samples.isGate Cases.kernelFor "kf.adj"
            Cases.callers _ _ Cases.forOp).
  - repeat split; reflexivity.
  - reflexivity.
  - cbn. auto.
  - reflexivity.
  - reflexivity.
Defined.

Lemma synthesis_of_declaration_witness :
  createControlVariantOf Samples.isGate Cases.declaration Cases.callers
    = None /\
  createAdjointVariantOf Samples.hasCallOp Samples.hasMeasureOp
    Samples.hasCharacteristic Samples.isGate Samples.isHermitian
    Samples.isGate Cases.declaration "decl.adj" Cases.callers = None.
Proof.
  destruct (@synthesis_of_declaration Samples.hasCallOp Samples.hasMeasureOp
              Samples.hasCharacteristic Samples.isGate Samples.isGate
              Samples.isHermitian Samples.isGate Cases.declaration
              "decl.adj" Cases.callers) as [H1 H2].
  - reflexivity.
  - split; [exact H1|]. apply H2; reflexivity.
Defined.

Lemma createAdjointControlVariantOf_failure_keeps_ctrl_witness :
  exists st' c,
    createAdjointControlVariantOf Samples.hasCallOp Samples.hasMeasureOp
      Samples.hasCharacteristic Samples.isGate Samples.isGate
      Samples.isHermitian Samples.isGate Samples.kernelWithCall Cases.callers
      = Some (None, st') /\
    passFailed st' = true /\
    diagnostics st' = ["cannot make adjoint of kernel with calls"] /\
    module st' = module Cases.callers ++ [c] /\
    FuncOp.getName c = "caller.ctrl".
Proof.
  eexists _, _. split; [vm_compute; reflexivity|].
  destruct (@createAdjointControlVariantOf_failure_keeps_ctrl
              Samples.hasCallOp Samples.hasMeasureOp
              Samples.hasCharacteristic Samples.isGate Samples.isGate
              Samples.isHermitian Samples.isGate Samples.kernelWithCall
              Cases.callers _ ltac:(vm_compute; reflexivity))
    as (Hp & _ & _).
  split; [exact Hp|]. repeat split.
Defined.

Lemma step1_adds_variants_witness :
  exists st',
    step1 Samples.hasCallOp Samples.hasMeasureOp Samples.hasCharacteristic
      Samples.isGate Samples.isGate Samples.isHermitian Samples.isGate
      (performAnalysis Samples.applyToVariant Samples.noGarbage
         Samples.twoSites) Cases.sites = Some st' /\
    (forall f, In f Samples.twoSites -> In f (module st')) /\
    (forall f, In f (module st') ->
               In f Samples.twoSites \/ variantOf Samples.twoSites f) /\
    diagnostics st' = [] /\ passFailed st' = false.
Proof.
  eexists. split; [vm_compute; reflexivity|].
  destruct (@step1_adds_variants Samples.hasCallOp Samples.hasMeasureOp
              Samples.hasCharacteristic Samples.isGate Samples.isGate
              Samples.isHermitian Samples.isGate
              (performAnalysis Samples.applyToVariant Samples.noGarbage
                 Samples.twoSites) Cases.sites _
              ltac:(vm_compute; reflexivity)) as (H1 & H2 & _).
  split; [exact H1|]. split; [exact H2|]. split; reflexivity.
Defined.

Lemma step2_idempotent_witness :
  exists st',
    step2 Cases.sites = Some st' /\ step2 st' = Some st'.
Proof.
  apply (@step2_idempotent Cases.sites).
  cbn. repeat constructor; discriminate.
Defined.

Lemma runOnOperation_without_apply_witness :
  runOnOperation Samples.applyToVariant Samples.hasCallOp
    Samples.hasMeasureOp Samples.hasCharacteristic Samples.isGate
    Samples.isGate Samples.isHermitian Samples.isGate Samples.noGarbage
    Cases.callers = Some Cases.callers.
Proof.
  apply (@runOnOperation_without_apply Samples.applyToVariant
           Samples.hasCallOp Samples.hasMeasureOp Samples.hasCharacteristic
           Samples.isGate Samples.isGate Samples.isHermitian Samples.isGate
           Samples.noGarbage Cases.callers).
  cbn. repeat constructor.
Defined.

Lemma emitTripArith_trip_count_range_witness :
  exists pre p n1 arith t n2,
    extractLoopParts 0
      (Samples.countedLoop 0 CmpIPredicate.slt 10 "arith.addi" 0) 1000 =
      Some ((pre, p), n1) /\
    emitTripArith 0
      (Samples.countedLoop 0 CmpIPredicate.slt 10 "arith.addi" 0) p n1 =
      Some ((arith, t), n2) /\
    evalValue 64 (fun _ => None) (iters t) = None /\
    evalValue 64 (fun _ => None) (newInitVal t) = None.
Proof.
  eexists _, _, _, _, _, _. split; [vm_compute; reflexivity|].
  match goal with
  | |- ?A /\ _ => assert (E : A) by (vm_compute; reflexivity)
  end.
  split; [exact E|].
  apply (proj2 (@emitTripArith_trip_count_range _ _ _ _ _ _ _ 64
                  (fun _ => None) E eq_refl)).
  reflexivity.
Defined.

Lemma emitTripArith_closed_form_witness :
  exists pre p n1 arith t n2,
    extractLoopParts 0
      (Samples.countedLoop 0 CmpIPredicate.slt 10 "arith.addi" 3) 1000 =
      Some ((pre, p), n1) /\
    emitTripArith 0
      (Samples.countedLoop 0 CmpIPredicate.slt 10 "arith.addi" 3) p n1 =
      Some ((arith, t), n2) /\
    evalValue 64 (fun _ => None) (iters t) = Some 3%Z /\
    evalValue 64 (fun _ => None) (newInitVal t) = Some 6%Z.
Proof.
  eexists _, _, _, _, _, _. split; [vm_compute; reflexivity|].
  match goal with
  | |- ?A /\ _ => assert (E : A) by (vm_compute; reflexivity)
  end.
  split; [exact E|].
  apply (@emitTripArith_closed_form _ _ _ _ _ _ _ 64 (fun _ => None)
           CmpIPredicate.slt 0 10 3 E); try reflexivity.
  - vm_compute. split; reflexivity.
  - vm_compute. discriminate.
Defined.

Lemma ensureStepTerminator_idempotent_witness :
  exists c,
    ensureStepTerminator Cases.isTerminator
      [mkBlock 30 [] [Samples.constant 31 30 1]] 1000 =
      Some ([mkBlock 30 [] [Samples.constant 31 30 1; c]], 1001) /\
    ensureStepTerminator Cases.isTerminator
      [mkBlock 30 [] [Samples.constant 31 30 1; c]] 1001 =
      Some ([mkBlock 30 [] [Samples.constant 31 30 1; c]], 1001).
Proof.
  eexists. split; [vm_compute; reflexivity|].
  apply (@ensureStepTerminator_idempotent Cases.isTerminator
           ltac:(intros c H; unfold isa in H; apply String.eqb_eq in H;
                 unfold Cases.isTerminator; rewrite H; reflexivity)
           [mkBlock 30 [] [Samples.constant 31 30 1]] 1000 _ _
           ltac:(vm_compute; reflexivity)).
Defined.

Lemma cloneReversedLoop_step_terminated_witness :
  exists emitted newLoop n',
    cloneReversedLoop 0 Samples.valueLoop 1000 =
      Some ((emitted, newLoop), n') /\
    ensureStepTerminator Cases.isTerminator (LoopOp.getStepRegion newLoop) n'
    = Some (LoopOp.getStepRegion newLoop, n').
Proof.
  eexists _, _, _. split; [vm_compute; reflexivity|].
  apply (@cloneReversedLoop_step_terminated Cases.isTerminator
           ltac:(intros c H; unfold isa in H; apply String.eqb_eq in H;
                 unfold Cases.isTerminator; rewrite H; reflexivity)
           0 Samples.valueLoop 1000 _ _ _ ltac:(vm_compute; reflexivity)).
Defined.

Lemma runOnOperation_reports_witness :
  exists st',
    runOnOperation Samples.applyToVariant Samples.hasCallOp
      Samples.hasMeasureOp Samples.hasCharacteristic Samples.isGate
      Samples.isGate Samples.isHermitian Samples.isGate Samples.noGarbage
      Cases.adjointOfCaller = Some st' /\
    diagnostics st' = ["cannot make adjoint of kernel with calls"] /\
    passFailed st' = true /\
    exists errs conv,
      diagnostics st' = diagnostics Cases.adjointOfCaller ++ errs ++ conv /\
      Forall (fun e => In e adjointErrors) errs /\
      (conv = [] \/ conv = ["could not rewrite all apply ops."]) /\
      passFailed st' =
        passFailed Cases.adjointOfCaller || negb (empty (errs ++ conv)).
Proof.
  eexists. split; [vm_compute; reflexivity|].
  split; [reflexivity|]. split; [reflexivity|].
  apply (@runOnOperation_reports Samples.applyToVariant Samples.hasCallOp
           Samples.hasMeasureOp Samples.hasCharacteristic Samples.isGate
           Samples.isGate Samples.isHermitian Samples.isGate
           Samples.noGarbage Cases.adjointOfCaller).
  vm_compute. reflexivity.
Defined.

Lemma cloneReversedLoop_defined_value_witness :
  isaCountedLoop Cases.maskLoop = Some true /\
  LoopOpVerifier.verify Cases.maskLoop = Some true /\
  ~ (exists r, cloneReversedLoop 0 Cases.maskLoop 1000 = Some r).
Proof.
  split; [reflexivity|]. split; [reflexivity|]. intros H.
  apply (@cloneReversedLoop_defined_value 0 Cases.maskLoop 1000
           _ _ _ _ eq_refl eq_refl eq_refl eq_refl eq_refl eq_refl
           eq_refl eq_refl) in H.
  destruct H as [H _]. discriminate H.
Defined.
